(** * Context Collapse: the layout-and-interaction engine

    A shallow embedding of the force-directed simulation
    ([GraphSimulation]), the canvas renderer ([GraphRenderer]) and the
    interaction hook ([useCanvasInteraction]) of the repository, with the
    properties the specification states about them.

    The TypeScript code computes with JavaScript numbers.  The embedding is
    written once over an interface [JSNum] of the operations the code uses
    and is read at two instances:

    - [xnum], idealised doubles: exact real arithmetic together with the
      special values NaN and the two infinities (no rounding, no overflow,
      no underflow, no signed zero).  A theorem stated at this instance is
      a statement about exact arithmetic; it gives the values the code
      computes up to rounding, and says nothing about magnitudes beyond the
      range of the doubles.
    - [float], the kernel's binary64 numbers, at which the same definitions
      run, so the scenarios of the specification can be evaluated, and with
      them the places where rounding or overflow shows.

    Theorems that do not depend on the arithmetic are stated for every
    instance of [JSNum]. *)

From Stdlib Require Import Reals Lra Floats Uint63 ZArith String Ascii.
From stdpp Require Import base list strings.

(** ** JavaScript numbers *)

(** The operations on numbers that the three source files use.
    [lit m d] is the decimal literal whose value is [m / d]
    ([lit 995 1000] for [0.995]); [truthy] is JavaScript's ToBoolean on a
    number (false for zero and NaN), the test behind [a || b]. *)
Class JSNum (num : Type) := {
  lit : Z -> positive -> num;
  nadd : num -> num -> num;
  nsub : num -> num -> num;
  nmul : num -> num -> num;
  ndiv : num -> num -> num;
  nsqrt : num -> num;
  nabs : num -> num;
  nlt : num -> num -> bool;
  nle : num -> num -> bool;
  truthy : num -> bool;
  nmax : num -> num -> num;
  nmin : num -> num -> num
}.

Declare Scope js_scope.
Delimit Scope js_scope with js.
Infix "+" := nadd : js_scope.
Infix "-" := nsub : js_scope.
Infix "*" := nmul : js_scope.
Infix "/" := ndiv : js_scope.
Infix "<?" := nlt : js_scope.
Infix "<=?" := nle : js_scope.

(** [a || b] on numbers. *)
Definition orElse {num} `{JSNum num} (a b : num) : num :=
  if truthy a then a else b.

(** [field || dflt] where the field is optional ([x?: number]):
    [undefined] is falsy as well. *)
Definition orDefault {num} `{JSNum num} (a : option num) (dflt : num) : num :=
  match a with
  | Some v => orElse v dflt
  | None => dflt
  end.

(** *** Idealised doubles *)

Inductive xnum : Type :=
  | Fin (r : R)
  | Inf (negative : bool)
  | NaN.

Definition Rltb (a b : R) : bool := if Rlt_dec a b then true else false.
Definition Rleb (a b : R) : bool := if Rle_dec a b then true else false.
Definition Rzerob (a : R) : bool := if Req_dec_T a 0 then true else false.

Module X.

Definition neg (a : xnum) : xnum :=
  match a with
  | Fin r => Fin (- r)
  | Inf s => Inf (negb s)
  | NaN => NaN
  end.

Definition add (a b : xnum) : xnum :=
  match a, b with
  | NaN, _ | _, NaN => NaN
  | Fin r, Fin s => Fin (r + s)
  | Inf s, Fin _ | Fin _, Inf s => Inf s
  | Inf s, Inf t => if Bool.eqb s t then Inf s else NaN
  end.

Definition sub (a b : xnum) : xnum := add a (neg b).

Definition mul (a b : xnum) : xnum :=
  match a, b with
  | NaN, _ | _, NaN => NaN
  | Fin r, Fin s => Fin (r * s)
  | Inf s, Fin r | Fin r, Inf s =>
      if Rzerob r then NaN else Inf (xorb s (Rltb r 0))
  | Inf s, Inf t => Inf (xorb s t)
  end.

Definition div (a b : xnum) : xnum :=
  match a, b with
  | NaN, _ | _, NaN => NaN
  | Fin r, Fin s =>
      if Rzerob s
      then (if Rzerob r then NaN else Inf (Rltb r 0))
      else Fin (r / s)
  | Fin _, Inf _ => Fin 0
  | Inf s, Fin r => Inf (xorb s (Rltb r 0))
  | Inf _, Inf _ => NaN
  end.

Definition sqrt (a : xnum) : xnum :=
  match a with
  | Fin r => if Rltb r 0 then NaN else Fin (R_sqrt.sqrt r)
  | Inf false => Inf false
  | Inf true => NaN
  | NaN => NaN
  end.

Definition abs (a : xnum) : xnum :=
  match a with
  | Fin r => Fin (Rabs r)
  | Inf _ => Inf false
  | NaN => NaN
  end.

Definition lt (a b : xnum) : bool :=
  match a, b with
  | NaN, _ | _, NaN => false
  | Fin r, Fin s => Rltb r s
  | Fin _, Inf s => negb s
  | Inf s, Fin _ => s
  | Inf s, Inf t => s && negb t
  end.

Definition le (a b : xnum) : bool :=
  match a, b with
  | NaN, _ | _, NaN => false
  | Fin r, Fin s => Rleb r s
  | Fin _, Inf s => negb s
  | Inf s, Fin _ => s
  | Inf s, Inf t => s || negb t
  end.

Definition truthy (a : xnum) : bool :=
  match a with
  | Fin r => negb (Rzerob r)
  | Inf _ => true
  | NaN => false
  end.

(** [Math.max] and [Math.min]: NaN as soon as one argument is NaN. *)
Definition max (a b : xnum) : xnum :=
  match a, b with
  | NaN, _ | _, NaN => NaN
  | _, _ => if lt a b then b else a
  end.

Definition min (a b : xnum) : xnum :=
  match a, b with
  | NaN, _ | _, NaN => NaN
  | _, _ => if lt b a then b else a
  end.

Definition lit (m : Z) (d : positive) : xnum := Fin (IZR m / IZR (Zpos d)).

End X.

#[export] Instance xnum_JSNum : JSNum xnum := {|
  lit := X.lit;
  nadd := X.add; nsub := X.sub; nmul := X.mul; ndiv := X.div;
  nsqrt := X.sqrt; nabs := X.abs;
  nlt := X.lt; nle := X.le;
  truthy := X.truthy;
  nmax := X.max; nmin := X.min
|}.

(** *** Binary64 *)

Module F.

Definition ofZ (z : Z) : float :=
  match z with
  | Z0 => PrimFloat.of_uint63 0
  | Zpos _ => PrimFloat.of_uint63 (Uint63.of_Z z)
  | Zneg p => PrimFloat.opp (PrimFloat.of_uint63 (Uint63.of_Z (Zpos p)))
  end.

(** The literals of the source have at most four significant digits, so
    numerator and denominator are exact and the quotient is the double
    nearest to the decimal, as the JavaScript parser produces it. *)
Definition lit (m : Z) (d : positive) : float :=
  PrimFloat.div (ofZ m) (ofZ (Zpos d)).

Definition truthy (a : float) : bool :=
  negb (PrimFloat.is_nan a || PrimFloat.eqb a PrimFloat.zero).

(** [Math.max] and [Math.min], up to the sign of a zero result. *)
Definition max (a b : float) : float :=
  if PrimFloat.is_nan a || PrimFloat.is_nan b then PrimFloat.nan
  else if PrimFloat.ltb a b then b else a.

Definition min (a b : float) : float :=
  if PrimFloat.is_nan a || PrimFloat.is_nan b then PrimFloat.nan
  else if PrimFloat.ltb b a then b else a.

End F.

#[export] Instance float_JSNum : JSNum float := {|
  lit := F.lit;
  nadd := PrimFloat.add; nsub := PrimFloat.sub;
  nmul := PrimFloat.mul; ndiv := PrimFloat.div;
  nsqrt := PrimFloat.sqrt; nabs := PrimFloat.abs;
  nlt := PrimFloat.ltb; nle := PrimFloat.leb;
  truthy := F.truthy;
  nmax := F.max; nmin := F.min
|}.

(** ** JavaScript strings *)

(** A string of the source is held as the sequence of the bytes of its
    UTF-8 form.  On well-formed text, equality of the byte sequences is
    equality of the strings and one byte sequence occurs in another exactly
    when the one string occurs in the other, so [===] and
    [String.prototype.includes] are computed on the bytes. *)

(** Lowering of the letters A to Z. *)
Definition lowerAscii (c : ascii) : ascii :=
  let n := nat_of_ascii c in
  if (65 <=? n)%nat && (n <=? 90)%nat then ascii_of_nat (n + 32) else c.

Fixpoint lowerAsciiString (s : string) : string :=
  match s with
  | EmptyString => EmptyString
  | String c rest => String (lowerAscii c) (lowerAsciiString rest)
  end.

(** Text made of ASCII characters only. *)
Fixpoint allAscii (s : string) : bool :=
  match s with
  | EmptyString => true
  | String c rest => (nat_of_ascii c <? 128)%nat && allAscii rest
  end.

(** [String.prototype.toLowerCase] follows the case mappings of Unicode,
    which are not embedded.  It is a function of the host, of which one
    property is used: on ASCII text it lowers the letters A to Z and leaves
    every other character as it is. *)
Class JSText : Type := {
  toLowerCase : string -> string;
  toLowerCase_ascii : forall s, allAscii s = true -> toLowerCase s = lowerAsciiString s
}.

(** The host restricted to ASCII text, at which the examples are
    evaluated. *)
Definition asciiText : JSText :=
  {| toLowerCase := lowerAsciiString; toLowerCase_ascii := fun _ _ => eq_refl |}.

(** ** Data model ([types]) *)

Section Model.

Context {num : Type} `{JSNum num} `{JSText}.

Local Open Scope js_scope.

(** [interface Node].  The payload fields [content], [type] and
    [timestamp] are never read by the engine and are left out.  The motion
    state is optional in the source ([x?: number]). *)
Record Node : Type := mkNode {
  id : string;
  label : string;
  x : option num;
  y : option num;
  vx : option num;
  vy : option num
}.

(** [interface Connection]. *)
Record Connection : Type := mkConnection {
  source : string;
  target : string;
  strength : num;
  reason : string;
  isSurprising : bool
}.

Record Point : Type := mkPoint { px : num; py : num }.

Record Size : Type := mkSize { width : num; height : num }.

(** [interface CanvasState]. *)
Record CanvasState : Type := mkCanvasState {
  zoom : num;
  pan : Point;
  isDraggingCanvas : bool;
  draggedNode : option string;
  lastMousePos : Point;
  popupPosition : option Point;
  canvasSize : Size
}.

Definition zero : num := lit 0 1.
Definition one : num := lit 1 1.

(** [node.id === draggedNodeId], the second operand being
    [string | undefined]. *)
Definition isDragged (draggedNodeId : option string) (node : Node) : bool :=
  match draggedNodeId with
  | Some d => String.eqb (id node) d
  | None => false
  end.

Definition setVelocity (node : Node) (vx' vy' : num) : Node :=
  {| id := id node; label := label node; x := x node; y := y node;
     vx := Some vx'; vy := Some vy' |}.

(** [nodes.find(n => n.id === key)], with the index of the object found,
    so that the writes through the reference can be replayed on the
    array. *)
Definition findNode (nodes : list Node) (key : string) : option (nat * Node) :=
  list_find (fun n => id n = key) nodes.

(** ** The physics engine ([GraphSimulation]) *)

(** The fields of the class.  [baseAlpha], [minAlpha], [cooling] and
    [centerForce] are [readonly]. *)
Record GraphSimulation : Type := mkSim {
  alpha : num;
  repulsion : num;
  attraction : num;
  damping : num
}.

Definition baseAlpha : num := lit 3 10.
Definition minAlpha : num := lit 5 100.
Definition cooling : num := lit 995 1000.
Definition centerForce : num := lit 25 10000.

(** [new GraphSimulation()]. *)
Definition newGraphSimulation : GraphSimulation :=
  {| alpha := baseAlpha;
     repulsion := lit 5000 1;
     attraction := lit 1 100;
     damping := lit 8 10 |}.

Definition setAlpha (sim : GraphSimulation) (a : num) : GraphSimulation :=
  {| alpha := a; repulsion := repulsion sim;
     attraction := attraction sim; damping := damping sim |}.

(** [energize(amount = 0.05)]. *)
Definition energize (sim : GraphSimulation) (amount : option num) : GraphSimulation :=
  let amount := default (lit 5 100) amount in
  setAlpha sim (nmin baseAlpha (alpha sim + amount)).

(** The callback of [applyCenteringForce]. *)
Definition centerNode (sim : GraphSimulation) (draggedNodeId : option string)
    (node : Node) : Node :=
  if isDragged draggedNodeId node then node
  else
    setVelocity node
      (orDefault (vx node) zero - orDefault (x node) zero * centerForce * alpha sim)
      (orDefault (vy node) zero - orDefault (y node) zero * centerForce * alpha sim).

Definition applyCenteringForce (sim : GraphSimulation) (nodes : list Node)
    (draggedNodeId : option string) : list Node :=
  if centerForce <=? zero then nodes
  else map (centerNode sim draggedNodeId) nodes.

(** The locals [dx], [dy] and [dist] shared by the two force steps:
    the offset from [node1] to [node2] and its length, a zero (or NaN)
    length being replaced by 1. *)
Definition offsetX (node1 node2 : Node) : num :=
  orDefault (x node2) zero - orDefault (x node1) zero.
Definition offsetY (node1 node2 : Node) : num :=
  orDefault (y node2) zero - orDefault (y node1) zero.
Definition euclid (dx dy : num) : num := nsqrt (dx * dx + dy * dy).
Definition distOr1 (dx dy : num) : num := orElse (euclid dx dy) one.

(** The locals [force], [fx], [fy] of the body of the double loop of
    [applyRepulsionForces]. *)
Definition repulsionForce (sim : GraphSimulation) (dist : num) : num :=
  (repulsion sim * alpha sim) / (dist * dist).

Definition repulsionVector (sim : GraphSimulation) (node1 node2 : Node) : num * num :=
  let dx := offsetX node1 node2 in
  let dy := offsetY node1 node2 in
  let dist := distOr1 dx dy in
  let force := repulsionForce sim dist in
  ((dx / dist) * force, (dy / dist) * force).

(** [n.vx = (n.vx || 0) - fx; n.vy = (n.vy || 0) - fy] and its mirror. *)
Definition pushBack (f : num * num) (node : Node) : Node :=
  setVelocity node (orDefault (vx node) zero - fst f) (orDefault (vy node) zero - snd f).
Definition pushForth (f : num * num) (node : Node) : Node :=
  setVelocity node (orDefault (vx node) zero + fst f) (orDefault (vy node) zero + snd f).

(** A write through an object reference held at index [i] of the array,
    guarded by [node.id !== draggedNodeId]. *)
Definition updateUnlessDragged (draggedNodeId : option string) (i : nat)
    (f : Node -> Node) (nodes : list Node) : list Node :=
  match nodes !! i with
  | Some node => if isDragged draggedNodeId node then nodes else <[i := f node]> nodes
  | None => nodes
  end.

(** The body of the inner loop, for the indices [i < j]. *)
Definition repelPair (sim : GraphSimulation) (draggedNodeId : option string)
    (nodes : list Node) (i j : nat) : list Node :=
  match nodes !! i, nodes !! j with
  | Some node1, Some node2 =>
      let f := repulsionVector sim node1 node2 in
      updateUnlessDragged draggedNodeId j (pushForth f)
        (updateUnlessDragged draggedNodeId i (pushBack f) nodes)
  | _, _ => nodes
  end.

(** [for (let j = i + 1; j < nodes.length; j++)]. *)
Definition repelFrom (sim : GraphSimulation) (draggedNodeId : option string)
    (nodes : list Node) (i : nat) : list Node :=
  fold_left (fun ns j => repelPair sim draggedNodeId ns i j)
    (seq (S i) (length nodes - S i)) nodes.

(** [for (let i = 0; i < nodes.length; i++)]. *)
Definition applyRepulsionForces (sim : GraphSimulation) (nodes : list Node)
    (draggedNodeId : option string) : list Node :=
  fold_left (repelFrom sim draggedNodeId) (seq 0 (length nodes)) nodes.

(** The locals [force], [fx], [fy] of [applyAttractionForces]. *)
Definition attractionForce (sim : GraphSimulation) (conn : Connection) (dist : num) : num :=
  dist * attraction sim * orElse (strength conn) (lit 1 10) * alpha sim.

Definition attractionVector (sim : GraphSimulation) (conn : Connection)
    (src tgt : Node) : num * num :=
  let dx := offsetX src tgt in
  let dy := offsetY src tgt in
  let dist := distOr1 dx dy in
  let force := attractionForce sim conn dist in
  ((dx / dist) * force, (dy / dist) * force).

(** The callback of [connections.forEach] in [applyAttractionForces].
    [source] and [target] are references into the array: when both ids
    resolve to the same object the second write reads what the first one
    wrote, which [updateUnlessDragged] reproduces by reading the array
    again. *)
Definition attractConnection (sim : GraphSimulation) (draggedNodeId : option string)
    (nodes : list Node) (conn : Connection) : list Node :=
  match findNode nodes (source conn), findNode nodes (target conn) with
  | Some (si, src), Some (ti, tgt) =>
      let f := attractionVector sim conn src tgt in
      updateUnlessDragged draggedNodeId ti (pushBack f)
        (updateUnlessDragged draggedNodeId si (pushForth f) nodes)
  | _, _ => nodes
  end.

Definition applyAttractionForces (sim : GraphSimulation) (nodes : list Node)
    (connections : list Connection) (draggedNodeId : option string) : list Node :=
  fold_left (attractConnection sim draggedNodeId) connections nodes.

(** [if (Math.abs(v || 0) < 0.0001) v = 0]. *)
Definition snap (v : num) : num :=
  if nabs (orElse v zero) <? lit 1 10000 then zero else v.

(** The callback of [updatePositions]. *)
Definition moveNode (sim : GraphSimulation) (draggedNodeId : option string)
    (node : Node) : Node :=
  if isDragged draggedNodeId node then node
  else
    let x' := orDefault (x node) zero + orDefault (vx node) zero in
    let y' := orDefault (y node) zero + orDefault (vy node) zero in
    let vx' := orDefault (vx node) zero * damping sim in
    let vy' := orDefault (vy node) zero * damping sim in
    {| id := id node; label := label node;
       x := Some x'; y := Some y';
       vx := Some (snap vx'); vy := Some (snap vy') |}.

Definition updatePositions (sim : GraphSimulation) (nodes : list Node)
    (draggedNodeId : option string) : list Node :=
  map (moveNode sim draggedNodeId) nodes.

(** [simulate(nodes, connections, draggedNodeId?)]: the new engine state
    and the node array after the in-place writes. *)
Definition simulate (sim : GraphSimulation) (nodes : list Node)
    (connections : list Connection) (draggedNodeId : option string)
    : GraphSimulation * list Node :=
  let nodes1 := applyCenteringForce sim nodes draggedNodeId in
  let nodes2 := applyRepulsionForces sim nodes1 draggedNodeId in
  let nodes3 := applyAttractionForces sim nodes2 connections draggedNodeId in
  let nodes4 := updatePositions sim nodes3 draggedNodeId in
  (setAlpha sim (nmax minAlpha (alpha sim * cooling)), nodes4).

(** [Math.random()] is an input of the model: [random k] is the value of
    the [k]-th call. *)
Definition placeNode (random : nat -> num) (canvasWidth canvasHeight : num)
    (acc : nat * list Node) (node : Node) : nat * list Node :=
  let '(k, done) := acc in
  match x node, y node with
  | Some _, Some _ => (k, done ++ [node])
  | _, _ =>
      let x' := random k * canvasWidth - canvasWidth / lit 2 1 in
      let y' := random (S k) * canvasHeight - canvasHeight / lit 2 1 in
      (S (S k),
       done ++ [{| id := id node; label := label node;
                   x := Some x'; y := Some y';
                   vx := Some zero; vy := Some zero |}])
  end.

(** [initializeNodePositions(nodes, canvasWidth = 800, canvasHeight = 600)]. *)
Definition initializeNodePositions (sim : GraphSimulation) (random : nat -> num)
    (nodes : list Node) (canvasWidth canvasHeight : option num)
    : GraphSimulation * list Node :=
  let w := default (lit 800 1) canvasWidth in
  let h := default (lit 600 1) canvasHeight in
  (energize sim (Some (lit 1 10)),
   snd (fold_left (placeNode random w h) nodes (0, []))).

(** ** The drawing surface *)

(** The calls the renderer makes on its [CanvasRenderingContext2D], in the
    order it makes them.  [Arc x y r] stands for
    [arc(x, y, r, 0, Math.PI * 2)], a full circle, the only arc drawn. *)
Inductive CanvasOp : Type :=
  | ClearRect (x0 y0 w h : num)
  | Save
  | Restore
  | Translate (tx ty : num)
  | Scale (sx sy : num)
  | BeginPath
  | MoveTo (x0 y0 : num)
  | LineTo (x0 y0 : num)
  | Arc (x0 y0 r : num)
  | SetFillStyle (style : string)
  | SetStrokeStyle (style : string)
  | SetLineWidth (w : num)
  | SetLineDash (segments : list num)
  | SetGlobalAlpha (a : num)
  | Stroke
  | Fill
  | SetFont (font : string)
  | SetTextAlign (align : string)
  | FillText (text : string) (x0 y0 : num).

(** What the browser does with those calls, as far as the properties below
    need it: the current transformation (a scaling followed by a
    translation, which is all [translate] and [scale] can build), the
    current path, the drawing attributes and the list of what has been
    painted.  Shapes are kept in user-space coordinates. *)
Inductive Shape : Type :=
  | Segment (from to : Point)
  | Circle (centre : Point) (radius : num).

Inductive Painted : Type :=
  | Stroked (path : list Shape) (style : string) (lineWidth : num)
      (dash : list num) (opacity : num)
  | Filled (path : list Shape) (style : string)
  | Text (text : string) (anchor : Point) (style : string).

Record Transform : Type := mkTransform {
  scaleX : num; scaleY : num; shiftX : num; shiftY : num
}.

Record Canvas : Type := mkCanvas {
  ctm : Transform;
  savedCtm : list Transform;
  pen : option Point;
  path : list Shape;
  fillStyle : string;
  strokeStyle : string;
  lineWidth : num;
  lineDash : list num;
  globalAlpha : num;
  painted : list Painted
}.

Definition identity : Transform :=
  {| scaleX := one; scaleY := one; shiftX := zero; shiftY := zero |}.

(** A fresh context: identity transform, empty path, black ink. *)
Definition blankCanvas : Canvas :=
  {| ctm := identity; savedCtm := []; pen := None; path := [];
     fillStyle := "#000000"; strokeStyle := "#000000";
     lineWidth := one; lineDash := []; globalAlpha := one; painted := [] |}.

(** The device point a user-space point is drawn at. *)
Definition applyTransform (t : Transform) (p : Point) : Point :=
  {| px := shiftX t + scaleX t * px p; py := shiftY t + scaleY t * py p |}.

Definition withCtm (c : Canvas) (t : Transform) (stack : list Transform) : Canvas :=
  {| ctm := t; savedCtm := stack; pen := pen c; path := path c;
     fillStyle := fillStyle c; strokeStyle := strokeStyle c;
     lineWidth := lineWidth c; lineDash := lineDash c;
     globalAlpha := globalAlpha c; painted := painted c |}.

Definition withPath (c : Canvas) (p : option Point) (shapes : list Shape) : Canvas :=
  {| ctm := ctm c; savedCtm := savedCtm c; pen := p; path := shapes;
     fillStyle := fillStyle c; strokeStyle := strokeStyle c;
     lineWidth := lineWidth c; lineDash := lineDash c;
     globalAlpha := globalAlpha c; painted := painted c |}.

Definition withInk (c : Canvas) (fill stroke : string) (w : num)
    (dash : list num) (a : num) : Canvas :=
  {| ctm := ctm c; savedCtm := savedCtm c; pen := pen c; path := path c;
     fillStyle := fill; strokeStyle := stroke;
     lineWidth := w; lineDash := dash; globalAlpha := a; painted := painted c |}.

Definition paint (c : Canvas) (p : Painted) : Canvas :=
  {| ctm := ctm c; savedCtm := savedCtm c; pen := pen c; path := path c;
     fillStyle := fillStyle c; strokeStyle := strokeStyle c;
     lineWidth := lineWidth c; lineDash := lineDash c;
     globalAlpha := globalAlpha c; painted := painted c ++ [p] |}.

Definition execOp (c : Canvas) (op : CanvasOp) : Canvas :=
  match op with
  | ClearRect _ _ _ _ => c
  | Save => withCtm c (ctm c) (ctm c :: savedCtm c)
  | Restore =>
      match savedCtm c with
      | t :: stack => withCtm c t stack
      | [] => c
      end
  | Translate tx ty =>
      let t := ctm c in
      withCtm c {| scaleX := scaleX t; scaleY := scaleY t;
                   shiftX := shiftX t + scaleX t * tx;
                   shiftY := shiftY t + scaleY t * ty |} (savedCtm c)
  | Scale sx sy =>
      let t := ctm c in
      withCtm c {| scaleX := scaleX t * sx; scaleY := scaleY t * sy;
                   shiftX := shiftX t; shiftY := shiftY t |} (savedCtm c)
  | BeginPath => withPath c None []
  | MoveTo x0 y0 => withPath c (Some (mkPoint x0 y0)) (path c)
  | LineTo x0 y0 =>
      match pen c with
      | Some p => withPath c (Some (mkPoint x0 y0)) (path c ++ [Segment p (mkPoint x0 y0)])
      | None => withPath c (Some (mkPoint x0 y0)) (path c)
      end
  | Arc x0 y0 r =>
      withPath c (Some (mkPoint (x0 + r) y0)) (path c ++ [Circle (mkPoint x0 y0) r])
  | SetFillStyle s => withInk c s (strokeStyle c) (lineWidth c) (lineDash c) (globalAlpha c)
  | SetStrokeStyle s => withInk c (fillStyle c) s (lineWidth c) (lineDash c) (globalAlpha c)
  | SetLineWidth w => withInk c (fillStyle c) (strokeStyle c) w (lineDash c) (globalAlpha c)
  | SetLineDash d => withInk c (fillStyle c) (strokeStyle c) (lineWidth c) d (globalAlpha c)
  | SetGlobalAlpha a => withInk c (fillStyle c) (strokeStyle c) (lineWidth c) (lineDash c) a
  | Stroke =>
      paint c (Stroked (path c) (strokeStyle c) (lineWidth c) (lineDash c) (globalAlpha c))
  | Fill => paint c (Filled (path c) (fillStyle c))
  | SetFont _ => c
  | SetTextAlign _ => c
  | FillText s x0 y0 => paint c (Text s (mkPoint x0 y0) (fillStyle c))
  end.

Definition exec (c : Canvas) (ops : list CanvasOp) : Canvas := fold_left execOp ops c.

(** ** The renderer ([GraphRenderer]) *)

Record GraphRenderer : Type := mkRenderer { isDark : bool }.

Definition themed (r : GraphRenderer) (dark light : string) : string :=
  if isDark r then dark else light.

(** [clear(width, height)]. *)
Definition clear (w h : num) : list CanvasOp := [ClearRect zero zero w h].

(** [setupTransform(width, height, zoom, pan)]. *)
Definition setupTransform (w h z : num) (p : Point) : list CanvasOp :=
  [Save; Translate (w / lit 2 1 + px p) (h / lit 2 1 + py p); Scale z z].

(** [restoreTransform()]. *)
Definition restoreTransform : list CanvasOp := [Restore].

(** The callback of [connections.forEach] in [renderConnections]. *)
Definition renderConnection (r : GraphRenderer) (nodes : list Node)
    (filterStrength : num) (conn : Connection) : list CanvasOp :=
  if strength conn <? filterStrength then []
  else
    match findNode nodes (source conn), findNode nodes (target conn) with
    | Some (_, src), Some (_, tgt) =>
        [BeginPath;
         MoveTo (orDefault (x src) zero) (orDefault (y src) zero);
         LineTo (orDefault (x tgt) zero) (orDefault (y tgt) zero)]
        ++ (if isSurprising conn
            then [SetStrokeStyle (themed r "#fbbf24" "#f59e0b");
                  SetLineWidth (lit 2 1);
                  SetLineDash [lit 5 1; lit 5 1]]
            else [SetStrokeStyle (themed r "#4b5563" "#d1d5db");
                  SetLineWidth (lit 1 1);
                  SetLineDash []])
        ++ [SetGlobalAlpha (strength conn); Stroke; SetGlobalAlpha (lit 1 1)]
    | _, _ => []
    end.

Definition renderConnections (r : GraphRenderer) (connections : list Connection)
    (nodes : list Node) (filterStrength : num) : list CanvasOp :=
  flat_map (renderConnection r nodes filterStrength) connections.

Fixpoint startsWith (s t : string) {struct t} : bool :=
  match t, s with
  | EmptyString, _ => true
  | String _ _, EmptyString => false
  | String b t', String a s' => Ascii.eqb a b && startsWith s' t'
  end.

(** [s.includes(t)]. *)
Fixpoint includes (s t : string) : bool :=
  startsWith s t ||
  match s with
  | EmptyString => false
  | String _ s' => includes s' t
  end.

(** [nodeId === node.id] where [nodeId : string | null]. *)
Definition isNode (nodeId : option string) (node : Node) : bool :=
  match nodeId with
  | Some k => String.eqb k (id node)
  | None => false
  end.

(** [searchQuery && node.label.toLowerCase().includes(...)], as the
    condition it is used for: the empty string is falsy. *)
Definition isSearchMatch (searchQuery : string) (node : Node) : bool :=
  negb (String.eqb searchQuery "")
  && includes (toLowerCase (label node)) (toLowerCase searchQuery).

(** The value assigned to [fillStyle] before the circle is filled. *)
Definition nodeFill (r : GraphRenderer) (selectedNodeId : option string)
    (searchQuery : string) (node : Node) : string :=
  if isSearchMatch searchQuery node then themed r "#3b82f6" "#2563eb"
  else if isNode selectedNodeId node then themed r "#8b5cf6" "#7c3aed"
  else themed r "#6366f1" "#4f46e5".

Definition nodeRadius (hoveredNodeId : option string) (node : Node) : num :=
  if isNode hoveredNodeId node then lit 12 1 else lit 10 1.

(** The callback of [nodes.forEach] in [renderNodes]. *)
Definition renderNode (r : GraphRenderer) (hoveredNodeId selectedNodeId : option string)
    (searchQuery : string) (z : num) (node : Node) : list CanvasOp :=
  let isHovered := isNode hoveredNodeId node in
  let isSelected := isNode selectedNodeId node in
  let x0 := orDefault (x node) zero in
  let y0 := orDefault (y node) zero in
  [BeginPath;
   Arc x0 y0 (nodeRadius hoveredNodeId node);
   SetFillStyle (nodeFill r selectedNodeId searchQuery node);
   Fill]
  ++ (if isHovered || isSelected
      then [SetStrokeStyle (themed r "#fff" "#000"); SetLineWidth (lit 2 1); Stroke]
      else [])
  ++ (if isHovered || isSelected || isSearchMatch searchQuery node || (lit 15 10 <? z)
      then [SetFillStyle (themed r "#fff" "#000");
            SetFont "12px system-ui";
            SetTextAlign "center";
            FillText (label node) x0 (y0 - lit 15 1)]
      else []).

Definition renderNodes (r : GraphRenderer) (nodes : list Node)
    (hoveredNodeId selectedNodeId : option string) (searchQuery : string)
    (z : num) : list CanvasOp :=
  flat_map (renderNode r hoveredNodeId selectedNodeId searchQuery z) nodes.

(** ** The interaction hook ([useCanvasInteraction]) *)

(** [container.getBoundingClientRect()], as far as it is read. *)
Record Rect : Type := mkRect { left : num; top : num }.

(** The initial [canvasState]. *)
Definition initialCanvasState : CanvasState :=
  {| zoom := lit 1 1; pan := mkPoint zero zero;
     isDraggingCanvas := false; draggedNode := None;
     lastMousePos := mkPoint zero zero; popupPosition := None;
     canvasSize := mkSize (lit 800 1) (lit 600 1) |}.

(** The locals [canvasX], [canvasY] of [getNodeAtPosition] and
    [handleMouseMove]: the world-space point under a pointer position. *)
Definition toWorld (rect : Rect) (st : CanvasState) (screenX screenY : num) : Point :=
  {| px := (screenX - left rect - width (canvasSize st) / lit 2 1 - px (pan st)) / zoom st;
     py := (screenY - top rect - height (canvasSize st) / lit 2 1 - py (pan st)) / zoom st |}.

(** The predicate given to [nodes.find] in [getNodeAtPosition]. *)
Definition isNear (p : Point) (node : Node) : bool :=
  let dx := orDefault (x node) zero - px p in
  let dy := orDefault (y node) zero - py p in
  euclid dx dy <? lit 12 1.

(** [getNodeAtPosition(screenX, screenY, nodes)]; [container] is
    [containerRef.current]. *)
Definition getNodeAtPosition (container : option Rect) (st : CanvasState)
    (screenX screenY : num) (nodes : list Node) : option Node :=
  match container with
  | None => None
  | Some rect =>
      snd <$> list_find (fun node => isNear (toWorld rect st screenX screenY) node = true) nodes
  end.

(** The fields of a [WheelEvent] that [handleWheel] reads. *)
Record WheelEvent : Type := mkWheel { metaKey : bool; ctrlKey : bool; deltaY : num }.

Definition setZoom (st : CanvasState) (z : num) : CanvasState :=
  {| zoom := z; pan := pan st; isDraggingCanvas := isDraggingCanvas st;
     draggedNode := draggedNode st; lastMousePos := lastMousePos st;
     popupPosition := popupPosition st; canvasSize := canvasSize st |}.

(** [handleWheel(event)], as the state update it schedules. *)
Definition handleWheel (event : WheelEvent) (prev : CanvasState) : CanvasState :=
  if metaKey event || ctrlKey event then
    let delta := if zero <? deltaY event then lit 9 10 else lit 11 10 in
    setZoom prev (nmax (lit 5 10) (nmin (lit 3 1) (zoom prev * delta)))
  else prev.

(** [resetView()]. *)
Definition resetView (prev : CanvasState) : CanvasState :=
  {| zoom := lit 1 1; pan := mkPoint zero zero;
     isDraggingCanvas := isDraggingCanvas prev;
     draggedNode := draggedNode prev; lastMousePos := lastMousePos prev;
     popupPosition := popupPosition prev; canvasSize := canvasSize prev |}.

(** The device-to-page placement of the canvas composed with the
    renderer's camera: the pointer position at which the world point [p] is
    shown.  The canvas fills the container, whose top-left corner is
    [rect]. *)
Definition toScreen (rect : Rect) (st : CanvasState) (p : Point) : Point :=
  let camera :=
    ctm (exec blankCanvas
           (setupTransform (width (canvasSize st)) (height (canvasSize st))
              (zoom st) (pan st))) in
  let q := applyTransform camera p in
  {| px := left rect + px q; py := top rect + py q |}.

(** [n] ticks of the render loop on the same arrays and with the same
    dragged node. *)
Fixpoint simulateN (n : nat) (sim : GraphSimulation)
    (nodes : list Node) (connections : list Connection)
    (draggedNodeId : option string) : GraphSimulation * list Node :=
  match n with
  | O => (sim, nodes)
  | S k =>
      let '(sim', nodes') := simulate sim nodes connections draggedNodeId in
      simulateN k sim' nodes' connections draggedNodeId
  end.

(** The two public methods of the engine, as the host may call them in any
    order and with any arguments. *)
Inductive EngineCall : Type :=
  | CallSimulate (nodes : list Node) (connections : list Connection)
      (draggedNodeId : option string)
  | CallInitialize (random : nat -> num) (nodes : list Node)
      (canvasWidth canvasHeight : option num).

Definition engineStep (sim : GraphSimulation) (call : EngineCall)
    : GraphSimulation :=
  match call with
  | CallSimulate nodes connections d => fst (simulate sim nodes connections d)
  | CallInitialize random nodes w h => fst (initializeNodePositions sim random nodes w h)
  end.

Definition engineRun (sim : GraphSimulation) (calls : list EngineCall)
    : GraphSimulation :=
  fold_left engineStep calls sim.

End Model.

Arguments Node : clear implicits.
Arguments Connection : clear implicits.
Arguments Point : clear implicits.
Arguments Size : clear implicits.
Arguments CanvasState : clear implicits.
Arguments GraphSimulation : clear implicits.
Arguments CanvasOp : clear implicits.
Arguments Shape : clear implicits.
Arguments Painted : clear implicits.
Arguments Transform : clear implicits.
Arguments Canvas : clear implicits.
Arguments Rect : clear implicits.
Arguments WheelEvent : clear implicits.
Arguments EngineCall : clear implicits.

(** * The surroundings of the engine *)

Section Host.

Context {num : Type} `{JSNum num} `{JSText}.

Local Open Scope js_scope.

(** ** The pointer handlers of [useCanvasInteraction] *)

(** The fields of a [React.MouseEvent] that the handlers read. *)
Record MouseEvent : Type := mkMouse { clientX : num; clientY : num }.

(** A call of one of the two callbacks the handlers are given:
    [onNodeSelect(node | null)] and [onNodePositionUpdate(nodeId, x, y)]. *)
Inductive HostCall : Type :=
  | NodeSelect (node : option (Node num))
  | NodePositionUpdate (nodeId : string) (x0 y0 : num).

(** JavaScript's ToBoolean on a string: only the empty string is falsy. *)
Definition nonEmpty (s : string) : bool := negb (String.eqb s "").

(** [value || null] and [value || undefined] on a [string | null]. *)
Definition orNull (s : option string) : option string :=
  match s with
  | Some k => if nonEmpty k then Some k else None
  | None => None
  end.

Definition setDraggedNode (st : CanvasState num) (dn : option string) : CanvasState num :=
  {| zoom := zoom st; pan := pan st; isDraggingCanvas := isDraggingCanvas st;
     draggedNode := dn; lastMousePos := lastMousePos st;
     popupPosition := popupPosition st; canvasSize := canvasSize st |}.

Definition setPopupPosition (st : CanvasState num) (p : option (Point num)) : CanvasState num :=
  {| zoom := zoom st; pan := pan st; isDraggingCanvas := isDraggingCanvas st;
     draggedNode := draggedNode st; lastMousePos := lastMousePos st;
     popupPosition := p; canvasSize := canvasSize st |}.

Definition setCanvasSize (st : CanvasState num) (sz : Size num) : CanvasState num :=
  {| zoom := zoom st; pan := pan st; isDraggingCanvas := isDraggingCanvas st;
     draggedNode := draggedNode st; lastMousePos := lastMousePos st;
     popupPosition := popupPosition st; canvasSize := sz |}.

(** The handlers read the state of the render they were created in and
    queue updates of the form [prev => ...].  The model runs each handler on
    the state of the latest render, so that what is read and [prev]
    coincide, and returns the state after the queued updates together with
    the callbacks called, in order. *)

(** [handleMouseDown(e, nodes, onNodeSelect)]. *)
Definition handleMouseDown (container : option (Rect num)) (st : CanvasState num)
    (e : MouseEvent) (nodes : list (Node num)) : CanvasState num * list HostCall :=
  match getNodeAtPosition container st (clientX e) (clientY e) nodes with
  | Some node =>
      let st1 := setDraggedNode st (Some (id node)) in
      let st2 :=
        match container with
        | Some rect =>
            setPopupPosition st1
              (Some (mkPoint (clientX e - left rect) (clientY e - top rect)))
        | None => st1
        end in
      (st2, [NodeSelect (Some node)])
  | None =>
      let st1 :=
        {| zoom := zoom st; pan := pan st; isDraggingCanvas := true;
           draggedNode := draggedNode st;
           lastMousePos := mkPoint (clientX e) (clientY e);
           popupPosition := popupPosition st; canvasSize := canvasSize st |} in
      (setPopupPosition st1 None, [NodeSelect None])
  end.


(** [handleMouseMove(e, nodes, onNodePositionUpdate)]: the canvas state and
    the callbacks; the hovered node is [hoveredAt]. *)
Definition handleMouseMove (container : option (Rect num)) (st : CanvasState num)
    (e : MouseEvent) (nodes : list (Node num)) : CanvasState num * list HostCall :=
  match orNull (draggedNode st) with
  | Some dragged =>
      match container with
      | None => (st, [])
      | Some rect =>
          let p := toWorld rect st (clientX e) (clientY e) in
          let st' :=
            match popupPosition st with
            | Some _ =>
                setPopupPosition st
                  (Some (mkPoint (clientX e - left rect) (clientY e - top rect)))
            | None => st
            end in
          (st', [NodePositionUpdate dragged (px p) (py p)])
      end
  | None =>
      if isDraggingCanvas st then
        let dx := clientX e - px (lastMousePos st) in
        let dy := clientY e - py (lastMousePos st) in
        ({| zoom := zoom st;
            pan := mkPoint (px (pan st) + dx) (py (pan st) + dy);
            isDraggingCanvas := isDraggingCanvas st;
            draggedNode := draggedNode st;
            lastMousePos := mkPoint (clientX e) (clientY e);
            popupPosition := popupPosition st; canvasSize := canvasSize st |}, [])
      else (st, [])
  end.

(** [handleMouseUp()]. *)
Definition handleMouseUp (prev : CanvasState num) : CanvasState num :=
  {| zoom := zoom prev; pan := pan prev; isDraggingCanvas := false;
     draggedNode := None; lastMousePos := lastMousePos prev;
     popupPosition := popupPosition prev; canvasSize := canvasSize prev |}.

(** [closePopup()]. *)
Definition closePopup (prev : CanvasState num) : CanvasState num := setPopupPosition prev None.

(** [updateCanvasSize()]: [bounds] is the size of the bounding rectangle of
    [containerRef.current], when there is a container. *)
Definition updateCanvasSize (bounds : option (Size num)) (prev : CanvasState num) : CanvasState num :=
  match bounds with
  | Some sz => setCanvasSize prev sz
  | None => prev
  end.

(** ** The graph store ([useKnowledgeGraph]) *)

(** [interface KnowledgeGraph]. *)
Record KnowledgeGraph : Type := mkGraph {
  graphNodes : list (Node num);
  graphConnections : list (Connection num)
}.

(** The state of the hook that the functions below read or write. *)
Record GraphStore : Type := mkStore {
  graph : KnowledgeGraph;
  selectedNode : option (Node num)
}.

(** [deleteNode(nodeId)]. *)
Definition deleteNode (nodeId : string) (store : GraphStore) : GraphStore :=
  {| graph :=
       {| graphNodes :=
            List.filter (fun n => negb (String.eqb (id n) nodeId))
              (graphNodes (graph store));
          graphConnections :=
            List.filter
              (fun c => negb (String.eqb (source c) nodeId)
                        && negb (String.eqb (target c) nodeId))
              (graphConnections (graph store)) |};
     selectedNode :=
       match selectedNode store with
       | Some n => if String.eqb (id n) nodeId then None else Some n
       | None => None
       end |}.

(** The callback of [prev.nodes.map] in [updateNodePosition]. *)
Definition moveTo (nodeId : string) (x0 y0 : num) (n : Node num) : Node num :=
  if String.eqb (id n) nodeId
  then {| id := id n; label := label n; x := Some x0; y := Some y0;
          vx := Some zero; vy := Some zero |}
  else n.

(** [updateNodePosition(nodeId, x, y)]. *)
Definition updateNodePosition (nodeId : string) (x0 y0 : num) (g : KnowledgeGraph)
    : KnowledgeGraph :=
  {| graphNodes := map (moveTo nodeId x0 y0) (graphNodes g);
     graphConnections := graphConnections g |}.

(** [clearGraph()] and [importGraph(importedGraph)]. *)
Definition clearGraph : GraphStore :=
  {| graph := {| graphNodes := []; graphConnections := [] |}; selectedNode := None |}.

Definition importGraph (importedGraph : KnowledgeGraph) : GraphStore :=
  {| graph := importedGraph; selectedNode := None |}.

(** [filteredConnections]: [c.strength >= filterStrength]. *)
Definition filteredConnections (g : KnowledgeGraph) (filterStrength : num)
    : list (Connection num) :=
  List.filter (fun c => filterStrength <=? strength c) (graphConnections g).

(** [searchMatchingNodes]. *)
Definition searchMatchingNodes (g : KnowledgeGraph) (searchQuery : string) : list (Node num) :=
  List.filter (isSearchMatch searchQuery) (graphNodes g).

(** The host applying the callbacks of a handler to its store:
    [onNodeSelect] is [setSelectedNode], [onNodePositionUpdate] is
    [updateNodePosition] (as [App] wires them). *)
Definition applyHostCall (store : GraphStore) (call : HostCall) : GraphStore :=
  match call with
  | NodeSelect node => {| graph := graph store; selectedNode := node |}
  | NodePositionUpdate nodeId x0 y0 =>
      {| graph := updateNodePosition nodeId x0 y0 (graph store);
         selectedNode := selectedNode store |}
  end.

(** ** The canvas component ([GraphCanvas]) *)

(** [sliderValue]: [Math.max(0, Math.min(1, 1 - filterStrength))]. *)
Definition sliderValue (filterStrength : num) : num :=
  nmax zero (nmin one (one - filterStrength)).

(** The argument the slider's [onChange] passes to [onFilterStrengthChange],
    [value] being the number [parseFloat] reads. *)
Definition sliderChange (value : num) : num := one - value.

(** The result of [popupMetrics] when there is a popup.  The fields [left]
    and [top] of the source are [popupLeft] and [popupTop] here. *)
Record PopupMetrics : Type := mkMetrics {
  popupLeft : num; popupTop : num; maxWidth : num; maxHeight : num
}.

Definition popupMetrics (popup : option (Point num)) (sz : Size num) : option PopupMetrics :=
  match popup with
  | None => None
  | Some p =>
      let PAD := lit 16 1 in
      let maxW := nmax (lit 220 1) (nmin (lit 320 1) (width sz - PAD * lit 2 1)) in
      let maxH := nmax (lit 180 1) (nmin (lit 320 1) (height sz - PAD * lit 2 1)) in
      let l := nmin (nmax (px p + lit 20 1) PAD) (width sz - maxW - PAD) in
      let t := nmin (nmax (py p) PAD) (height sz - maxH - PAD) in
      Some {| popupLeft := l; popupTop := t; maxWidth := maxW; maxHeight := maxH |}
  end.

(** The effect that places new nodes: nothing is done for an empty array. *)
Definition initializeEffect (sim : GraphSimulation num) (random : nat -> num)
    (nodes : list (Node num)) (sz : Size num) : GraphSimulation num * list (Node num) :=
  match nodes with
  | [] => (sim, nodes)
  | _ :: _ => initializeNodePositions sim random nodes (Some (width sz)) (Some (height sz))
  end.

(** The drawing part of [animate], after the simulation step: the calls
    made on the context during one frame. *)
Definition drawFrame (r : GraphRenderer) (nodes : list (Node num))
    (shown : list (Connection num)) (filterStrength : num)
    (hoveredNodeId : option string) (selected : option (Node num))
    (searchQuery : string) (sz : Size num) (z : num) (p : Point num) : list (CanvasOp num) :=
  clear (width sz) (height sz)
  ++ setupTransform (width sz) (height sz) z p
  ++ renderConnections r shown nodes filterStrength
  ++ renderNodes r nodes hoveredNodeId (orNull (id <$> selected)) searchQuery z
  ++ restoreTransform.

(** One run of [animate]: a simulation step, then the frame. *)
Definition animate (r : GraphRenderer) (sim : GraphSimulation num) (nodes : list (Node num))
    (connections shown : list (Connection num)) (filterStrength : num)
    (dragged hoveredNodeId : option string) (selected : option (Node num))
    (searchQuery : string) (sz : Size num) (z : num) (p : Point num) (c : Canvas num)
    : GraphSimulation num * list (Node num) * Canvas num :=
  let '(sim', nodes') := simulate sim nodes connections (orNull dragged) in
  (sim', nodes',
   exec c (drawFrame r nodes' shown filterStrength hoveredNodeId selected
             searchQuery sz z p)).

End Host.

Arguments MouseEvent : clear implicits.
Arguments HostCall : clear implicits.
Arguments KnowledgeGraph : clear implicits.
Arguments GraphStore : clear implicits.
Arguments PopupMetrics : clear implicits.

(** * The vocabulary of the properties *)

(** ** What is painted, and the bodies of the nodes *)

Section Reading.

Context {num : Type} `{JSNum num} `{JSText}.

(** The id names a node of the array. *)
Definition resolves (nodes : list (Node num)) (key : string) : bool :=
  existsb (fun n => String.eqb (id n) key) nodes.

(** The world-space position a node is drawn at. *)
Definition position (node : Node num) : Point num :=
  mkPoint (orDefault (x node) zero) (orDefault (y node) zero).

(** The stroke the specification describes for a connection between the
    nodes [src] and [tgt]: a straight line between the two positions, dashed,
    warm and of width 2 when the connection is surprising, solid, neutral and
    of width 1 otherwise, with the strength as opacity. *)
Definition connectionStroke (r : GraphRenderer) (conn : Connection num)
    (src tgt : Node num) : Painted num :=
  if isSurprising conn
  then Stroked [Segment (position src) (position tgt)]
         (themed r "#fbbf24" "#f59e0b") (lit 2 1) [lit 5 1; lit 5 1] (strength conn)
  else Stroked [Segment (position src) (position tgt)]
         (themed r "#4b5563" "#d1d5db") (lit 1 1) [] (strength conn).

(** What one connection adds to the picture. *)
Definition connectionPaint (r : GraphRenderer) (nodes : list (Node num))
    (filterStrength : num) (conn : Connection num) : list (Painted num) :=
  if nlt (strength conn) filterStrength then []
  else
    match findNode nodes (source conn), findNode nodes (target conn) with
    | Some (_, src), Some (_, tgt) => [connectionStroke r conn src tgt]
    | _, _ => []
    end.

(** The three fill colours of the source, named after the state they show. *)
Inductive FillCategory : Type := SearchMatchFill | SelectedFill | DefaultFill.

Definition categoryColor (r : GraphRenderer) (cat : FillCategory) : string :=
  match cat with
  | SearchMatchFill => themed r "#3b82f6" "#2563eb"
  | SelectedFill => themed r "#8b5cf6" "#7c3aed"
  | DefaultFill => themed r "#6366f1" "#4f46e5"
  end.

(** Search match first, then selection, then the default; hovering is not
    consulted. *)
Definition fillCategory (selectedNodeId : option string) (searchQuery : string)
    (node : Node num) : FillCategory :=
  if isSearchMatch searchQuery node then SearchMatchFill
  else if isNode selectedNodeId node then SelectedFill
  else DefaultFill.

(** The filled shapes of a picture, in painting order. *)
Definition fills (ps : list (Painted num)) : list (list (Shape num) * string) :=
  flat_map (fun p => match p with Filled shapes style => [(shapes, style)] | _ => [] end) ps.

(** The disc a node is drawn as, with its colour. *)
Definition nodeDisc (r : GraphRenderer) (hoveredNodeId selectedNodeId : option string)
    (searchQuery : string) (node : Node num) : list (Shape num) * string :=
  ([Circle (position node) (nodeRadius hoveredNodeId node)],
   categoryColor r (fillCategory selectedNodeId searchQuery node)).

(** The magnitude the specification gives for the repulsion of two nodes at
    a given distance: [repulsion * alpha / d * d] with [d = max(1, distance)]. *)
Definition specRepulsionMagnitude (sim : GraphSimulation num)
    (distance : num) : num :=
  ndiv (nmul (repulsion sim) (alpha sim))
       (nmul (nmax one distance) (nmax one distance)).

(** Two records that differ at most in their velocity. *)
Definition sameBody (a b : Node num) : Prop :=
  id a = id b /\ label a = label b /\ x a = x b /\ y a = y b.

(** Two arrays whose records differ at most in their velocities. *)
Definition sameBodies (state nodes : list (Node num)) : Prop :=
  Forall2 sameBody state nodes.

End Reading.

(** ** The rounds of the repulsion loop *)

Section Rounds.

Context {num : Type} `{JSNum num}.

Variables (sim : GraphSimulation num) (d : option string) (nodes0 : list (Node num)).

(** The force between the nodes of indices [i] and [j], computed from the
    positions the array has when the step begins. *)
Definition pairForce (i j : nat) : num * num :=
  match nodes0 !! i, nodes0 !! j with
  | Some a, Some b => repulsionVector sim a b
  | _, _ => (zero, zero)
  end.

(** The node of index [k] after it has been pushed forth by its first
    [nForth] predecessors and pushed back by its first [nBack] successors,
    in that order. *)
Definition received (k nForth nBack : nat) (node : Node num) : Node num :=
  fold_left (fun n j => pushBack (pairForce k j) n) (seq (S k) nBack)
    (fold_left (fun n i => pushForth (pairForce i k) n) (seq 0 nForth) node).

(** How many pushes the node of index [k] has received when the outer loop
    is at [m] and the inner loop has run [t] times. *)
Definition forthCount (m t k : nat) : nat :=
  if decide (k <= m) then k else if decide (k <= m + t) then S m else m.

Definition backCount (m t k : nat) : nat :=
  if decide (k < m) then length nodes0 - S k else if decide (k = m) then t else 0.

Definition loopState (m t : nat) (state : list (Node num)) : Prop :=
  length state = length nodes0
  /\ forall k node,
       nodes0 !! k = Some node ->
       state !! k
       = Some (if isDragged d node then node
               else received k (forthCount m t k) (backCount m t k) node).

End Rounds.

(** ** Reading the idealised doubles *)

Section Reals.

Local Open Scope R_scope.

(** A number that is neither NaN nor infinite. *)
Definition finite (a : xnum) : Prop :=
  match a with
  | Fin _ => True
  | _ => False
  end.

(** A finite number between two bounds. *)
Definition within (lo hi : R) (a : xnum) : Prop :=
  match a with
  | Fin r => lo <= r <= hi
  | _ => False
  end.

Definition finiteOpt (a : option xnum) : Prop :=
  match a with
  | Some v => finite v
  | None => True
  end.

Definition valueR (a : xnum) : R :=
  match a with
  | Fin r => r
  | _ => 0
  end.

(** The real value of [field || 0] when the field is finite or undefined. *)
Definition coordR (a : option xnum) : R :=
  match a with
  | Some (Fin r) => r
  | _ => 0
  end.

Definition finitePoint (p : Point xnum) : Prop := finite (px p) /\ finite (py p).

Definition placed (node : Node xnum) : Prop := finiteOpt (x node) /\ finiteOpt (y node).

(** No field of the motion state is NaN or infinite. *)
Definition finiteNode (node : Node xnum) : Prop :=
  finiteOpt (x node) /\ finiteOpt (y node) /\ finiteOpt (vx node) /\ finiteOpt (vy node).

(** The engine's four parameters are finite numbers. *)
Definition finiteSim (sim : GraphSimulation xnum) : Prop :=
  finite (alpha sim) /\ finite (repulsion sim)
  /\ finite (attraction sim) /\ finite (damping sim).

(** A camera as the controller can hold it: zoom in [0.5, 3], finite pan
    and surface size, and a finite position of the surface in the page. *)
Definition cameraOk (rect : Rect xnum) (st : CanvasState xnum) : Prop :=
  within 0.5 3 (zoom st)
  /\ finitePoint (pan st)
  /\ finite (width (canvasSize st)) /\ finite (height (canvasSize st))
  /\ finite (left rect) /\ finite (top rect).

(** The camera with the given finite components. *)
Definition cameraAt (z panx pany w h : R) : CanvasState xnum :=
  {| zoom := Fin z; pan := mkPoint (Fin panx) (Fin pany);
     isDraggingCanvas := false; draggedNode := None;
     lastMousePos := mkPoint (Fin 0) (Fin 0); popupPosition := None;
     canvasSize := mkSize (Fin w) (Fin h) |}.

(** The factor a wheel event multiplies the zoom by. *)
Definition zoomFactor (event : WheelEvent xnum) : R :=
  if nlt zero (deltaY event) then 0.9 else 1.1.

Definition clampZoom (z : R) : R := Rmax 0.5 (Rmin 3 z).

Definition wheelAll (events : list (WheelEvent xnum)) (st : CanvasState xnum)
    : CanvasState xnum :=
  fold_left (fun s e => handleWheel e s) events st.

(** The Euclidean distance from the world point [(wx, wy)] to a node. *)
Definition distanceR (wx wy : R) (node : Node xnum) : R :=
  R_sqrt.sqrt ((coordR (x node) - wx) * (coordR (x node) - wx)
               + (coordR (y node) - wy) * (coordR (y node) - wy)).

(** [dist || 1] on a real distance. *)
Definition floored (dist : R) : R := if Req_dec_T dist 0 then 1 else dist.

(** The offset between two nodes and its length, as reals. *)
Definition gapX (node1 node2 : Node xnum) : R := coordR (x node2) - coordR (x node1).
Definition gapY (node1 node2 : Node xnum) : R := coordR (y node2) - coordR (y node1).
Definition gap (node1 node2 : Node xnum) : R :=
  R_sqrt.sqrt (gapX node1 node2 * gapX node1 node2 + gapY node1 node2 * gapY node1 node2).

(** The repulsion between two nodes on each axis, in reals: along the
    offset from the first to the second, the scalar
    [repulsion * alpha / d * d], [d] being their distance, or 1 when the
    distance is zero. *)
Definition repulsionX (sim : GraphSimulation xnum) (node1 node2 : Node xnum) : R :=
  gapX node1 node2 / floored (gap node1 node2)
  * (valueR (repulsion sim) * valueR (alpha sim)
     / (floored (gap node1 node2) * floored (gap node1 node2))).

Definition repulsionY (sim : GraphSimulation xnum) (node1 node2 : Node xnum) : R :=
  gapY node1 node2 / floored (gap node1 node2)
  * (valueR (repulsion sim) * valueR (alpha sim)
     / (floored (gap node1 node2) * floored (gap node1 node2))).

(** The sum of a quantity over the nodes of a list. *)
Definition sumOver (f : Node xnum -> R) (nodes : list (Node xnum)) : R :=
  fold_right (fun n acc => f n + acc) 0 nodes.

(** The length of a vector of reals. *)
Definition norm (fx fy : R) : R := R_sqrt.sqrt (fx * fx + fy * fy).

(** [strength || 0.1] on a real strength. *)
Definition effectiveStrength (s : R) : R := if Req_dec_T s 0 then 0.1 else s.

(** The connections the specification says are drawn: strength at least
    the threshold, both ends resolving in the node array. *)
Definition rendered (filterStrength : xnum) (nodes : list (Node xnum))
    (conn : Connection xnum) : bool :=
  nle filterStrength (strength conn)
  && resolves nodes (source conn) && resolves nodes (target conn).

(** The stroke of [conn] runs between the first nodes carrying its ids. *)
Definition drawnAs (r : GraphRenderer) (nodes : list (Node xnum))
    (conn : Connection xnum) (stroke : Painted xnum) : Prop :=
  exists i j src tgt,
    findNode nodes (source conn) = Some (i, src)
    /\ findNode nodes (target conn) = Some (j, tgt)
    /\ stroke = connectionStroke r conn src tgt.

End Reals.

(** ** Placing, identity and the calls of a frame *)

Section HostReading.

Context {num : Type} `{JSNum num} `{JSText}.

(** Both coordinates are defined. *)
Definition isPlaced (node : Node num) : bool :=
  match x node, y node with
  | Some _, Some _ => true
  | _, _ => false
  end.

(** The number of nodes that still lack a coordinate. *)
Definition unplacedCount (nodes : list (Node num)) : nat :=
  length (List.filter (fun n => negb (isPlaced n)) nodes).

(** What [initializeNodePositions] makes of a node when the next call of
    [Math.random] is the [j]-th one. *)
Definition placedNode (random : nat -> num) (w h : num) (j : nat) (node : Node num)
    : Node num :=
  if isPlaced node then node
  else {| id := id node; label := label node;
          x := Some (nsub (nmul (random j) w) (ndiv w (lit 2 1)));
          y := Some (nsub (nmul (random (S j)) h) (ndiv h (lit 2 1)));
          vx := Some zero; vy := Some zero |}.

(** Same id and same label. *)
Definition sameIdentity (a b : Node num) : Prop := id a = id b /\ label a = label b.

(** One end of the connection names no node of the array. *)
Definition dangling (nodes : list (Node num)) (conn : Connection num) : Prop :=
  findNode nodes (source conn) = None \/ findNode nodes (target conn) = None.

(** Both ends of the connection name a node of the array. *)
Definition isLive (nodes : list (Node num)) (conn : Connection num) : bool :=
  resolves nodes (source conn) && resolves nodes (target conn).

(** Every connection of the graph names two of its nodes. *)
Definition intact (g : KnowledgeGraph num) : Prop :=
  Forall (fun c => resolves (graphNodes g) (source c) = true
                   /\ resolves (graphNodes g) (target c) = true)
    (graphConnections g).

(** The calls that change the transformation or its stack. *)
Definition isTransformOp (op : CanvasOp num) : bool :=
  match op with
  | Save | Restore | Translate _ _ | Scale _ _ => true
  | _ => false
  end.

(** What one node adds to the picture when the context has the line dash
    [dash] and the opacity [opacity]: its disc; its outline when it is
    hovered or selected; its label, 15 above its centre, when it is hovered,
    selected or a search match, or when the zoom exceeds 1.5. *)
Definition nodePaint (r : GraphRenderer) (hoveredNodeId selectedNodeId : option string)
    (searchQuery : string) (z : num) (dash : list num) (opacity : num)
    (node : Node num) : list (Painted num) :=
  let disc := [Circle (position node) (nodeRadius hoveredNodeId node)] in
  [Filled disc (categoryColor r (fillCategory selectedNodeId searchQuery node))]
  ++ (if isNode hoveredNodeId node || isNode selectedNodeId node
      then [Stroked disc (themed r "#fff" "#000") (lit 2 1) dash opacity]
      else [])
  ++ (if isNode hoveredNodeId node || isNode selectedNodeId node
         || isSearchMatch searchQuery node || nlt (lit 15 10) z
      then [Text (label node)
              (mkPoint (px (position node)) (nsub (py (position node)) (lit 15 1)))
              (themed r "#fff" "#000")]
      else []).

(** The events the canvas component hands to the hook, with what the
    handler of each is given. *)
Inductive CanvasEvent : Type :=
  | MouseDown (container : option (Rect num)) (e : MouseEvent num)
      (nodes : list (Node num))
  | MouseMove (container : option (Rect num)) (e : MouseEvent num)
      (nodes : list (Node num))
  | MouseUp
  | Wheel (event : WheelEvent num)
  | ResetView
  | ClosePopup
  | Resize (bounds : option (Size num)).

Definition canvasStep (st : CanvasState num) (ev : CanvasEvent) : CanvasState num :=
  match ev with
  | MouseDown container e nodes => fst (handleMouseDown container st e nodes)
  | MouseMove container e nodes => fst (handleMouseMove container st e nodes)
  | MouseUp => handleMouseUp st
  | Wheel event => handleWheel event st
  | ResetView => resetView st
  | ClosePopup => closePopup st
  | Resize bounds => updateCanvasSize bounds st
  end.

Definition canvasRun (st : CanvasState num) (events : list CanvasEvent)
    : CanvasState num :=
  fold_left canvasStep events st.

(** Neither a node nor the canvas is being dragged. *)
Definition idle (st : CanvasState num) : Prop :=
  draggedNode st = None /\ isDraggingCanvas st = false.

End HostReading.

Arguments CanvasEvent : clear implicits.

(** ** Reals read off the engine and the hook *)

Section HostReals.

Local Open Scope R_scope.

(** Every call of [Math.random] returns a number of [0, 1). *)
Definition unitDraws (random : nat -> xnum) : Prop :=
  forall j, exists r, random j = Fin r /\ 0 <= r < 1.

(** The sums of the velocities of an array, axis by axis. *)
Definition totalVx (nodes : list (Node xnum)) : R :=
  fold_right (fun n acc => coordR (vx n) + acc) 0 nodes.

Definition totalVy (nodes : list (Node xnum)) : R :=
  fold_right (fun n acc => coordR (vy n) + acc) 0 nodes.

(** The sums of the coordinates of an array: its centroid times its
    length. *)
Definition totalX (nodes : list (Node xnum)) : R :=
  fold_right (fun n acc => coordR (x n) + acc) 0 nodes.

Definition totalY (nodes : list (Node xnum)) : R :=
  fold_right (fun n acc => coordR (y n) + acc) 0 nodes.

(** A double that is neither NaN nor an infinity. *)
Definition finiteFloat (v : float) : bool :=
  negb (PrimFloat.is_nan v || PrimFloat.is_infinity v).

(** A velocity after the snap of [updatePositions]. *)
Definition snappedR (v : R) : R := if Rlt_dec (Rabs v) 0.0001 then 0 else v.

(** The pointer positions of a run of mouse moves, each with the container
    and the nodes its handler is given. *)
Definition moveEvents (moves : list (option (Rect xnum) * MouseEvent xnum * list (Node xnum)))
    : list (CanvasEvent xnum) :=
  map (fun m => MouseMove (fst (fst m)) (snd (fst m)) (snd m)) moves.

(** The last pointer position of a run of moves that started at [start]. *)
Definition lastPointer (start : Point xnum)
    (moves : list (option (Rect xnum) * MouseEvent xnum * list (Node xnum)))
    : Point xnum :=
  fold_left (fun _ m => mkPoint (clientX (snd (fst m))) (clientY (snd (fst m))))
    moves start.

Definition finiteMouse (e : MouseEvent xnum) : Prop :=
  finite (clientX e) /\ finite (clientY e).

End HostReals.

Section InkReading.

Context {num : Type} `{JSNum num}.

(** The renderer makes calls for the connection: its strength is not below
    the threshold and both its ids resolve. *)
Definition isDrawn (nodes : list (Node num)) (filterStrength : num)
    (conn : Connection num) : bool :=
  negb (nlt (strength conn) filterStrength)
  && resolves nodes (source conn) && resolves nodes (target conn).

(** The line dash the renderer sets for a connection. *)
Definition dashOf (conn : Connection num) : list num :=
  if isSurprising conn then [lit 5 1; lit 5 1] else [].

End InkReading.

(** * Properties *)

(** ** Arithmetic on the idealised doubles *)

Section Idealised.

Local Open Scope R_scope.

Lemma Rltb_spec (a b : R) : Bool.reflect (a < b) (Rltb a b).
Proof. unfold Rltb. destruct (Rlt_dec a b); constructor; assumption. Qed.

Lemma Rleb_spec (a b : R) : Bool.reflect (a <= b) (Rleb a b).
Proof. unfold Rleb. destruct (Rle_dec a b); constructor; assumption. Qed.

Lemma Rzerob_spec (a : R) : Bool.reflect (a = 0) (Rzerob a).
Proof. unfold Rzerob. destruct (Req_dec_T a 0); constructor; assumption. Qed.

Lemma Fin_eq (a b : R) : a = b -> Fin a = Fin b.
Proof. intros ->. reflexivity. Qed.

Lemma max_Fin (a b : R) : nmax (Fin a) (Fin b) = Fin (Rmax a b).
Proof.
  cbn. unfold Rmax. destruct (Rltb_spec a b), (Rle_dec a b); apply Fin_eq; lra.
Qed.

Lemma min_Fin (a b : R) : nmin (Fin a) (Fin b) = Fin (Rmin a b).
Proof.
  cbn. unfold Rmin. destruct (Rltb_spec b a), (Rle_dec a b); apply Fin_eq; lra.
Qed.

Lemma lit_Fin (m : Z) (d : positive) : lit m d = Fin (IZR m / IZR (Zpos d)).
Proof. reflexivity. Qed.

Lemma finite_inv (a : xnum) : finite a -> exists r, a = Fin r.
Proof. destruct a; simpl; intros Hf; try contradiction. eauto. Qed.

Lemma within_inv lo hi (a : xnum) : within lo hi a -> exists r, a = Fin r /\ lo <= r <= hi.
Proof. destruct a; simpl; intros Hw; try contradiction. eauto. Qed.

End Idealised.

(** Case analysis on every comparison of reals in the goal. *)
Ltac real_cases :=
  repeat (match goal with
    | |- context [if Rzerob ?a then _ else _] => destruct (Rzerob_spec a)
    | |- context [negb (Rzerob ?a)] => destruct (Rzerob_spec a)
    | |- context [if Rltb ?a ?b then _ else _] => destruct (Rltb_spec a b)
    | |- context [if Rleb ?a ?b then _ else _] => destruct (Rleb_spec a b)
    end; cbn [negb]).

(** Unfolding of the interface at [xnum]. *)
Ltac xnum_unfold :=
  cbn [lit nadd nsub nmul ndiv nsqrt nabs nlt nle truthy nmax nmin xnum_JSNum] in *;
  unfold X.lit, X.sub in *;
  cbn [X.add X.neg X.mul X.div X.sqrt X.abs X.lt X.le X.truthy X.max X.min] in *.

(** ** Energy bounds *)

Section Energy.

Local Open Scope R_scope.

Lemma cooling_within (sim : GraphSimulation xnum) :
  within 0.05 0.3 (alpha sim) ->
  within 0.05 0.3 (nmax minAlpha (nmul (alpha sim) cooling)).
Proof.
  intros (a & Ha & Hlo & Hhi)%within_inv. rewrite Ha.
  unfold minAlpha, cooling. xnum_unfold. real_cases; simpl; lra.
Qed.

Lemma energize_within (sim : GraphSimulation xnum) (amount : R) :
  0 <= amount ->
  within 0.05 0.3 (alpha sim) ->
  within 0.05 0.3 (alpha (energize sim (Some (Fin amount)))).
Proof.
  intros Hamount (a & Ha & Hlo & Hhi)%within_inv.
  unfold energize, setAlpha, baseAlpha. simpl. rewrite Ha.
  xnum_unfold. real_cases; simpl; lra.
Qed.

Lemma engineStep_within (sim : GraphSimulation xnum) (call : EngineCall xnum) :
  within 0.05 0.3 (alpha sim) -> within 0.05 0.3 (alpha (engineStep sim call)).
Proof.
  intros Hw. destruct call as [nodes conns d | random nodes w h]; simpl.
  - apply cooling_within, Hw.
  - apply (energize_within sim (1 / 10)); [lra | exact Hw].
Qed.

(** C10.  The energy of a fresh engine is 0.3; a tick replaces it by
    [max(0.05, alpha * 0.995)], a call of [initializeNodePositions] by
    [min(0.3, alpha + 0.1)]; and after any sequence of the two calls, with
    any arguments, it is a finite number of the interval [0.05, 0.3]. *)
Theorem alpha_stays_in_range :
  alpha (newGraphSimulation (num := xnum)) = Fin 0.3
  /\ (forall (sim : GraphSimulation xnum) nodes connections d,
        alpha (fst (simulate sim nodes connections d))
        = nmax (Fin 0.05) (nmul (alpha sim) (Fin 0.995)))
  /\ (forall (sim : GraphSimulation xnum) random nodes w h,
        alpha (fst (initializeNodePositions sim random nodes w h))
        = nmin (Fin 0.3) (nadd (alpha sim) (Fin 0.1)))
  /\ (forall calls : list (EngineCall xnum),
        within 0.05 0.3 (alpha (engineRun newGraphSimulation calls))).
Proof.
  assert (H03 : baseAlpha = Fin 0.3) by (unfold baseAlpha; xnum_unfold; apply Fin_eq; lra).
  assert (H005 : minAlpha = Fin 0.05) by (unfold minAlpha; xnum_unfold; apply Fin_eq; lra).
  assert (H0995 : cooling = Fin 0.995) by (unfold cooling; xnum_unfold; apply Fin_eq; lra).
  assert (H01 : (lit 1 10 : xnum) = Fin 0.1) by (xnum_unfold; apply Fin_eq; lra).
  split; [exact H03 |]. split; [| split].
  - intros. unfold simulate, setAlpha. cbn [fst alpha]. now rewrite H005, H0995.
  - intros. unfold initializeNodePositions, energize, setAlpha.
    cbn [fst alpha default]. now rewrite H03, H01.
  - intros calls. unfold engineRun.
    assert (Hstart : within 0.05 0.3 (alpha (newGraphSimulation (num := xnum)))).
    { unfold newGraphSimulation. cbn [alpha]. rewrite H03. simpl. lra. }
    revert Hstart. generalize (newGraphSimulation (num := xnum)).
    induction calls as [| call calls IH]; intros sim Hsim; simpl.
    + exact Hsim.
    + apply IH, engineStep_within, Hsim.
Qed.

End Energy.

(** ** The camera *)

Section Camera.

Local Open Scope R_scope.

Lemma clampZoom_range (z : R) : 0.5 <= clampZoom z <= 3.
Proof.
  unfold clampZoom, Rmax, Rmin.
  repeat match goal with |- context [Rle_dec ?a ?b] => destruct (Rle_dec a b) end; lra.
Qed.

Lemma handleWheel_modifier (event : WheelEvent xnum) (st : CanvasState xnum) (z : R) :
  zoom st = Fin z ->
  metaKey event || ctrlKey event = true ->
  zoom (handleWheel event st) = Fin (clampZoom (z * zoomFactor event)).
Proof.
  intros Hz Hmod. unfold handleWheel, zoomFactor, clampZoom.
  rewrite Hmod. cbn [setZoom zoom]. rewrite Hz, !lit_Fin.
  replace (5 / 10) with 0.5 by lra. replace (3 / 1) with 3 by lra.
  replace (9 / 10) with 0.9 by lra. replace (11 / 10) with 1.1 by lra.
  destruct (nlt zero (deltaY event));
    cbn [nmul xnum_JSNum X.mul]; now rewrite min_Fin, max_Fin.
Qed.

Lemma handleWheel_plain (event : WheelEvent xnum) (st : CanvasState xnum) :
  metaKey event || ctrlKey event = false -> handleWheel event st = st.
Proof. intros Hmod. unfold handleWheel. now rewrite Hmod. Qed.

Lemma handleWheel_within (event : WheelEvent xnum) (st : CanvasState xnum) :
  within 0.5 3 (zoom st) -> within 0.5 3 (zoom (handleWheel event st)).
Proof.
  intros Hw. destruct (metaKey event || ctrlKey event) eqn:Hmod.
  - destruct (within_inv _ _ _ Hw) as (z & Hz & _).
    rewrite (handleWheel_modifier event st z Hz Hmod). simpl.
    apply clampZoom_range.
  - now rewrite handleWheel_plain.
Qed.

(** C6.  With the meta or ctrl key held, a wheel event multiplies the zoom
    by 0.9 when [deltaY > 0] and by 1.1 otherwise and clamps the product to
    [0.5, 3]; without the key the state is left as it is; at zoom 1 a
    [deltaY] of 100 gives 0.9 and one of -100 gives 1.1; and from a zoom in
    [0.5, 3] no sequence of wheel events leads outside that interval. *)
Theorem wheel_zoom_clamped :
  (forall (event : WheelEvent xnum) (st : CanvasState xnum) (z : R),
      zoom st = Fin z ->
      metaKey event || ctrlKey event = true ->
      zoom (handleWheel event st)
      = Fin (Rmax 0.5 (Rmin 3 (z * (if nlt zero (deltaY event) then 0.9 else 1.1)))))
  /\ (forall (event : WheelEvent xnum) (st : CanvasState xnum),
      metaKey event || ctrlKey event = false -> handleWheel event st = st)
  /\ zoom (handleWheel (mkWheel false true (Fin 100)) initialCanvasState) = Fin 0.9
  /\ zoom (handleWheel (mkWheel false true (Fin (-100))) initialCanvasState) = Fin 1.1
  /\ (forall (events : list (WheelEvent xnum)) (st : CanvasState xnum),
      within 0.5 3 (zoom st) -> within 0.5 3 (zoom (wheelAll events st))).
Proof.
  split; [exact handleWheel_modifier |].
  split; [exact handleWheel_plain |].
  assert (Hone : zoom (initialCanvasState (num := xnum)) = Fin 1).
  { unfold initialCanvasState. cbn [zoom]. xnum_unfold. apply Fin_eq. lra. }
  split; [| split].
  - rewrite (handleWheel_modifier (mkWheel false true (Fin 100)) _ 1 Hone eq_refl).
    unfold zoomFactor, clampZoom, zero. cbn [deltaY]. xnum_unfold.
    real_cases; try lra. apply Fin_eq.
    unfold Rmax, Rmin. destruct (Rle_dec 3 _); destruct (Rle_dec 0.5 _); lra.
  - rewrite (handleWheel_modifier (mkWheel false true (Fin (-100))) _ 1 Hone eq_refl).
    unfold zoomFactor, clampZoom, zero. cbn [deltaY]. xnum_unfold.
    real_cases; try lra. apply Fin_eq.
    unfold Rmax, Rmin. destruct (Rle_dec 3 _); destruct (Rle_dec 0.5 _); lra.
  - intros events. unfold wheelAll.
    induction events as [| e events IH]; intros st Hst; simpl.
    + exact Hst.
    + apply IH, handleWheel_within, Hst.
Qed.

Lemma wheel_zoom_clamped_witness :
  within 0.5 3
    (zoom (wheelAll [mkWheel false true (Fin (-100)); mkWheel true false (Fin 100)]
             (setZoom initialCanvasState (Fin 3)))).
Proof.
  apply (proj2 (proj2 (proj2 (proj2 wheel_zoom_clamped)))).
  simpl. lra.
Defined.

Ltac camera_values :=
  match goal with
  | Hcam : cameraOk ?rect ?st |- _ =>
      destruct rect as [l t], st as [z [panx pany] dc dn lm pp [w h]];
      destruct Hcam as (Hz & [Hpx Hpy] & Hw & Hh & Hl & Ht);
      cbn [zoom pan canvasSize width height left top px py] in *;
      destruct (within_inv _ _ _ Hz) as (zr & -> & Hzlo & Hzhi);
      destruct (finite_inv _ Hpx) as (panxr & ->);
      destruct (finite_inv _ Hpy) as (panyr & ->);
      destruct (finite_inv _ Hw) as (wr & ->);
      destruct (finite_inv _ Hh) as (hr & ->);
      destruct (finite_inv _ Hl) as (lr & ->);
      destruct (finite_inv _ Ht) as (tr & ->)
  end.

Lemma toScreen_formula (l t z panx pany w h wx wy : R) :
  toScreen (mkRect (Fin l) (Fin t)) (cameraAt z panx pany w h) (mkPoint (Fin wx) (Fin wy))
  = mkPoint (Fin (l + (w / 2 + panx + z * wx))) (Fin (t + (h / 2 + pany + z * wy))).
Proof.
  unfold cameraAt, toScreen, setupTransform, exec, applyTransform, blankCanvas,
    identity, one, zero.
  cbn [fold_left execOp ctm withCtm scaleX scaleY shiftX shiftY px py
       zoom pan canvasSize width height left top].
  xnum_unfold. repeat (real_cases; xnum_unfold); try lra;
    f_equal; apply Fin_eq; field.
Qed.

Lemma toWorld_formula (l t z panx pany w h sx sy : R) :
  z <> 0 ->
  toWorld (mkRect (Fin l) (Fin t)) (cameraAt z panx pany w h) (Fin sx) (Fin sy)
  = mkPoint (Fin ((sx - l - w / 2 - panx) / z)) (Fin ((sy - t - h / 2 - pany) / z)).
Proof.
  intros Hz. unfold cameraAt, toWorld.
  cbn [px py zoom pan canvasSize width height left top].
  xnum_unfold. repeat (real_cases; xnum_unfold); try lra;
    f_equal; apply Fin_eq; field; lra.
Qed.

Lemma toWorld_toScreen (rect : Rect xnum) (st : CanvasState xnum) (p : Point xnum) :
  cameraOk rect st -> finitePoint p ->
  toWorld rect st (px (toScreen rect st p)) (py (toScreen rect st p)) = p.
Proof.
  intros Hcam [Hx Hy]. camera_values. destruct p as [wx wy]. cbn [px py] in *.
  destruct (finite_inv _ Hx) as (wxr & ->), (finite_inv _ Hy) as (wyr & ->).
  unfold toWorld, toScreen, setupTransform, exec, applyTransform, blankCanvas,
    identity, one, zero.
  cbn [fold_left execOp ctm withCtm scaleX scaleY shiftX shiftY px py
       zoom pan canvasSize width height left top].
  xnum_unfold. repeat (real_cases; xnum_unfold); try lra;
    f_equal; apply Fin_eq; field; lra.
Qed.

Lemma toScreen_toWorld (rect : Rect xnum) (st : CanvasState xnum) (s : Point xnum) :
  cameraOk rect st -> finitePoint s ->
  toScreen rect st (toWorld rect st (px s) (py s)) = s.
Proof.
  intros Hcam [Hx Hy]. camera_values. destruct s as [sx sy]. cbn [px py] in *.
  destruct (finite_inv _ Hx) as (sxr & ->), (finite_inv _ Hy) as (syr & ->).
  unfold toWorld, toScreen, setupTransform, exec, applyTransform, blankCanvas,
    identity, one, zero.
  cbn [fold_left execOp ctm withCtm scaleX scaleY shiftX shiftY px py
       zoom pan canvasSize width height left top].
  xnum_unfold. repeat (real_cases; xnum_unfold); try lra;
    f_equal; apply Fin_eq; field; lra.
Qed.

(** C5.  With [centre = (W/2, H/2)] taken from the corner of the surface,
    the renderer's transform shows a world point at
    [centre + pan + zoom * world], the hit test reads a pointer position as
    [(screen - centre - pan) / zoom], and for a zoom in [0.5, 3] and finite
    pan, surface size and surface position the two mappings are inverse to
    each other, exactly, on every finite point. *)
Theorem camera_round_trip (l t z panx pany w h : R) (p : Point xnum) :
  0.5 <= z <= 3 ->
  finitePoint p ->
  let rect := mkRect (Fin l) (Fin t) in
  let st := cameraAt z panx pany w h in
  (forall wx wy,
      toScreen rect st (mkPoint (Fin wx) (Fin wy))
      = mkPoint (Fin (l + (w / 2 + panx + z * wx))) (Fin (t + (h / 2 + pany + z * wy))))
  /\ (forall sx sy,
      toWorld rect st (Fin sx) (Fin sy)
      = mkPoint (Fin ((sx - l - w / 2 - panx) / z)) (Fin ((sy - t - h / 2 - pany) / z)))
  /\ toWorld rect st (px (toScreen rect st p)) (py (toScreen rect st p)) = p
  /\ toScreen rect st (toWorld rect st (px p) (py p)) = p.
Proof.
  intros Hz Hp rect st.
  assert (Hcam : cameraOk rect st).
  { unfold cameraOk, finitePoint. simpl. tauto. }
  split; [intros; apply toScreen_formula |].
  split; [intros; apply toWorld_formula; lra |].
  split.
  - now apply toWorld_toScreen.
  - now apply toScreen_toWorld.
Qed.

Lemma camera_round_trip_witness :
  let rect := mkRect (Fin 8) (Fin 64) in
  let st := cameraAt 2 15 (-5) 800 600 in
  let p := mkPoint (Fin 30) (Fin (-40)) in
  toWorld rect st (px (toScreen rect st p)) (py (toScreen rect st p)) = p
  /\ toScreen rect st (toWorld rect st (px p) (py p)) = p.
Proof.
  intros rect st p.
  assert (Hz : 0.5 <= 2 <= 3) by lra.
  assert (Hp : finitePoint p) by (split; exact I).
  exact (proj2 (proj2 (camera_round_trip 8 64 2 15 (-5) 800 600 p Hz Hp))).
Defined.

End Camera.

(** The wheel scenario of the specification in binary64: from zoom 1 the
    results are the doubles written [0.9] and [1.1]. *)
Example wheel_scenario_binary64 :
  zoom (handleWheel (mkWheel false true 100%float) initialCanvasState) = lit 9 10
  /\ zoom (handleWheel (mkWheel false true (-100)%float) initialCanvasState) = lit 11 10
  /\ zoom (handleWheel (mkWheel false false 100%float) initialCanvasState) = lit 1 1.
Proof. vm_compute. repeat split. Qed.

(** ** What a tick leaves alone *)

Section Frame.

Context {num : Type} `{JSNum num}.

Implicit Types (nodes : list (Node num)) (node : Node num) (d : option string).

Lemma fold_left_preserves {A B : Type} (P : A -> Prop) (f : A -> B -> A) (l : list B) :
  (forall acc b, P acc -> P (f acc b)) ->
  forall init, P init -> P (fold_left f l init).
Proof.
  intros Hstep. induction l as [| b l IH]; intros init Hinit; simpl.
  - exact Hinit.
  - apply IH, Hstep, Hinit.
Qed.

Lemma updateUnlessDragged_dragged d k (f : Node num -> Node num) nodes i node :
  nodes !! i = Some node ->
  isDragged d node = true ->
  updateUnlessDragged d k f nodes !! i = Some node.
Proof.
  intros Hi Hd. unfold updateUnlessDragged.
  destruct (nodes !! k) as [nk |] eqn:Hk; [| exact Hi].
  destruct (isDragged d nk) eqn:Hdk; [exact Hi |].
  destruct (decide (k = i)) as [-> | Hne].
  - congruence.
  - now rewrite list_lookup_insert_ne.
Qed.

Lemma repelPair_dragged (sim : GraphSimulation num) d nodes a b i node :
  nodes !! i = Some node ->
  isDragged d node = true ->
  repelPair sim d nodes a b !! i = Some node.
Proof.
  intros Hi Hd. unfold repelPair.
  destruct (nodes !! a); [| exact Hi]. destruct (nodes !! b); [| exact Hi].
  apply updateUnlessDragged_dragged; [| exact Hd].
  now apply updateUnlessDragged_dragged.
Qed.

Lemma applyRepulsionForces_dragged (sim : GraphSimulation num) d nodes i node :
  nodes !! i = Some node ->
  isDragged d node = true ->
  applyRepulsionForces sim nodes d !! i = Some node.
Proof.
  intros Hi Hd. unfold applyRepulsionForces.
  apply (fold_left_preserves (fun ns => ns !! i = Some node)); [| exact Hi].
  intros acc a Hacc. unfold repelFrom.
  apply (fold_left_preserves (fun ns => ns !! i = Some node)); [| exact Hacc].
  intros acc' b Hacc'. now apply repelPair_dragged.
Qed.

Lemma applyAttractionForces_dragged (sim : GraphSimulation num) d nodes connections i node :
  nodes !! i = Some node ->
  isDragged d node = true ->
  applyAttractionForces sim nodes connections d !! i = Some node.
Proof.
  intros Hi Hd. unfold applyAttractionForces.
  apply (fold_left_preserves (fun ns => ns !! i = Some node)); [| exact Hi].
  intros acc conn Hacc. unfold attractConnection.
  destruct (findNode acc (source conn)) as [[si src] |]; [| exact Hacc].
  destruct (findNode acc (target conn)) as [[ti tgt] |]; [| exact Hacc].
  apply updateUnlessDragged_dragged; [| exact Hd].
  now apply updateUnlessDragged_dragged.
Qed.

Lemma applyCenteringForce_dragged (sim : GraphSimulation num) d nodes i node :
  nodes !! i = Some node ->
  isDragged d node = true ->
  applyCenteringForce sim nodes d !! i = Some node.
Proof.
  intros Hi Hd. unfold applyCenteringForce.
  destruct (nle centerForce zero); [exact Hi |].
  rewrite list_lookup_fmap, Hi. simpl. unfold centerNode. now rewrite Hd.
Qed.

Lemma updatePositions_dragged (sim : GraphSimulation num) d nodes i node :
  nodes !! i = Some node ->
  isDragged d node = true ->
  updatePositions sim nodes d !! i = Some node.
Proof.
  intros Hi Hd. unfold updatePositions.
  rewrite list_lookup_fmap, Hi. simpl. unfold moveNode. now rewrite Hd.
Qed.

Lemma simulate_dragged (sim : GraphSimulation num) d nodes connections i node :
  nodes !! i = Some node ->
  isDragged d node = true ->
  snd (simulate sim nodes connections d) !! i = Some node.
Proof.
  intros Hi Hd. unfold simulate. cbn [snd].
  apply updatePositions_dragged; [| exact Hd].
  apply applyAttractionForces_dragged; [| exact Hd].
  apply applyRepulsionForces_dragged; [| exact Hd].
  now apply applyCenteringForce_dragged.
Qed.

(** C7.  Whatever the nodes, the connections and the number of ticks, a
    node whose id is the dragged id is, after the ticks, the very record it
    was before: same position, same velocity (an undefined field stays
    undefined).  Each of the four steps skips it. *)
Theorem pinned_node_unchanged (n : nat) (sim : GraphSimulation num)
    (nodes : list (Node num)) (connections : list (Connection num))
    (draggedNodeId : string) (i : nat) (node : Node num) :
  nodes !! i = Some node ->
  id node = draggedNodeId ->
  (applyCenteringForce sim nodes (Some draggedNodeId) !! i = Some node
   /\ applyRepulsionForces sim nodes (Some draggedNodeId) !! i = Some node
   /\ applyAttractionForces sim nodes connections (Some draggedNodeId) !! i = Some node
   /\ updatePositions sim nodes (Some draggedNodeId) !! i = Some node)
  /\ snd (simulateN n sim nodes connections (Some draggedNodeId)) !! i = Some node.
Proof.
  intros Hi Hid.
  assert (Hd : isDragged (Some draggedNodeId) node = true).
  { unfold isDragged. now apply String.eqb_eq. }
  split.
  - repeat split.
    + now apply applyCenteringForce_dragged.
    + now apply applyRepulsionForces_dragged.
    + now apply applyAttractionForces_dragged.
    + now apply updatePositions_dragged.
  - revert sim nodes Hi. induction n as [| n IH]; intros sim nodes Hi; simpl.
    + exact Hi.
    + apply IH.
      exact (simulate_dragged sim (Some draggedNodeId) nodes connections i node Hi Hd).
Qed.

End Frame.

(** The frame property at a concrete graph: node [b] is dragged while
    connected to [a], three ticks. *)
Lemma pinned_node_unchanged_witness :
  let a := mkNode "a" "A" (Some (Fin 0)) (Some (Fin 0)) None None in
  let b := mkNode "b" "B" (Some (Fin 3)) (Some (Fin 4)) (Some (Fin 7)) None in
  let link := mkConnection "a" "b" (Fin 0.8) "related" false in
  snd (simulateN 3 newGraphSimulation [a; b] [link] (Some "b")) !! 1%nat = Some b.
Proof.
  intros a b link.
  exact (proj2 (pinned_node_unchanged 3 newGraphSimulation [a; b] [link] "b" 1 b
                  eq_refl eq_refl)).
Defined.

(** ** What the renderer paints *)

Section Painting.

Context {num : Type} `{JSNum num}.

Implicit Types (nodes : list (Node num)) (c : Canvas num).

Lemma exec_app c (ops1 ops2 : list (CanvasOp num)) :
  exec c (ops1 ++ ops2) = exec (exec c ops1) ops2.
Proof. unfold exec. apply fold_left_app. Qed.

Lemma findNode_resolves nodes (key : string) :
  resolves nodes key = match findNode nodes key with Some _ => true | None => false end.
Proof.
  unfold resolves, findNode. induction nodes as [| n nodes IH]; simpl.
  - reflexivity.
  - destruct (decide (id n = key)) as [Heq | Hne].
    + apply String.eqb_eq in Heq. now rewrite Heq.
    + apply String.eqb_neq in Hne. rewrite Hne. simpl. rewrite IH.
      now destruct (list_find _ nodes).
Qed.

Lemma renderConnection_painted (r : GraphRenderer) nodes filterStrength conn c :
  painted (exec c (renderConnection r nodes filterStrength conn))
  = painted c ++ connectionPaint r nodes filterStrength conn.
Proof.
  unfold renderConnection, connectionPaint.
  destruct (nlt (strength conn) filterStrength).
  { simpl. now rewrite app_nil_r. }
  destruct (findNode nodes (source conn)) as [[si src] |];
    [| simpl; now rewrite app_nil_r].
  destruct (findNode nodes (target conn)) as [[ti tgt] |];
    [| simpl; now rewrite app_nil_r].
  unfold connectionStroke. destruct (isSurprising conn); reflexivity.
Qed.

Lemma renderConnections_painted (r : GraphRenderer) nodes filterStrength
    (connections : list (Connection num)) c :
  painted (exec c (renderConnections r connections nodes filterStrength))
  = painted c ++ flat_map (connectionPaint r nodes filterStrength) connections.
Proof.
  unfold renderConnections. revert c.
  induction connections as [| conn connections IH]; intros c; simpl.
  - now rewrite app_nil_r.
  - rewrite exec_app, IH, renderConnection_painted. now rewrite app_assoc.
Qed.

End Painting.

Section Filtering.

Local Open Scope R_scope.

Implicit Types (nodes : list (Node xnum)) (conn : Connection xnum).

Lemma lt_not_le (a b : xnum) : a <> NaN -> b <> NaN -> nlt a b = negb (nle b a).
Proof.
  intros Ha Hb. destruct a as [r | s |], b as [r' | s' |]; try congruence; cbn.
  - destruct (Rltb_spec r r'), (Rleb_spec r' r); simpl; try reflexivity; lra.
  - reflexivity.
  - now destruct s.
  - now destruct s, s'.
Qed.

Lemma le_refl (a : xnum) : a <> NaN -> nle a a = true.
Proof.
  intros Ha. destruct a as [r | s |]; try congruence; cbn.
  - destruct (Rleb_spec r r); [reflexivity | lra].
  - now destruct s.
Qed.

Lemma connectionPaint_rendered (r : GraphRenderer) nodes (filterStrength : xnum) conn :
  filterStrength <> NaN -> strength conn <> NaN ->
  if rendered filterStrength nodes conn
  then exists stroke,
         connectionPaint r nodes filterStrength conn = [stroke]
         /\ drawnAs r nodes conn stroke
  else connectionPaint r nodes filterStrength conn = [].
Proof.
  intros Hthr Hs. unfold rendered, connectionPaint.
  rewrite (lt_not_le _ _ Hs Hthr).
  destruct (nle filterStrength (strength conn)); simpl; [| reflexivity].
  rewrite !findNode_resolves.
  destruct (findNode nodes (source conn)) as [[i src] |] eqn:Hsrc; [| reflexivity].
  destruct (findNode nodes (target conn)) as [[j tgt] |] eqn:Htgt; [| reflexivity].
  simpl. eexists. split; [reflexivity |].
  exists i, j, src, tgt. now rewrite Hsrc, Htgt.
Qed.

(** C8.  When neither the threshold nor a strength is NaN, what
    [renderConnections] adds to the picture is one stroke for each
    connection whose strength is at least the threshold and whose two ids
    resolve, in the order of the array, and nothing else; a connection
    whose strength equals the threshold is among them.  The function is
    total: a connection failing either test contributes no call at all. *)
Theorem connections_filtered (r : GraphRenderer) (connections : list (Connection xnum))
    (nodes : list (Node xnum)) (filterStrength : xnum) (c : Canvas xnum) :
  filterStrength <> NaN ->
  Forall (fun conn => strength conn <> NaN) connections ->
  (exists strokes,
      painted (exec c (renderConnections r connections nodes filterStrength))
      = painted c ++ strokes
      /\ Forall2 (drawnAs r nodes)
           (List.filter (rendered filterStrength nodes) connections) strokes)
  /\ (forall conn,
        strength conn = filterStrength ->
        rendered filterStrength nodes conn
        = resolves nodes (source conn) && resolves nodes (target conn))
  /\ (forall conn,
        rendered filterStrength nodes conn = false ->
        renderConnection r nodes filterStrength conn = []
        \/ strength conn = NaN).
Proof.
  intros Hthr Hall. split; [| split].
  - rewrite renderConnections_painted.
    exists (flat_map (connectionPaint r nodes filterStrength) connections).
    split; [reflexivity |].
    induction Hall as [| conn connections Hs Hall IH]; simpl; [constructor |].
    pose proof (connectionPaint_rendered r nodes filterStrength conn Hthr Hs) as Hc.
    destruct (rendered filterStrength nodes conn).
    + destruct Hc as (stroke & -> & Hdrawn). simpl. now constructor.
    + rewrite Hc. exact IH.
  - intros conn Heq. unfold rendered. rewrite Heq, le_refl by exact Hthr. reflexivity.
  - intros conn Hr.
    destruct (strength conn) as [s | s |] eqn:Hs; [left | left | now right].
    all: pose proof (connectionPaint_rendered r nodes filterStrength conn Hthr) as Hc;
      rewrite Hs, Hr in Hc; specialize (Hc ltac:(discriminate));
      unfold connectionPaint in Hc; unfold renderConnection;
      rewrite Hs in *;
      destruct (nlt _ filterStrength); [reflexivity |];
      destruct (findNode nodes (source conn)) as [[i src] |]; [| reflexivity];
      destruct (findNode nodes (target conn)) as [[j tgt] |]; [| reflexivity];
      discriminate.
Qed.

End Filtering.

(** The filter at a concrete frame: threshold 0.5; one connection exactly at
    the threshold, one below it, one dangling. *)
Lemma connections_filtered_witness :
  let a := mkNode "a" "A" (Some (Fin 0)) (Some (Fin 0)) None None in
  let b := mkNode "b" "B" (Some (Fin 30)) (Some (Fin 40)) None None in
  let atThreshold := mkConnection "a" "b" (Fin 0.5) "" false in
  let below := mkConnection "b" "a" (Fin 0.4) "" true in
  let dangling := mkConnection "a" "zz" (Fin 0.9) "" false in
  exists strokes,
    painted (exec blankCanvas
               (renderConnections (mkRenderer false) [atThreshold; below; dangling]
                  [a; b] (Fin 0.5)))
    = painted blankCanvas ++ strokes
    /\ Forall2 (drawnAs (mkRenderer false) [a; b])
         (List.filter (rendered (Fin 0.5) [a; b]) [atThreshold; below; dangling])
         strokes.
Proof.
  intros a b atThreshold below dangling.
  refine (proj1 (connections_filtered (mkRenderer false) [atThreshold; below; dangling]
                   [a; b] (Fin 0.5) blankCanvas _ _)).
  - discriminate.
  - repeat constructor; discriminate.
Defined.

(** ** Node colours *)

Section Colours.

Context {num : Type} `{JSNum num} `{JSText}.

Implicit Types (nodes : list (Node num)) (node : Node num) (c : Canvas num).

Lemma startsWith_spec (s t : string) :
  startsWith s t = true <-> exists post, s = String.append t post.
Proof.
  revert s. induction t as [| b t IH]; intros s; simpl.
  - split; [intros _; now exists s | reflexivity].
  - destruct s as [| a s].
    + split; [discriminate | intros [post Hp]; discriminate].
    + rewrite andb_true_iff, IH, Ascii.eqb_eq. split.
      * intros [-> [post ->]]. now exists post.
      * intros [post Hp]. injection Hp as -> ->. split; [reflexivity | now exists post].
Qed.

(** [includes] is the substring test. *)
Lemma includes_spec (s t : string) :
  includes s t = true <-> exists pre post, s = String.append pre (String.append t post).
Proof.
  induction s as [| a s IH]; simpl.
  - rewrite orb_false_r, startsWith_spec. split.
    + intros [post Hp]. now exists EmptyString, post.
    + intros [pre [post Hp]]. destruct pre; [now exists post | discriminate].
  - rewrite orb_true_iff, startsWith_spec, IH. split.
    + intros [[post Hp] | [pre [post Hp]]].
      * now exists EmptyString, post.
      * exists (String a pre), post. simpl. now rewrite Hp.
    + intros [pre [post Hp]]. destruct pre as [| a' pre]; simpl in Hp.
      * left. now exists post.
      * right. injection Hp as -> ->. now exists pre, post.
Qed.

Lemma fills_app (ps qs : list (Painted num)) : fills (ps ++ qs) = fills ps ++ fills qs.
Proof. unfold fills. apply flat_map_app. Qed.

Lemma renderNode_fills (r : GraphRenderer) (hoveredNodeId selectedNodeId : option string)
    (searchQuery : string) (z : num) node c :
  fills (painted (exec c (renderNode r hoveredNodeId selectedNodeId searchQuery z node)))
  = fills (painted c) ++ [nodeDisc r hoveredNodeId selectedNodeId searchQuery node].
Proof.
  unfold renderNode, nodeDisc, fillCategory, nodeFill, categoryColor, position.
  rewrite !exec_app.
  destruct (isSearchMatch searchQuery node), (isNode selectedNodeId node),
    (isNode hoveredNodeId node), (nlt (lit 15 10) z);
    cbn [orb exec fold_left execOp painted paint withPath withInk path fillStyle
         strokeStyle lineWidth lineDash globalAlpha app];
    rewrite ?fills_app; cbn [fills flat_map app]; rewrite ?app_nil_r; reflexivity.
Qed.

Lemma renderNodes_fills (r : GraphRenderer) (hoveredNodeId selectedNodeId : option string)
    (searchQuery : string) (z : num) nodes c :
  fills (painted (exec c (renderNodes r nodes hoveredNodeId selectedNodeId searchQuery z)))
  = fills (painted c)
    ++ map (nodeDisc r hoveredNodeId selectedNodeId searchQuery) nodes.
Proof.
  unfold renderNodes. revert c.
  induction nodes as [| node nodes IH]; intros c; cbn [flat_map map].
  - cbn. now rewrite app_nil_r.
  - rewrite exec_app, IH, renderNode_fills. now rewrite <- app_assoc.
Qed.

Lemma isNode_spec (nodeId : option string) node :
  isNode nodeId node = true <-> nodeId = Some (id node).
Proof.
  unfold isNode. destruct nodeId as [k |].
  - rewrite String.eqb_eq. split; [now intros -> | now intros [= ->]].
  - split; discriminate.
Qed.

Lemma isSearchMatch_spec (searchQuery : string) node :
  isSearchMatch searchQuery node = true
  <-> searchQuery <> EmptyString
      /\ exists pre post,
           toLowerCase (label node)
           = String.append pre (String.append (toLowerCase searchQuery) post).
Proof.
  unfold isSearchMatch.
  rewrite andb_true_iff, negb_true_iff, String.eqb_neq, includes_spec. reflexivity.
Qed.

Lemma categoryColor_inj (r : GraphRenderer) (cat cat' : FillCategory) :
  categoryColor r cat = categoryColor r cat' -> cat = cat'.
Proof.
  destruct r as [[|]], cat, cat'; cbv; intros Heq;
    first [reflexivity | discriminate Heq].
Qed.

(** C4, as the code has it.  Every node is filled once, with the colour of
    exactly one of three categories, chosen by the precedence search match,
    then selected, then default; the three colours differ.  Hovering changes
    the radius (12 instead of 10), never the fill.  A node is a search match
    exactly when the search string is not empty and its lower-cased form
    (by the host's [toLowerCase]) occurs in the lower-cased label; on ASCII
    text that is the substring test up to the case of the letters A to
    Z. *)
Theorem node_fill_precedence (r : GraphRenderer) (nodes : list (Node num))
    (hoveredNodeId selectedNodeId : option string) (searchQuery : string)
    (z : num) (c : Canvas num) :
  fills (painted (exec c (renderNodes r nodes hoveredNodeId selectedNodeId searchQuery z)))
  = fills (painted c)
    ++ map (fun node =>
              ([Circle (position node)
                  (if isNode hoveredNodeId node then lit 12 1 else lit 10 1)],
               categoryColor r
                 (if isSearchMatch searchQuery node then SearchMatchFill
                  else if isNode selectedNodeId node then SelectedFill
                  else DefaultFill)))
         nodes
  /\ (forall cat cat', categoryColor r cat = categoryColor r cat' <-> cat = cat')
  /\ (forall node,
        isSearchMatch searchQuery node = true
        <-> searchQuery <> EmptyString
            /\ exists pre post,
                 toLowerCase (label node)
                 = String.append pre (String.append (toLowerCase searchQuery) post))
  /\ (forall node,
        allAscii searchQuery = true -> allAscii (label node) = true ->
        (isSearchMatch searchQuery node = true
         <-> searchQuery <> EmptyString
             /\ exists pre post,
                  lowerAsciiString (label node)
                  = String.append pre
                      (String.append (lowerAsciiString searchQuery) post)))
  /\ (forall node, isNode selectedNodeId node = true <-> selectedNodeId = Some (id node))
  /\ (forall node, isNode hoveredNodeId node = true <-> hoveredNodeId = Some (id node)).
Proof.
  split; [apply renderNodes_fills |].
  split; [intros cat cat'; split; [apply categoryColor_inj | now intros ->] |].
  split; [intros node; apply isSearchMatch_spec |].
  split.
  { intros node Hquery Hlabel.
    rewrite isSearchMatch_spec, (toLowerCase_ascii _ Hquery), (toLowerCase_ascii _ Hlabel).
    reflexivity. }
  split; intros node; apply isNode_spec.
Qed.

End Colours.

(** C4 as the specification words it does not hold, on two counts, here on
    a node labelled [Graph] under the light theme, evaluated in binary64;
    label and queries are ASCII text.  Hovered, neither selected nor
    matching, it is filled with the very colour it has when not hovered; and
    although the empty string is a substring of its label, an empty search
    does not make it a match (it gets the default colour, not the
    search-match one). *)
Section AsciiExamples.

#[local] Existing Instance asciiText.

Lemma hovered_fill_counterexample :
  let node : Node float :=
    mkNode "n1" "Graph" (Some 3%float) (Some 4%float) None None in
  let light := mkRenderer false in
  let colours hovered query :=
    map snd (fills (painted (exec blankCanvas
                               (renderNodes light [node] hovered None query 1%float)))) in
  colours (Some "n1") "zzz" = ["#4f46e5"]
  /\ colours None "zzz" = ["#4f46e5"]
  /\ includes (toLowerCase (label node)) (toLowerCase "") = true
  /\ isSearchMatch "" node = false
  /\ colours None "" = ["#4f46e5"]
  /\ colours None "RAP" = ["#2563eb"].
Proof. vm_compute. repeat split. Qed.

End AsciiExamples.

(** ** Hit testing *)

Section HitTest.

Local Open Scope R_scope.

Implicit Types (nodes : list (Node xnum)) (node : Node xnum).

Lemma orDefault_zero (a : option xnum) :
  finiteOpt a -> orDefault a zero = Fin (coordR a).
Proof.
  destruct a as [[r | s |] |]; simpl; try contradiction; intros _.
  - unfold orElse, zero. xnum_unfold. real_cases; [| reflexivity].
    apply Fin_eq. lra.
  - unfold zero. xnum_unfold. apply Fin_eq. lra.
Qed.

Lemma euclid_Fin (dx dy : R) : euclid (Fin dx) (Fin dy) = Fin (R_sqrt.sqrt (dx * dx + dy * dy)).
Proof.
  unfold euclid. xnum_unfold. real_cases; [| reflexivity]. nra.
Qed.

Lemma isNear_spec (wx wy : R) node :
  placed node ->
  isNear (mkPoint (Fin wx) (Fin wy)) node = true <-> distanceR wx wy node < 12.
Proof.
  intros [Hx Hy]. unfold isNear, distanceR. cbn [px py].
  rewrite (orDefault_zero _ Hx), (orDefault_zero _ Hy).
  change (nsub (Fin ?a) (Fin ?b)) with (Fin (a + - b)).
  rewrite euclid_Fin. xnum_unfold.
  replace (12 / 1) with 12 by lra.
  unfold Rminus.
  destruct (Rltb_spec
              (R_sqrt.sqrt ((coordR (x node) + - wx) * (coordR (x node) + - wx)
                     + (coordR (y node) + - wy) * (coordR (y node) + - wy))) 12);
    split; intros; try assumption; try reflexivity; try discriminate; contradiction.
Qed.

Lemma Forall_placed_lookup nodes i node :
  Forall placed nodes -> nodes !! i = Some node -> placed node.
Proof. intros Hall Hi. exact (proj1 (Forall_lookup _ _) Hall i node Hi). Qed.

(** C2, as the code has it.  With the container mounted and the pointer at
    the finite world point [(wx, wy)], the hit test returns the first node of
    the array that is closer than 12 to the pointer, and null when there is
    none, in particular when every node is at distance 12 or more.  A
    pointer at the exact position of the node of index [i] hits a node of
    index at most [i]: that node when no earlier one is closer than 12.
    Without a container the result is null. *)
Theorem hit_test_first_match (rect : Rect xnum) (st : CanvasState xnum)
    (screenX screenY : xnum) (nodes : list (Node xnum)) (wx wy : R) :
  toWorld rect st screenX screenY = mkPoint (Fin wx) (Fin wy) ->
  Forall placed nodes ->
  (forall node,
      getNodeAtPosition (Some rect) st screenX screenY nodes = Some node
      <-> exists i,
            nodes !! i = Some node
            /\ distanceR wx wy node < 12
            /\ forall j other, (j < i)%nat -> nodes !! j = Some other ->
                               12 <= distanceR wx wy other)
  /\ ((forall node, node ∈ nodes -> 12 <= distanceR wx wy node) ->
      getNodeAtPosition (Some rect) st screenX screenY nodes = None)
  /\ (forall i node,
        nodes !! i = Some node ->
        coordR (x node) = wx -> coordR (y node) = wy ->
        exists j hit,
          (j <= i)%nat /\ nodes !! j = Some hit
          /\ getNodeAtPosition (Some rect) st screenX screenY nodes = Some hit
          /\ ((forall k other, (k < i)%nat -> nodes !! k = Some other ->
                               12 <= distanceR wx wy other) -> hit = node))
  /\ getNodeAtPosition None st screenX screenY nodes = None.
Proof.
  intros Hworld Hplaced. unfold getNodeAtPosition. rewrite Hworld.
  split; [| split; [| split; [| reflexivity]]].
  - intros node. split.
    + intros Hhit.
      destruct (list_find _ nodes) as [[i found] |] eqn:Hfind; [| discriminate].
      simpl in Hhit. injection Hhit as ->.
      apply list_find_Some in Hfind as (Hi & Hnear & Hfirst).
      exists i. split; [exact Hi |]. split.
      * apply isNear_spec; [eapply Forall_placed_lookup; eassumption | exact Hnear].
      * intros j other Hj Hother. apply Rnot_lt_le. intros Hlt.
        apply (Hfirst j other Hother Hj).
        apply isNear_spec; [eapply Forall_placed_lookup; eassumption | exact Hlt].
    + intros (i & Hi & Hnear & Hfirst).
      assert (Hfind : list_find
                        (fun n => isNear (mkPoint (Fin wx) (Fin wy)) n = true) nodes
                      = Some (i, node)).
      { apply list_find_Some. split; [exact Hi |]. split.
        - apply isNear_spec; [eapply Forall_placed_lookup; eassumption | exact Hnear].
        - intros j other Hother Hj Hn.
          apply isNear_spec in Hn; [| eapply Forall_placed_lookup; eassumption].
          specialize (Hfirst j other Hj Hother). lra. }
      now rewrite Hfind.
  - intros Hfar.
    destruct (list_find _ nodes) as [[i found] |] eqn:Hfind; [| reflexivity].
    apply list_find_Some in Hfind as (Hi & Hnear & _).
    apply isNear_spec in Hnear; [| eapply Forall_placed_lookup; eassumption].
    assert (Hin : found ∈ nodes) by (apply list_elem_of_lookup; eauto).
    specialize (Hfar found Hin). lra.
  - intros i node Hi Hx Hy.
    assert (Hnear : isNear (mkPoint (Fin wx) (Fin wy)) node = true).
    { apply isNear_spec; [eapply Forall_placed_lookup; eassumption |].
      unfold distanceR. rewrite Hx, Hy.
      replace ((wx - wx) * (wx - wx) + (wy - wy) * (wy - wy)) with 0 by ring.
      rewrite sqrt_0. lra. }
    destruct (list_find (fun n => isNear (mkPoint (Fin wx) (Fin wy)) n = true) nodes)
      as [[j hit] |] eqn:Hfind.
    + pose proof Hfind as Hfind'.
      apply list_find_Some in Hfind as (Hj & Hhit & Hfirst).
      assert (Hle : (j <= i)%nat).
      { destruct (le_lt_dec j i) as [Hle | Hlt]; [exact Hle |].
        exfalso. exact (Hfirst i node Hi Hlt Hnear). }
      exists j, hit. split; [exact Hle |]. split; [exact Hj |].
      split; [reflexivity |].
      intros Hfar. destruct (decide (j = i)) as [-> | Hne]; [congruence |].
      assert (Hlt : (j < i)%nat) by lia.
      specialize (Hfar j hit Hlt Hj).
      apply isNear_spec in Hhit; [| eapply Forall_placed_lookup; eassumption]. lra.
    + exfalso. apply list_find_None in Hfind.
      rewrite Forall_lookup in Hfind. exact (Hfind i node Hi Hnear).
Qed.

End HitTest.

(** The hit test on two nodes 10 apart, the pointer on the second one. *)
Lemma hit_test_first_match_witness :
  let a := mkNode "a" "A" (Some (Fin 10)) (Some (Fin 0)) None None in
  let b := mkNode "b" "B" (Some (Fin 0)) (Some (Fin 0)) None None in
  let rect := mkRect (Fin 0) (Fin 0) in
  let st := cameraAt 1 0 0 800 600 in
  getNodeAtPosition None st (Fin 400) (Fin 300) [a; b] = None
  /\ exists j hit,
       (j <= 1)%nat /\ [a; b] !! j = Some hit
       /\ getNodeAtPosition (Some rect) st (Fin 400) (Fin 300) [a; b] = Some hit.
Proof.
  intros a b rect st.
  assert (Hworld : toWorld rect st (Fin 400) (Fin 300)
                   = mkPoint (Fin ((400 - 0 - 800 / 2 - 0) / 1)%R)
                             (Fin ((300 - 0 - 600 / 2 - 0) / 1)%R)).
  { apply toWorld_formula. lra. }
  assert (Hplaced : Forall placed [a; b]).
  { repeat constructor. }
  destruct (hit_test_first_match rect st (Fin 400) (Fin 300) [a; b] _ _ Hworld Hplaced)
    as (_ & _ & Hexact & Hnone).
  split; [exact Hnone |].
  destruct (Hexact 1%nat b eq_refl) as (j & hit & Hj & Hlookup & Hhit & _).
  - simpl. lra.
  - simpl. lra.
  - now exists j, hit.
Defined.

(** C2 as the specification words it does not hold when two nodes are within
    the pick radius of the pointer, evaluated in binary64 with the default
    camera (zoom 1, no pan, 800 by 600): the pointer at (400, 300) is at the
    world point (0, 0), exactly on node [b]; node [a], 10 away from it, comes
    first in the array and is the one returned, though [b] is nearer. *)
Lemma nearest_node_counterexample :
  let a : Node float := mkNode "a" "A" (Some 10%float) (Some 0%float) None None in
  let b : Node float := mkNode "b" "B" (Some 0%float) (Some 0%float) None None in
  let rect := mkRect 0%float 0%float in
  toWorld rect initialCanvasState 400%float 300%float = position b
  /\ getNodeAtPosition (Some rect) initialCanvasState 400%float 300%float [a; b] = Some a
  /\ getNodeAtPosition (Some rect) initialCanvasState 400%float 300%float [b; a] = Some b.
Proof. vm_compute. repeat split. Qed.

(** ** Forces on idealised doubles *)

Section ForceValues.

Local Open Scope R_scope.

Implicit Types (node src tgt : Node xnum) (sim : GraphSimulation xnum).

Lemma floored_pos (dist : R) : 0 <= dist -> 0 < floored dist.
Proof. unfold floored. destruct (Req_dec_T dist 0); lra. Qed.

Lemma floored_positive (dist : R) : 0 < dist -> floored dist = dist.
Proof. unfold floored. destruct (Req_dec_T dist 0); lra. Qed.

Lemma gap_nonneg (node1 node2 : Node xnum) : 0 <= gap node1 node2.
Proof. apply sqrt_pos. Qed.

Lemma gap_square (node1 node2 : Node xnum) :
  gap node1 node2 * gap node1 node2
  = gapX node1 node2 * gapX node1 node2 + gapY node1 node2 * gapY node1 node2.
Proof. unfold gap. apply sqrt_sqrt. nra. Qed.

Lemma gap_zero (node1 node2 : Node xnum) :
  gap node1 node2 = 0 -> gapX node1 node2 = 0 /\ gapY node1 node2 = 0.
Proof.
  intros Hz. pose proof (gap_square node1 node2) as Hsq. rewrite Hz in Hsq. nra.
Qed.

Lemma div_Fin (a b : R) : b <> 0 -> ndiv (Fin a) (Fin b) = Fin (a / b).
Proof. intros Hb. cbn. destruct (Rzerob_spec b); [contradiction | reflexivity]. Qed.

Lemma sub_Fin (a b : R) : nsub (Fin a) (Fin b) = Fin (a - b).
Proof. reflexivity. Qed.

Lemma add_Fin (a b : R) : nadd (Fin a) (Fin b) = Fin (a + b).
Proof. reflexivity. Qed.

Lemma mul_Fin (a b : R) : nmul (Fin a) (Fin b) = Fin (a * b).
Proof. reflexivity. Qed.

Lemma orElse_Fin (a b : R) : orElse (Fin a) (Fin b) = Fin (if Req_dec_T a 0 then b else a).
Proof.
  unfold orElse. cbn. unfold Rzerob. now destruct (Req_dec_T a 0).
Qed.

Lemma offsetX_Fin (node1 node2 : Node xnum) :
  placed node1 -> placed node2 -> offsetX node1 node2 = Fin (gapX node1 node2).
Proof.
  intros [H1 _] [H2 _]. unfold offsetX, gapX.
  now rewrite (orDefault_zero _ H1), (orDefault_zero _ H2).
Qed.

Lemma offsetY_Fin (node1 node2 : Node xnum) :
  placed node1 -> placed node2 -> offsetY node1 node2 = Fin (gapY node1 node2).
Proof.
  intros [_ H1] [_ H2]. unfold offsetY, gapY.
  now rewrite (orDefault_zero _ H1), (orDefault_zero _ H2).
Qed.

Lemma distOr1_Fin (dx dy : R) :
  distOr1 (Fin dx) (Fin dy) = Fin (floored (R_sqrt.sqrt (dx * dx + dy * dy))).
Proof.
  unfold distOr1, one. rewrite euclid_Fin, lit_Fin, orElse_Fin. unfold floored.
  destruct (Req_dec_T _ 0); [apply Fin_eq; lra | reflexivity].
Qed.

Lemma finite_value (a : xnum) : finite a -> a = Fin (valueR a).
Proof. destruct a; simpl; intros Hf; try contradiction. reflexivity. Qed.

(** The repulsion between two placed nodes, in reals: the scalar
    [repulsion * alpha / d * d] along the unit offset, [d] being the
    distance, or 1 when the distance is zero. *)
Lemma repulsionVector_Fin sim (node1 node2 : Node xnum) :
  finiteSim sim -> placed node1 -> placed node2 ->
  let d := floored (gap node1 node2) in
  let force := valueR (repulsion sim) * valueR (alpha sim) / (d * d) in
  repulsionForce sim (Fin d) = Fin force
  /\ repulsionVector sim node1 node2
     = (Fin (gapX node1 node2 / d * force), Fin (gapY node1 node2 / d * force)).
Proof.
  intros (Ha & Hr & _ & _) H1 H2 d force.
  assert (Hd : 0 < d) by apply floored_pos, gap_nonneg.
  assert (Hforce : repulsionForce sim (Fin d) = Fin force).
  { unfold repulsionForce. rewrite (finite_value _ Ha), (finite_value _ Hr).
    rewrite !mul_Fin, div_Fin by nra. reflexivity. }
  split; [exact Hforce |].
  unfold repulsionVector.
  rewrite (offsetX_Fin _ _ H1 H2), (offsetY_Fin _ _ H1 H2), distOr1_Fin.
  fold (gap node1 node2). fold d. rewrite Hforce.
  rewrite !div_Fin by lra. now rewrite !mul_Fin.
Qed.

Lemma norm_scaled (ux uy k : R) :
  0 <= k -> norm (ux * k) (uy * k) = norm ux uy * k.
Proof.
  intros Hk. unfold norm.
  replace (ux * k * (ux * k) + uy * k * (uy * k)) with ((ux * ux + uy * uy) * (k * k)) by ring.
  rewrite sqrt_mult_alt by nra. f_equal.
  replace (k * k) with (Rsqr k) by reflexivity. now apply sqrt_Rsqr.
Qed.

Lemma norm_unit (node1 node2 : Node xnum) :
  0 < gap node1 node2 ->
  norm (gapX node1 node2 / gap node1 node2) (gapY node1 node2 / gap node1 node2) = 1.
Proof.
  intros Hpos. unfold norm.
  replace (gapX node1 node2 / gap node1 node2 * (gapX node1 node2 / gap node1 node2)
           + gapY node1 node2 / gap node1 node2 * (gapY node1 node2 / gap node1 node2))
    with ((gapX node1 node2 * gapX node1 node2 + gapY node1 node2 * gapY node1 node2)
          / (gap node1 node2 * gap node1 node2)) by (field; lra).
  rewrite <- gap_square.
  replace (gap node1 node2 * gap node1 node2 / (gap node1 node2 * gap node1 node2))
    with 1 by (field; lra).
  apply sqrt_1.
Qed.

End ForceValues.

(** ** The repulsion step, node by node *)

Section Accumulation.

Context {num : Type} `{JSNum num}.

Variables (sim : GraphSimulation num) (d : option string) (nodes0 : list (Node num)).

Implicit Types (state : list (Node num)) (node : Node num).

Lemma sameBody_refl (a : Node num) : sameBody a a.
Proof. now repeat split. Qed.

Lemma sameBody_trans (a b c : Node num) : sameBody a b -> sameBody b c -> sameBody a c.
Proof. intros (? & ? & ? & ?) (? & ? & ? & ?). repeat split; congruence. Qed.

Lemma pushBack_body (f : num * num) node : sameBody (pushBack f node) node.
Proof. now repeat split. Qed.

Lemma pushForth_body (f : num * num) node : sameBody (pushForth f node) node.
Proof. now repeat split. Qed.

Lemma received_body (k nForth nBack : nat) node :
  sameBody (received sim nodes0 k nForth nBack node) node.
Proof.
  unfold received.
  apply (fold_left_preserves (fun n => sameBody n node)).
  { intros acc j Hacc. eapply sameBody_trans; [apply pushBack_body | exact Hacc]. }
  apply (fold_left_preserves (fun n => sameBody n node)).
  { intros acc i Hacc. eapply sameBody_trans; [apply pushForth_body | exact Hacc]. }
  apply sameBody_refl.
Qed.

Lemma repulsionVector_body (a a' b b' : Node num) :
  sameBody a a' -> sameBody b b' ->
  repulsionVector sim a b = repulsionVector sim a' b'.
Proof.
  intros (_ & _ & Hxa & Hya) (_ & _ & Hxb & Hyb).
  unfold repulsionVector, offsetX, offsetY. now rewrite Hxa, Hya, Hxb, Hyb.
Qed.

Lemma isDragged_body (a a' : Node num) : sameBody a a' -> isDragged d a = isDragged d a'.
Proof. intros (Hid & _). unfold isDragged. now rewrite Hid. Qed.

Lemma updateUnlessDragged_length (i : nat) (f : Node num -> Node num) state :
  length (updateUnlessDragged d i f state) = length state.
Proof.
  unfold updateUnlessDragged. destruct (state !! i) as [n |]; [| reflexivity].
  destruct (isDragged d n); [reflexivity | apply length_insert].
Qed.

Lemma updateUnlessDragged_lookup (i k : nat) (f : Node num -> Node num) state node :
  state !! i = Some node ->
  updateUnlessDragged d i f state !! k
  = if decide (k = i) then Some (if isDragged d node then node else f node)
    else state !! k.
Proof.
  intros Hi. unfold updateUnlessDragged. rewrite Hi.
  destruct (decide (k = i)) as [-> | Hne].
  - destruct (isDragged d node); [exact Hi |].
    apply list_lookup_insert_eq. now apply lookup_lt_Some in Hi.
  - destruct (isDragged d node); [reflexivity |].
    now apply list_lookup_insert_ne.
Qed.

Lemma loopState_body (m t : nat) state k node current :
  loopState sim d nodes0 m t state ->
  nodes0 !! k = Some node -> state !! k = Some current -> sameBody current node.
Proof.
  intros [_ Hstate] Hk Hcur. rewrite (Hstate k node Hk) in Hcur.
  injection Hcur as <-. destruct (isDragged d node).
  - apply sameBody_refl.
  - apply received_body.
Qed.

Lemma received_back (k nForth nBack : nat) node :
  received sim nodes0 k nForth (S nBack) node
  = pushBack (pairForce sim nodes0 k (S k + nBack)) (received sim nodes0 k nForth nBack node).
Proof. unfold received. now rewrite seq_S, fold_left_app. Qed.

Lemma received_forth (k nForth : nat) node :
  received sim nodes0 k (S nForth) 0 node
  = pushForth (pairForce sim nodes0 nForth k) (received sim nodes0 k nForth 0 node).
Proof. unfold received. rewrite seq_S, fold_left_app. reflexivity. Qed.

(** One run of the body of the inner loop. *)
Lemma loopState_pair (m t : nat) state :
  S m + t < length nodes0 ->
  loopState sim d nodes0 m t state ->
  loopState sim d nodes0 m (S t) (repelPair sim d state m (S m + t)).
Proof.
  intros Hj Hinv. pose proof Hinv as [Hlen Hstate].
  destruct (lookup_lt_is_Some_2 nodes0 m ltac:(lia)) as [a0 Ha0].
  destruct (lookup_lt_is_Some_2 nodes0 (S m + t) ltac:(lia)) as [b0 Hb0].
  pose proof (Hstate m a0 Ha0) as Ha1. pose proof (Hstate (S m + t) b0 Hb0) as Hb1.
  set (a1 := if isDragged d a0 then a0
             else received sim nodes0 m (forthCount m t m) (backCount nodes0 m t m) a0) in Ha1.
  set (b1 := if isDragged d b0 then b0
             else received sim nodes0 (S m + t) (forthCount m t (S m + t))
                    (backCount nodes0 m t (S m + t)) b0) in Hb1.
  assert (Hbodya : sameBody a1 a0) by (eapply loopState_body; eassumption).
  assert (Hbodyb : sameBody b1 b0) by (eapply loopState_body; eassumption).
  assert (Hforce : repulsionVector sim a1 b1 = pairForce sim nodes0 m (S m + t)).
  { unfold pairForce. rewrite Ha0, Hb0. now apply repulsionVector_body. }
  unfold repelPair. rewrite Ha1, Hb1, Hforce.
  set (f := pairForce sim nodes0 m (S m + t)).
  assert (Hb1' : updateUnlessDragged d m (pushBack f) state !! (S m + t) = Some b1).
  { rewrite (updateUnlessDragged_lookup _ _ _ _ _ Ha1).
    destruct (decide (S m + t = m)); [lia | exact Hb1]. }
  split.
  { now rewrite !updateUnlessDragged_length. }
  intros k node Hk.
  rewrite (updateUnlessDragged_lookup _ _ _ _ _ Hb1').
  destruct (decide (k = S m + t)) as [-> | Hkj].
  - (* the second node of the pair *)
    assert (node = b0) as -> by congruence.
    rewrite (isDragged_body _ _ Hbodyb). subst b1.
    destruct (isDragged d b0); [reflexivity |]. f_equal.
    unfold forthCount, backCount. repeat case_decide; try lia.
    now rewrite received_forth.
  - rewrite (updateUnlessDragged_lookup _ _ _ _ _ Ha1).
    destruct (decide (k = m)) as [-> | Hkm].
    + (* the first node of the pair *)
      assert (node = a0) as -> by congruence.
      rewrite (isDragged_body _ _ Hbodya). subst a1.
      destruct (isDragged d a0); [reflexivity |]. f_equal.
      unfold forthCount, backCount. repeat case_decide; try lia.
      now rewrite received_back.
    + (* a node outside the pair *)
      rewrite (Hstate k node Hk).
      destruct (isDragged d node); [reflexivity |]. f_equal.
      unfold forthCount, backCount. repeat case_decide; try lia; reflexivity.
Qed.

(** The inner loop, from any point of its run. *)
Lemma loopState_inner (m count t : nat) state :
  S m + t + count <= length nodes0 ->
  loopState sim d nodes0 m t state ->
  loopState sim d nodes0 m (t + count)
    (fold_left (fun ns j => repelPair sim d ns m j) (seq (S m + t) count) state).
Proof.
  revert t state. induction count as [| count IH]; intros t state Hle Hinv.
  - simpl. now rewrite Nat.add_0_r.
  - cbn [seq fold_left].
    replace (t + S count) with (S t + count) by lia.
    replace (S (S m + t)) with (S m + S t) by lia.
    apply IH; [lia |]. apply loopState_pair; [lia | exact Hinv].
Qed.

(** Leaving the inner loop is entering the next round of the outer one. *)
Lemma loopState_next (m : nat) state :
  m < length nodes0 ->
  loopState sim d nodes0 m (length nodes0 - S m) state -> loopState sim d nodes0 (S m) 0 state.
Proof.
  intros Hm [Hlen Hstate]. split; [exact Hlen |].
  intros k node Hk. rewrite (Hstate k node Hk).
  apply lookup_lt_Some in Hk.
  destruct (isDragged d node); [reflexivity |]. f_equal.
  unfold forthCount, backCount. repeat case_decide; try lia; f_equal; lia.
Qed.

Lemma loopState_from (m : nat) state :
  m < length nodes0 ->
  loopState sim d nodes0 m 0 state -> loopState sim d nodes0 (S m) 0 (repelFrom sim d state m).
Proof.
  intros Hm Hinv. apply loopState_next; [exact Hm |].
  unfold repelFrom. destruct Hinv as [Hlen Hstate]. rewrite Hlen.
  replace (seq (S m) (length nodes0 - S m))
    with (seq (S m + 0) (length nodes0 - S m)) by (f_equal; lia).
  apply (loopState_inner m (length nodes0 - S m) 0 state); [lia | now split].
Qed.

Lemma loopState_outer (count m : nat) state :
  m + count <= length nodes0 ->
  loopState sim d nodes0 m 0 state ->
  loopState sim d nodes0 (m + count) 0 (fold_left (repelFrom sim d) (seq m count) state).
Proof.
  revert m state. induction count as [| count IH]; intros m state Hle Hinv.
  - simpl. now rewrite Nat.add_0_r.
  - cbn [seq fold_left]. replace (m + S count) with (S m + count) by lia.
    apply IH; [lia |]. apply loopState_from; [lia | exact Hinv].
Qed.

Lemma loopState_start : loopState sim d nodes0 0 0 nodes0.
Proof.
  split; [reflexivity |]. intros k node Hk. rewrite Hk.
  destruct (isDragged d node); [reflexivity |]. f_equal.
  unfold forthCount, backCount, received.
  repeat case_decide; try lia; subst; reflexivity.
Qed.

(** After the double loop the node of index [k] has been pushed forth by
    each node before it and pushed back by each node after it, once each,
    with the force of the respective pair; a dragged node is as it was. *)
Lemma applyRepulsionForces_received (k : nat) node :
  nodes0 !! k = Some node ->
  applyRepulsionForces sim nodes0 d !! k
  = Some (if isDragged d node then node
          else received sim nodes0 k k (length nodes0 - S k) node).
Proof.
  intros Hk. unfold applyRepulsionForces.
  destruct (loopState_outer (length nodes0) 0 nodes0 ltac:(lia) loopState_start)
    as [_ Hstate].
  rewrite (Hstate k node Hk). apply lookup_lt_Some in Hk.
  destruct (isDragged d node); [reflexivity |]. f_equal.
  unfold forthCount, backCount. repeat case_decide; try lia; reflexivity.
Qed.

Lemma applyRepulsionForces_length :
  length (applyRepulsionForces sim nodes0 d) = length nodes0.
Proof.
  unfold applyRepulsionForces.
  now destruct (loopState_outer (length nodes0) 0 nodes0 ltac:(lia) loopState_start).
Qed.

End Accumulation.

(** ** Repulsion *)

Section Repulsion.

Local Open Scope R_scope.

Implicit Types (sim : GraphSimulation xnum) (nodes : list (Node xnum))
  (node : Node xnum).

Lemma pairForce_value sim nodes (i j : nat) (a b : Node xnum) :
  finiteSim sim -> Forall placed nodes ->
  nodes !! i = Some a -> nodes !! j = Some b ->
  pairForce sim nodes i j = (Fin (repulsionX sim a b), Fin (repulsionY sim a b)).
Proof.
  intros Hsim Hplaced Ha Hb. unfold pairForce. rewrite Ha, Hb.
  apply repulsionVector_Fin; [exact Hsim | |]; eapply Forall_placed_lookup; eassumption.
Qed.

Lemma pairForce_none sim nodes (i j : nat) :
  nodes !! i = None \/ nodes !! j = None -> pairForce sim nodes i j = (Fin 0, Fin 0).
Proof.
  unfold pairForce.
  assert (Hzero : (zero : xnum) = Fin 0).
  { unfold zero. rewrite lit_Fin. apply Fin_eq. lra. }
  rewrite Hzero. intros [-> | ->]; [reflexivity | now destruct (nodes !! i)].
Qed.

Lemma sumOver_app (f : Node xnum -> R) nodes (more : list (Node xnum)) :
  sumOver f (nodes ++ more) = sumOver f nodes + sumOver f more.
Proof.
  unfold sumOver. induction nodes as [| n nodes IH]; simpl; [lra |]. rewrite IH. lra.
Qed.

Lemma pushForth_velocity (fx fy : R) node :
  finiteOpt (vx node) -> finiteOpt (vy node) ->
  pushForth (Fin fx, Fin fy) node
  = setVelocity node (Fin (coordR (vx node) + fx)) (Fin (coordR (vy node) + fy)).
Proof.
  intros Hvx Hvy. unfold pushForth. cbn [fst snd].
  now rewrite (orDefault_zero _ Hvx), (orDefault_zero _ Hvy), !add_Fin.
Qed.

Lemma pushBack_velocity (fx fy : R) node :
  finiteOpt (vx node) -> finiteOpt (vy node) ->
  pushBack (Fin fx, Fin fy) node
  = setVelocity node (Fin (coordR (vx node) - fx)) (Fin (coordR (vy node) - fy)).
Proof.
  intros Hvx Hvy. unfold pushBack. cbn [fst snd].
  now rewrite (orDefault_zero _ Hvx), (orDefault_zero _ Hvy), !sub_Fin.
Qed.

(** The node of index [k] after the pushes of its first [nForth]
    predecessors: its velocity has grown by the sum of their forces. *)
Lemma received_forth_velocity sim nodes (k nForth : nat) node :
  finiteSim sim -> Forall placed nodes -> nodes !! k = Some node ->
  finiteOpt (vx node) -> finiteOpt (vy node) ->
  let node' := received sim nodes k nForth 0 node in
  sameBody node' node /\ finiteOpt (vx node') /\ finiteOpt (vy node')
  /\ coordR (vx node')
     = coordR (vx node) + sumOver (fun e => repulsionX sim e node) (take nForth nodes)
  /\ coordR (vy node')
     = coordR (vy node) + sumOver (fun e => repulsionY sim e node) (take nForth nodes).
Proof.
  intros Hsim Hplaced Hk Hvx Hvy. cbv zeta.
  induction nForth as [| n (Hbody & Hfx & Hfy & Hsx & Hsy)].
  - change (received sim nodes k 0 0 node) with node.
    split; [apply sameBody_refl |]. repeat split; try assumption; simpl; lra.
  - rewrite received_forth. set (prev := received sim nodes k n 0 node) in *.
    destruct (nodes !! n) as [e |] eqn:Hn.
    + rewrite (pairForce_value sim nodes n k e node Hsim Hplaced Hn Hk).
      rewrite (pushForth_velocity _ _ prev Hfx Hfy).
      rewrite (take_S_r nodes n e Hn), !sumOver_app.
      split; [exact Hbody |]. cbn [setVelocity vx vy finiteOpt finite coordR sumOver fold_right].
      repeat split; lra.
    + rewrite (pairForce_none sim nodes n k (or_introl Hn)).
      rewrite (pushForth_velocity _ _ prev Hfx Hfy).
      apply lookup_ge_None in Hn.
      rewrite (take_ge nodes (S n)) by lia. rewrite (take_ge nodes n) in Hsx, Hsy by lia.
      split; [exact Hbody |]. cbn [setVelocity vx vy finiteOpt finite coordR].
      repeat split; lra.
Qed.

(** ... and after the pushes of its first [nBack] successors as well: these
    forces are taken off. *)
Lemma received_velocity sim nodes (k nForth nBack : nat) node :
  finiteSim sim -> Forall placed nodes -> nodes !! k = Some node ->
  finiteOpt (vx node) -> finiteOpt (vy node) ->
  let node' := received sim nodes k nForth nBack node in
  sameBody node' node /\ finiteOpt (vx node') /\ finiteOpt (vy node')
  /\ coordR (vx node')
     = coordR (vx node)
       + sumOver (fun e => repulsionX sim e node) (take nForth nodes)
       - sumOver (fun l => repulsionX sim node l) (take nBack (drop (S k) nodes))
  /\ coordR (vy node')
     = coordR (vy node)
       + sumOver (fun e => repulsionY sim e node) (take nForth nodes)
       - sumOver (fun l => repulsionY sim node l) (take nBack (drop (S k) nodes)).
Proof.
  intros Hsim Hplaced Hk Hvx Hvy. cbv zeta.
  induction nBack as [| n (Hbody & Hfx & Hfy & Hsx & Hsy)].
  - destruct (received_forth_velocity sim nodes k nForth node Hsim Hplaced Hk Hvx Hvy)
      as (Hbody & Hfx & Hfy & Hsx & Hsy).
    split; [exact Hbody |]. repeat split; try assumption; simpl; lra.
  - rewrite received_back. set (prev := received sim nodes k nForth n node) in *.
    destruct (nodes !! (S k + n)%nat) as [l |] eqn:Hn.
    + rewrite (pairForce_value sim nodes k (S k + n) node l Hsim Hplaced Hk Hn).
      rewrite (pushBack_velocity _ _ prev Hfx Hfy).
      assert (Hl : drop (S k) nodes !! n = Some l) by now rewrite lookup_drop.
      rewrite (take_S_r _ n l Hl), !sumOver_app.
      split; [exact Hbody |]. cbn [setVelocity vx vy finiteOpt finite coordR sumOver fold_right].
      repeat split; lra.
    + rewrite (pairForce_none sim nodes k (S k + n) (or_intror Hn)).
      rewrite (pushBack_velocity _ _ prev Hfx Hfy).
      assert (Hl : drop (S k) nodes !! n = None) by now rewrite lookup_drop.
      apply lookup_ge_None in Hl.
      rewrite (take_ge (drop (S k) nodes) (S n)) by lia.
      rewrite (take_ge (drop (S k) nodes) n) in Hsx, Hsy by lia.
      split; [exact Hbody |]. cbn [setVelocity vx vy finiteOpt finite coordR].
      repeat split; lra.
Qed.

(** C1, as the code has it.  The repulsion step leaves a dragged node as it
    is.  Every other node keeps its id, label and position, and its
    velocity changes by the forces of the pairs it forms with the other
    nodes: the force of the pair is added for each node that comes before it
    in the array (it is the later node of that pair) and subtracted for each
    node that comes after it (it is the earlier one).  The force of a pair
    points along the offset from its earlier to its later node and its
    scalar is [repulsion * alpha / d * d], where [d] is the distance
    itself, replaced by 1 only when it is exactly zero.  So two nodes at a
    distance [d > 0], also when [d < 1], repel with magnitude
    [repulsion * alpha / d * d], and two coincident nodes exert no force on
    each other. *)
Theorem repulsion_pair_forces (sim : GraphSimulation xnum) (nodes : list (Node xnum))
    (draggedNodeId : option string) :
  finiteSim sim ->
  0 <= valueR (repulsion sim) ->
  0 <= valueR (alpha sim) ->
  Forall finiteNode nodes ->
  (forall k node,
      nodes !! k = Some node ->
      exists node',
        applyRepulsionForces sim nodes draggedNodeId !! k = Some node'
        /\ (isDragged draggedNodeId node = true -> node' = node)
        /\ (isDragged draggedNodeId node = false ->
            id node' = id node /\ label node' = label node
            /\ x node' = x node /\ y node' = y node
            /\ finiteOpt (vx node') /\ finiteOpt (vy node')
            /\ coordR (vx node')
               = coordR (vx node)
                 + sumOver (fun earlier => repulsionX sim earlier node) (take k nodes)
                 - sumOver (fun later => repulsionX sim node later) (drop (S k) nodes)
            /\ coordR (vy node')
               = coordR (vy node)
                 + sumOver (fun earlier => repulsionY sim earlier node) (take k nodes)
                 - sumOver (fun later => repulsionY sim node later) (drop (S k) nodes)))
  /\ (forall i j a b,
        nodes !! i = Some a -> nodes !! j = Some b ->
        pairForce sim nodes i j = (Fin (repulsionX sim a b), Fin (repulsionY sim a b)))
  /\ (forall a b : Node xnum,
        (0 < gap a b ->
         let force := valueR (repulsion sim) * valueR (alpha sim)
                      / (gap a b * gap a b) in
         repulsionX sim a b = gapX a b / gap a b * force
         /\ repulsionY sim a b = gapY a b / gap a b * force
         /\ norm (repulsionX sim a b) (repulsionY sim a b) = force)
        /\ (gap a b = 0 -> repulsionX sim a b = 0 /\ repulsionY sim a b = 0)).
Proof.
  intros Hsim Hrep Halpha Hall.
  assert (Hplaced : Forall placed nodes).
  { eapply Forall_impl; [exact Hall |]. intros n (Hx & Hy & _). now split. }
  split; [| split].
  - intros k node Hk.
    rewrite (applyRepulsionForces_received sim draggedNodeId nodes k node Hk).
    eexists. split; [reflexivity |].
    destruct (isDragged draggedNodeId node); split; try discriminate; try reflexivity.
    intros _.
    pose proof (proj1 (Forall_lookup _ _) Hall k node Hk) as (_ & _ & Hvx & Hvy).
    destruct (received_velocity sim nodes k k (length nodes - S k) node
                Hsim Hplaced Hk Hvx Hvy)
      as ((Hid & Hlabel & Hx & Hy) & Hfx & Hfy & Hsx & Hsy).
    rewrite (take_ge (drop (S k) nodes)) in Hsx, Hsy by (rewrite length_drop; lia).
    repeat split; assumption.
  - intros i j a b Ha Hb. now apply pairForce_value.
  - intros a b. split.
    + intros Hpos force. unfold repulsionX, repulsionY.
      rewrite (floored_positive _ Hpos). fold force.
      split; [reflexivity |]. split; [reflexivity |].
      assert (Hforce : 0 <= force).
      { unfold force. apply Rmult_le_pos; [nra |].
        apply Rlt_le, Rinv_0_lt_compat. nra. }
      rewrite norm_scaled by exact Hforce.
      rewrite norm_unit by exact Hpos. lra.
    + intros Hzero. unfold repulsionX, repulsionY.
      destruct (gap_zero a b Hzero) as [-> ->].
      unfold Rdiv. split; ring.
Qed.

(** Two nodes 5 apart under a fresh engine: the scalar is
    [5000 * 0.3 / 25 = 60], the first node of the array gets
    [(-36, -48)], the second [(36, 48)]. *)
Lemma repulsion_pair_forces_witness :
  let a := mkNode "a" "A" (Some (Fin 0)) (Some (Fin 0)) None None in
  let b := mkNode "b" "B" (Some (Fin 3)) (Some (Fin 4)) None None in
  exists a' b',
    applyRepulsionForces newGraphSimulation [a; b] None !! 0%nat = Some a'
    /\ coordR (vx a') = -36 /\ coordR (vy a') = -48
    /\ applyRepulsionForces newGraphSimulation [a; b] None !! 1%nat = Some b'
    /\ coordR (vx b') = 36 /\ coordR (vy b') = 48.
Proof.
  intros a b.
  assert (Hsim : finiteSim (newGraphSimulation (num := xnum))) by (repeat split).
  assert (Hrep : 0 <= valueR (repulsion (newGraphSimulation (num := xnum)))) by (simpl; lra).
  assert (Halpha : 0 <= valueR (alpha (newGraphSimulation (num := xnum)))) by (simpl; lra).
  assert (Hall : Forall finiteNode [a; b]).
  { repeat (apply List.Forall_cons; [repeat split |]). apply List.Forall_nil. }
  assert (Hgap : gap a b = 5).
  { unfold gap, gapX, gapY. cbn [coordR x y a b].
    replace ((3 - 0) * (3 - 0) + (4 - 0) * (4 - 0)) with (5 * 5) by ring.
    apply sqrt_square. lra. }
  assert (Hfx : repulsionX newGraphSimulation a b = 36).
  { unfold repulsionX. rewrite Hgap, floored_positive by lra.
    unfold gapX. cbn [coordR x a b]. simpl. lra. }
  assert (Hfy : repulsionY newGraphSimulation a b = 48).
  { unfold repulsionY. rewrite Hgap, floored_positive by lra.
    unfold gapY. cbn [coordR y a b]. simpl. lra. }
  destruct (repulsion_pair_forces newGraphSimulation [a; b] None Hsim Hrep Halpha Hall)
    as (Hstep & _ & _).
  destruct (Hstep 0%nat a eq_refl) as (a' & Ha' & _ & Hmoved).
  destruct (Hmoved eq_refl) as (_ & _ & _ & _ & _ & _ & Hax & Hay).
  destruct (Hstep 1%nat b eq_refl) as (b' & Hb' & _ & Hmoved').
  destruct (Hmoved' eq_refl) as (_ & _ & _ & _ & _ & _ & Hbx & Hby).
  cbn [take drop sumOver fold_right coordR vx vy a b] in Hax, Hay, Hbx, Hby.
  exists a', b'. repeat split; try assumption; lra.
Defined.

End Repulsion.

(** C1 as the specification words it does not hold below distance 1,
    evaluated in binary64 with the parameters of a fresh engine: at distance
    0.5 the specification's [max(1, d)] gives a magnitude of 1500, the code
    divides by [0.5 * 0.5] and applies 6000. *)
Lemma repulsion_floor_counterexample :
  let a : Node float := mkNode "a" "A" (Some 0%float) (Some 0%float) None None in
  let b : Node float := mkNode "b" "B" (Some 0.5%float) (Some 0%float) None None in
  euclid (offsetX a b) (offsetY a b) = 0.5%float
  /\ specRepulsionMagnitude newGraphSimulation 0.5%float = 1500%float
  /\ repulsionVector newGraphSimulation a b = (6000%float, 0%float)
  /\ applyRepulsionForces newGraphSimulation [a; b] None
     = [setVelocity a (-6000)%float 0%float; setVelocity b 6000%float 0%float].
Proof. vm_compute. repeat split. Qed.

(** ** The attraction step, connection by connection *)

Section Springs.

Context {num : Type} `{JSNum num}.

Variables (sim : GraphSimulation num) (d : option string).

Implicit Types (state nodes : list (Node num)) (node : Node num) (conn : Connection num).

Lemma sameBodies_refl nodes : sameBodies nodes nodes.
Proof. apply Forall_Forall2_diag, Forall_forall. intros n _. apply sameBody_refl. Qed.

Lemma updateUnlessDragged_bodies (i : nat) (f : Node num -> Node num) state nodes :
  (forall n, sameBody (f n) n) ->
  sameBodies state nodes -> sameBodies (updateUnlessDragged d i f state) nodes.
Proof.
  intros Hf Hsame. unfold updateUnlessDragged.
  destruct (state !! i) as [n |] eqn:Hi; [| exact Hsame].
  destruct (isDragged d n); [exact Hsame |].
  unfold sameBodies in *.
  rewrite <- (list_insert_id state i n Hi) in Hsame.
  pose proof (list_lookup_insert_eq _ _ n (lookup_lt_Some _ _ _ Hi)) as Hi'.
  destruct (Forall2_lookup_l _ _ _ _ _ Hsame Hi') as (n0 & Hn0 & Hbody).
  rewrite <- (list_insert_id nodes i n0 Hn0).
  apply Forall2_insert.
  - rewrite (list_insert_id state i n Hi) in Hsame. exact Hsame.
  - eapply sameBody_trans; [apply Hf | exact Hbody].
Qed.

Lemma findNode_bodies (key : string) state nodes :
  sameBodies state nodes ->
  match findNode state key, findNode nodes key with
  | Some (i, n), Some (i0, n0) => i = i0 /\ sameBody n n0
  | None, None => True
  | _, _ => False
  end.
Proof.
  unfold findNode. induction 1 as [| n n0 state nodes Hbody Hrest IH]; simpl.
  - exact I.
  - destruct Hbody as (Hid & Hbody).
    destruct (decide (id n = key)) as [Hn | Hn],
             (decide (id n0 = key)) as [Hn0 | Hn0]; try congruence.
    + simpl. split; [reflexivity | now split].
    + destruct (list_find _ state) as [[i m] |],
               (list_find _ nodes) as [[i0 m0] |]; simpl; try exact IH.
      destruct IH as [-> Hm]. now split.
Qed.

Lemma attractionVector_body conn (src src' tgt tgt' : Node num) :
  sameBody src src' -> sameBody tgt tgt' ->
  attractionVector sim conn src tgt = attractionVector sim conn src' tgt'.
Proof.
  intros (_ & _ & Hxa & Hya) (_ & _ & Hxb & Hyb).
  unfold attractionVector, offsetX, offsetY. now rewrite Hxa, Hya, Hxb, Hyb.
Qed.

Lemma attractConnection_bodies conn state nodes :
  sameBodies state nodes -> sameBodies (attractConnection sim d state conn) nodes.
Proof.
  intros Hsame. unfold attractConnection.
  destruct (findNode state (source conn)) as [[si src] |]; [| exact Hsame].
  destruct (findNode state (target conn)) as [[ti tgt] |]; [| exact Hsame].
  apply updateUnlessDragged_bodies; [intros n; apply pushBack_body |].
  apply updateUnlessDragged_bodies; [intros n; apply pushForth_body | exact Hsame].
Qed.

Lemma applyAttractionForces_bodies (connections : list (Connection num)) nodes :
  sameBodies (applyAttractionForces sim nodes connections d) nodes.
Proof.
  unfold applyAttractionForces.
  apply (fold_left_preserves (fun state => sameBodies state nodes)).
  - intros state conn Hsame. now apply attractConnection_bodies.
  - apply sameBodies_refl.
Qed.

(** What the connection [conn] does when its turn comes, the connections
    [earlier] having been handled: nothing unless both ids resolve;
    otherwise the spring force between the two nodes found, computed from
    the positions the array had when the step began, is added to the
    velocity of the source and subtracted from that of the target, a
    dragged end being left alone. *)
Lemma attractConnection_effect (earlier : list (Connection num)) conn nodes :
  let state := applyAttractionForces sim nodes earlier d in
  applyAttractionForces sim nodes (earlier ++ [conn]) d
  = match findNode nodes (source conn), findNode nodes (target conn) with
    | Some (si, src), Some (ti, tgt) =>
        updateUnlessDragged d ti (pushBack (attractionVector sim conn src tgt))
          (updateUnlessDragged d si (pushForth (attractionVector sim conn src tgt)) state)
    | _, _ => state
    end.
Proof.
  intros state. unfold applyAttractionForces. rewrite fold_left_app. cbn [fold_left].
  fold (applyAttractionForces sim nodes earlier d). fold state.
  pose proof (applyAttractionForces_bodies earlier nodes) as Hsame. fold state in Hsame.
  pose proof (findNode_bodies (source conn) _ _ Hsame) as Hsrc.
  pose proof (findNode_bodies (target conn) _ _ Hsame) as Htgt.
  unfold attractConnection.
  destruct (findNode state (source conn)) as [[si src] |],
           (findNode nodes (source conn)) as [[si0 src0] |]; try contradiction;
    [| reflexivity].
  destruct (findNode state (target conn)) as [[ti tgt] |],
           (findNode nodes (target conn)) as [[ti0 tgt0] |]; try contradiction;
    [| reflexivity].
  destruct Hsrc as [-> Hsrc], Htgt as [-> Htgt].
  now rewrite (attractionVector_body conn _ _ _ _ Hsrc Htgt).
Qed.

End Springs.

(** ** Attraction *)

Section Attraction.

Local Open Scope R_scope.

Lemma attractionVector_Fin (sim : GraphSimulation xnum) (conn : Connection xnum)
    (src tgt : Node xnum) (s : R) :
  finiteSim sim -> placed src -> placed tgt -> strength conn = Fin s ->
  let d := floored (gap src tgt) in
  let force := d * valueR (attraction sim) * effectiveStrength s * valueR (alpha sim) in
  attractionForce sim conn (Fin d) = Fin force
  /\ attractionVector sim conn src tgt
     = (Fin (gapX src tgt / d * force), Fin (gapY src tgt / d * force)).
Proof.
  intros (Ha & _ & Hk & _) Hsrc Htgt Hs d force.
  assert (Hd : 0 < d) by apply floored_pos, gap_nonneg.
  assert (Hforce : attractionForce sim conn (Fin d) = Fin force).
  { unfold attractionForce. rewrite Hs, (finite_value _ Ha), (finite_value _ Hk).
    rewrite lit_Fin, orElse_Fin, !mul_Fin. apply Fin_eq. unfold force, effectiveStrength.
    destruct (Req_dec_T s 0); lra. }
  split; [exact Hforce |].
  unfold attractionVector.
  rewrite (offsetX_Fin _ _ Hsrc Htgt), (offsetY_Fin _ _ Hsrc Htgt), distOr1_Fin.
  fold (gap src tgt). fold d. rewrite Hforce.
  rewrite !div_Fin by lra. now rewrite !mul_Fin.
Qed.

Lemma norm_zero : norm 0 0 = 0.
Proof. unfold norm. replace (0 * 0 + 0 * 0) with 0 by ring. apply sqrt_0. Qed.

Lemma isDragged_setVelocity (d : option string) (node : Node xnum) (v w : xnum) :
  isDragged d (setVelocity node v w) = isDragged d node.
Proof. reflexivity. Qed.

(** C3, as the code has it.  When the turn of a connection comes in the
    attraction step, it does nothing unless both its ids resolve.
    Otherwise, between the first nodes carrying the two ids, it applies a
    force along their offset whose magnitude is
    [d * attraction * s * alpha], [d] being their distance at the start of
    the step and [s] the strength of the connection, replaced by 0.1 when
    the strength is 0: the velocity of the source grows by the force and
    that of the target shrinks by it, a dragged end and every other node
    being left as they are.  For a strength in (0, 1] the magnitude is
    proportional to the strength; a connection of strength 0 pulls like one
    of strength 0.1. *)
Theorem spring_force_magnitude (sim : GraphSimulation xnum) (nodes : list (Node xnum))
    (draggedNodeId : option string) (earlier : list (Connection xnum))
    (conn : Connection xnum) (s : R) :
  finiteSim sim ->
  0 <= valueR (attraction sim) ->
  0 <= valueR (alpha sim) ->
  strength conn = Fin s ->
  0 <= s <= 1 ->
  Forall finiteNode (applyAttractionForces sim nodes earlier draggedNodeId) ->
  let state := applyAttractionForces sim nodes earlier draggedNodeId in
  let after := applyAttractionForces sim nodes (earlier ++ [conn]) draggedNodeId in
  (forall si src ti tgt,
      findNode nodes (source conn) = Some (si, src) ->
      findNode nodes (target conn) = Some (ti, tgt) ->
      let pull := valueR (attraction sim) * effectiveStrength s * valueR (alpha sim) in
      let fx := gapX src tgt * pull in
      let fy := gapY src tgt * pull in
      norm fx fy
      = gap src tgt * valueR (attraction sim) * effectiveStrength s * valueR (alpha sim)
      /\ length after = length state
      /\ forall i cur,
           state !! i = Some cur ->
           exists cur',
             after !! i = Some cur'
             /\ (isDragged draggedNodeId cur = true \/ (i <> si /\ i <> ti) -> cur' = cur)
             /\ (isDragged draggedNodeId cur = false -> i = si \/ i = ti ->
                 id cur' = id cur /\ label cur' = label cur
                 /\ x cur' = x cur /\ y cur' = y cur
                 /\ finiteOpt (vx cur') /\ finiteOpt (vy cur')
                 /\ coordR (vx cur')
                    = coordR (vx cur) + (if decide (i = si) then fx else 0)
                      - (if decide (i = ti) then fx else 0)
                 /\ coordR (vy cur')
                    = coordR (vy cur) + (if decide (i = si) then fy else 0)
                      - (if decide (i = ti) then fy else 0)))
  /\ (findNode nodes (source conn) = None \/ findNode nodes (target conn) = None ->
      after = state)
  /\ (s <> 0 -> effectiveStrength s = s)
  /\ (s = 0 -> effectiveStrength s = 0.1).
Proof.
  intros Hsim Hk Halpha Hs Hrange Hfinite state after.
  assert (Heff : 0 <= effectiveStrength s).
  { unfold effectiveStrength. destruct (Req_dec_T s 0); lra. }
  pose proof (attractConnection_effect sim draggedNodeId earlier conn nodes) as Heffect.
  cbv zeta in Heffect. fold state after in Heffect.
  split; [| split; [| split]].
  - intros si src ti tgt Hsrc Htgt pull fx fy.
    rewrite Hsrc, Htgt in Heffect.
    pose proof (applyAttractionForces_bodies sim draggedNodeId earlier nodes) as Hsame.
    fold state in Hsame.
    apply list_find_Some in Hsrc as (Hsi & _). apply list_find_Some in Htgt as (Hti & _).
    destruct (Forall2_lookup_r _ _ _ _ _ Hsame Hsi) as (src0 & Hsi0 & (_ & _ & Hsx & Hsy)).
    destruct (Forall2_lookup_r _ _ _ _ _ Hsame Hti) as (tgt0 & Hti0 & (_ & _ & Htx & Hty)).
    pose proof (proj1 (Forall_lookup _ _) Hfinite si src0 Hsi0) as (Hs1 & Hs2 & Hs3 & Hs4).
    pose proof (proj1 (Forall_lookup _ _) Hfinite ti tgt0 Hti0) as (Ht1 & Ht2 & Ht3 & Ht4).
    assert (Hpsrc : placed src) by (split; [now rewrite <- Hsx | now rewrite <- Hsy]).
    assert (Hptgt : placed tgt) by (split; [now rewrite <- Htx | now rewrite <- Hty]).
    destruct (attractionVector_Fin sim conn src tgt s Hsim Hpsrc Hptgt Hs) as [_ Hvec].
    pose proof (floored_pos (gap src tgt) (gap_nonneg src tgt)) as Hd.
    assert (Hknn : 0 <= pull).
    { unfold pull. apply Rmult_le_pos; [apply Rmult_le_pos |]; assumption. }
    assert (Hf : attractionVector sim conn src tgt = (Fin fx, Fin fy)).
    { rewrite Hvec. f_equal; apply Fin_eq; unfold fx, fy, pull; field; lra. }
    rewrite Hf in Heffect.
    split; [| split].
    + unfold fx, fy. rewrite norm_scaled by exact Hknn.
      destruct (Req_dec_T (gap src tgt) 0) as [Hzero | Hpos].
      * destruct (gap_zero _ _ Hzero) as [-> ->]. rewrite norm_zero, Hzero.
        unfold pull. ring.
      * replace (norm (gapX src tgt) (gapY src tgt)) with (gap src tgt) by reflexivity.
        unfold pull. ring.
    + rewrite Heffect. now rewrite !updateUnlessDragged_length.
    + intros i cur Hi.
      set (state1 := updateUnlessDragged draggedNodeId si (pushForth (Fin fx, Fin fy)) state)
        in *.
      pose proof (updateUnlessDragged_lookup draggedNodeId si ti
                    (pushForth (Fin fx, Fin fy)) state src0 Hsi0) as Hmid.
      fold state1 in Hmid.
      pose proof (updateUnlessDragged_lookup draggedNodeId si i
                    (pushForth (Fin fx, Fin fy)) state src0 Hsi0) as Hfirst.
      fold state1 in Hfirst.
      assert (Hmid' : exists mid, state1 !! ti = Some mid).
      { rewrite Hmid. destruct (decide (ti = si)); eauto. }
      destruct Hmid' as (mid & Hmid').
      pose proof (updateUnlessDragged_lookup draggedNodeId ti i
                    (pushBack (Fin fx, Fin fy)) state1 mid Hmid') as Hsecond.
      rewrite <- Heffect in Hsecond. rewrite Hmid' in Hmid.
      destruct (decide (i = ti)) as [-> | Hnti].
      * (* the target *)
        assert (cur = tgt0) as -> by congruence.
        destruct (decide (ti = si)) as [-> | Hnsi].
        -- (* a connection from a node to itself *)
           assert (src0 = tgt0) as -> by congruence.
           injection Hmid as ->.
           destruct (isDragged draggedNodeId tgt0) eqn:Hdrag.
           ++ rewrite Hdrag in Hsecond. eexists. split; [exact Hsecond |].
              split; [reflexivity | discriminate].
           ++ rewrite (pushForth_velocity _ _ tgt0 Ht3 Ht4) in Hsecond.
              rewrite isDragged_setVelocity, Hdrag in Hsecond.
              rewrite pushBack_velocity in Hsecond by exact I.
              eexists. split; [exact Hsecond |]. split.
              ** intros [Hyes | [Hno _]]; [discriminate | contradiction].
              ** intros _ _. cbn [setVelocity id label x y vx vy finiteOpt finite coordR].
                 repeat split; lra.
        -- rewrite Hti0 in Hmid. injection Hmid as ->.
           destruct (isDragged draggedNodeId tgt0) eqn:Hdrag.
           ++ eexists. split; [exact Hsecond |]. split; [reflexivity | discriminate].
           ++ rewrite (pushBack_velocity _ _ tgt0 Ht3 Ht4) in Hsecond.
              eexists. split; [exact Hsecond |]. split.
              ** intros [Hyes | [_ Hno]]; [discriminate | contradiction].
              ** intros _ _. cbn [setVelocity id label x y vx vy finiteOpt finite coordR].
                 repeat split; lra.
      * rewrite Hfirst in Hsecond.
        destruct (decide (i = si)) as [-> | Hnsi].
        -- (* the source *)
           assert (cur = src0) as -> by congruence.
           destruct (isDragged draggedNodeId src0) eqn:Hdrag.
           ++ eexists. split; [exact Hsecond |]. split; [reflexivity | discriminate].
           ++ rewrite (pushForth_velocity _ _ src0 Hs3 Hs4) in Hsecond.
              eexists. split; [exact Hsecond |]. split.
              ** intros [Hyes | [Hno _]]; [discriminate | contradiction].
              ** intros _ _. cbn [setVelocity id label x y vx vy finiteOpt finite coordR].
                 repeat split; lra.
        -- (* any other node *)
           rewrite Hi in Hsecond. eexists. split; [exact Hsecond |]. split.
           ++ reflexivity.
           ++ intros _ [Hyes | Hyes]; contradiction.
  - intros Hnone. rewrite Heffect.
    destruct Hnone as [-> | Hnone]; [reflexivity |].
    rewrite Hnone. now destruct (findNode nodes (source conn)) as [[? ?] |].
  - intros Hne. unfold effectiveStrength. now destruct (Req_dec_T s 0).
  - intros ->. unfold effectiveStrength. destruct (Req_dec_T 0 0); [reflexivity | lra].
Qed.

(** Two nodes 5 apart under a fresh engine, joined by a connection of
    strength 0.8: the pull per unit of offset is [0.01 * 0.8 * 0.3 = 0.0024],
    the source gets [(0.0072, 0.0096)] and the target the opposite. *)
Lemma spring_force_magnitude_witness :
  let a := mkNode "a" "A" (Some (Fin 0)) (Some (Fin 0)) None None in
  let b := mkNode "b" "B" (Some (Fin 3)) (Some (Fin 4)) None None in
  let link := mkConnection "a" "b" (Fin 0.8) "related" false in
  exists a' b',
    applyAttractionForces newGraphSimulation [a; b] [link] None !! 0%nat = Some a'
    /\ coordR (vx a') = 0.0072 /\ coordR (vy a') = 0.0096
    /\ applyAttractionForces newGraphSimulation [a; b] [link] None !! 1%nat = Some b'
    /\ coordR (vx b') = -0.0072 /\ coordR (vy b') = -0.0096.
Proof.
  intros a b link.
  assert (Hsim : finiteSim (newGraphSimulation (num := xnum))) by (repeat split).
  assert (Hk : 0 <= valueR (attraction (newGraphSimulation (num := xnum)))) by (simpl; lra).
  assert (Ha : 0 <= valueR (alpha (newGraphSimulation (num := xnum)))) by (simpl; lra).
  assert (Hrange : 0 <= 0.8 <= 1) by lra.
  assert (Hall : Forall finiteNode (applyAttractionForces newGraphSimulation [a; b] [] None)).
  { repeat (apply List.Forall_cons; [repeat split |]). apply List.Forall_nil. }
  assert (Heff : effectiveStrength 0.8 = 0.8).
  { unfold effectiveStrength. destruct (Req_dec_T 0.8 0); lra. }
  destruct (proj1 (spring_force_magnitude newGraphSimulation [a; b] None [] link 0.8
                     Hsim Hk Ha eq_refl Hrange Hall)
              0%nat a 1%nat b eq_refl eq_refl)
    as (_ & _ & Hstep).
  destruct (Hstep 0%nat a eq_refl) as (a' & Ha' & _ & Hmoved).
  destruct (Hmoved eq_refl (or_introl eq_refl)) as (_ & _ & _ & _ & _ & _ & Hax & Hay).
  destruct (Hstep 1%nat b eq_refl) as (b' & Hb' & _ & Hmoved').
  destruct (Hmoved' eq_refl (or_intror eq_refl)) as (_ & _ & _ & _ & _ & _ & Hbx & Hby).
  rewrite Heff in Hax, Hay, Hbx, Hby.
  unfold gapX, gapY in Hax, Hay, Hbx, Hby.
  cbn [coordR vx vy x y a b valueR attraction alpha newGraphSimulation] in Hax, Hay, Hbx, Hby.
  repeat match type of Hax with context [decide ?P] => destruct (decide P) end;
    repeat match type of Hbx with context [decide ?P] => destruct (decide P) end;
    try lia; try congruence.
  exists a', b'. simpl in Hax, Hay, Hbx, Hby. simpl.
  repeat split; try assumption; lra.
Defined.

End Attraction.

(** C3 as the specification words it does not hold at strength 0, evaluated
    in binary64 with the parameters of a fresh engine and two nodes 10
    apart: the connection of strength 0 moves both velocities, exactly as a
    connection of strength 0.1 does. *)
Lemma zero_strength_counterexample :
  let a : Node float := mkNode "a" "A" (Some 0%float) (Some 0%float) None None in
  let b : Node float := mkNode "b" "B" (Some 10%float) (Some 0%float) None None in
  let link (s : float) := mkConnection "a" "b" s "" false in
  nlt zero (fst (attractionVector newGraphSimulation (link 0%float) a b)) = true
  /\ applyAttractionForces newGraphSimulation [a; b] [link 0%float] None
     = applyAttractionForces newGraphSimulation [a; b] [link (lit 1 10)] None
  /\ applyAttractionForces newGraphSimulation [a; b] [link 0%float] None
     <> [a; b].
Proof. vm_compute. repeat split. discriminate. Qed.

(** ** Finite values *)

Section Finiteness.

Local Open Scope R_scope.

Implicit Types (sim : GraphSimulation xnum) (node : Node xnum)
  (nodes state : list (Node xnum)) (d : option string).

Lemma finiteNode_placed node : finiteNode node -> placed node.
Proof. intros (Hx & Hy & _). now split. Qed.

Lemma pushBack_finite (fx fy : R) node :
  finiteNode node -> finiteNode (pushBack (Fin fx, Fin fy) node).
Proof.
  intros (Hx & Hy & Hvx & Hvy). unfold pushBack, setVelocity, finiteNode.
  cbn [x y vx vy fst snd].
  rewrite (orDefault_zero _ Hvx), (orDefault_zero _ Hvy). now repeat split.
Qed.

Lemma pushForth_finite (fx fy : R) node :
  finiteNode node -> finiteNode (pushForth (Fin fx, Fin fy) node).
Proof.
  intros (Hx & Hy & Hvx & Hvy). unfold pushForth, setVelocity, finiteNode.
  cbn [x y vx vy fst snd].
  rewrite (orDefault_zero _ Hvx), (orDefault_zero _ Hvy). now repeat split.
Qed.

Lemma updateUnlessDragged_Forall (P : Node xnum -> Prop) d (i : nat)
    (f : Node xnum -> Node xnum) state :
  (forall n, P n -> P (f n)) ->
  Forall P state -> Forall P (updateUnlessDragged d i f state).
Proof.
  intros Hf Hall. unfold updateUnlessDragged.
  destruct (state !! i) as [n |] eqn:Hi; [| exact Hall].
  destruct (isDragged d n); [exact Hall |].
  apply Forall_insert; [exact Hall |].
  apply Hf. exact (proj1 (Forall_lookup _ _) Hall i n Hi).
Qed.

Lemma centerNode_finite sim d node :
  finiteSim sim -> finiteNode node -> finiteNode (centerNode sim d node).
Proof.
  intros (Ha & _) Hnode. unfold centerNode.
  destruct (isDragged d node); [exact Hnode |].
  destruct Hnode as (Hx & Hy & Hvx & Hvy).
  unfold setVelocity, finiteNode, centerForce. cbn [x y vx vy].
  rewrite (orDefault_zero _ Hx), (orDefault_zero _ Hy),
    (orDefault_zero _ Hvx), (orDefault_zero _ Hvy), (finite_value _ Ha).
  now repeat split.
Qed.

Lemma applyCenteringForce_finite sim d nodes :
  finiteSim sim -> Forall finiteNode nodes ->
  Forall finiteNode (applyCenteringForce sim nodes d).
Proof.
  intros Hsim Hall. unfold applyCenteringForce.
  destruct (nle centerForce zero); [exact Hall |].
  apply Forall_fmap. eapply Forall_impl; [exact Hall |].
  intros node Hnode. now apply centerNode_finite.
Qed.

Lemma repelPair_finite sim d state (i j : nat) :
  finiteSim sim -> Forall finiteNode state ->
  Forall finiteNode (repelPair sim d state i j).
Proof.
  intros Hsim Hall. unfold repelPair.
  destruct (state !! i) as [node1 |] eqn:Hi; [| exact Hall].
  destruct (state !! j) as [node2 |] eqn:Hj; [| exact Hall].
  pose proof (proj1 (Forall_lookup _ _) Hall i node1 Hi) as H1.
  pose proof (proj1 (Forall_lookup _ _) Hall j node2 Hj) as H2.
  destruct (repulsionVector_Fin sim node1 node2 Hsim
              (finiteNode_placed _ H1) (finiteNode_placed _ H2)) as [_ ->].
  apply updateUnlessDragged_Forall; [intros n; apply pushForth_finite |].
  apply updateUnlessDragged_Forall; [intros n; apply pushBack_finite | exact Hall].
Qed.

Lemma applyRepulsionForces_finite sim d nodes :
  finiteSim sim -> Forall finiteNode nodes ->
  Forall finiteNode (applyRepulsionForces sim nodes d).
Proof.
  intros Hsim Hall. unfold applyRepulsionForces.
  apply (fold_left_preserves (Forall finiteNode)); [| exact Hall].
  intros state i Hstate. unfold repelFrom.
  apply (fold_left_preserves (Forall finiteNode)); [| exact Hstate].
  intros state' j Hstate'. now apply repelPair_finite.
Qed.

Lemma attractConnection_finite sim d state (conn : Connection xnum) :
  finiteSim sim -> finite (strength conn) -> Forall finiteNode state ->
  Forall finiteNode (attractConnection sim d state conn).
Proof.
  intros Hsim Hs Hall. unfold attractConnection.
  destruct (findNode state (source conn)) as [[si src] |] eqn:Hsrc; [| exact Hall].
  destruct (findNode state (target conn)) as [[ti tgt] |] eqn:Htgt; [| exact Hall].
  apply list_find_Some in Hsrc as (Hsi & _). apply list_find_Some in Htgt as (Hti & _).
  pose proof (proj1 (Forall_lookup _ _) Hall si src Hsi) as H1.
  pose proof (proj1 (Forall_lookup _ _) Hall ti tgt Hti) as H2.
  destruct (attractionVector_Fin sim conn src tgt _ Hsim
              (finiteNode_placed _ H1) (finiteNode_placed _ H2)
              (finite_value _ Hs)) as [_ ->].
  apply updateUnlessDragged_Forall; [intros n; apply pushBack_finite |].
  apply updateUnlessDragged_Forall; [intros n; apply pushForth_finite | exact Hall].
Qed.

Lemma applyAttractionForces_finite sim d nodes (connections : list (Connection xnum)) :
  finiteSim sim -> Forall (fun conn => finite (strength conn)) connections ->
  Forall finiteNode nodes ->
  Forall finiteNode (applyAttractionForces sim nodes connections d).
Proof.
  intros Hsim Hconns. unfold applyAttractionForces. revert nodes.
  induction Hconns as [| conn connections Hs Hconns IH]; intros nodes Hall; simpl.
  - exact Hall.
  - apply IH. now apply attractConnection_finite.
Qed.

Lemma snap_finite (v : R) : finite (snap (Fin v)).
Proof.
  unfold snap. destruct (nlt _ _); [| exact I].
  unfold zero. now rewrite lit_Fin.
Qed.

Lemma moveNode_finite sim d node :
  finiteSim sim -> finiteNode node -> finiteNode (moveNode sim d node).
Proof.
  intros (_ & _ & _ & Hdamp) Hnode. unfold moveNode.
  destruct (isDragged d node); [exact Hnode |].
  destruct Hnode as (Hx & Hy & Hvx & Hvy).
  unfold finiteNode. cbn [x y vx vy].
  rewrite (orDefault_zero _ Hx), (orDefault_zero _ Hy),
    (orDefault_zero _ Hvx), (orDefault_zero _ Hvy), (finite_value _ Hdamp).
  rewrite !mul_Fin, !add_Fin. cbn [finiteOpt].
  repeat split; try exact I; apply snap_finite.
Qed.

Lemma updatePositions_finite sim d nodes :
  finiteSim sim -> Forall finiteNode nodes ->
  Forall finiteNode (updatePositions sim nodes d).
Proof.
  intros Hsim Hall. unfold updatePositions.
  apply Forall_fmap. eapply Forall_impl; [exact Hall |].
  intros node Hnode. now apply moveNode_finite.
Qed.

(** In exact arithmetic, where nothing overflows, a tick keeps finite what
    is finite, whatever the graph: no step divides by zero. *)
Lemma simulate_finite sim d nodes (connections : list (Connection xnum)) :
  finiteSim sim -> Forall (fun conn => finite (strength conn)) connections ->
  Forall finiteNode nodes ->
  Forall finiteNode (snd (simulate sim nodes connections d)).
Proof.
  intros Hsim Hconns Hall. unfold simulate. cbn [snd].
  apply updatePositions_finite; [exact Hsim |].
  apply applyAttractionForces_finite; [exact Hsim | exact Hconns |].
  apply applyRepulsionForces_finite; [exact Hsim |].
  now apply applyCenteringForce_finite.
Qed.

End Finiteness.

(** The scenario of the specification in binary64: two nodes at (0, 0), no
    connection, one tick of a fresh engine.  Every field comes out as 0. *)
Example coincident_nodes_binary64 :
  let a : Node float := mkNode "a" "A" (Some 0%float) (Some 0%float) None None in
  let b : Node float := mkNode "b" "B" (Some 0%float) (Some 0%float) None None in
  let rest (n : Node float) :=
    mkNode (id n) (label n) (Some 0%float) (Some 0%float) (Some 0%float) (Some 0%float) in
  snd (simulate newGraphSimulation [a; b] [] None) = [rest a; rest b].
Proof. vm_compute. reflexivity. Qed.

(** * The rest of the engine and its surroundings *)

(** ** Placing new nodes *)

Section Placing.

Context {num : Type} `{JSNum num}.

Implicit Types (nodes placed : list (Node num)) (random : nat -> num).

Lemma placeNode_step random (w h : num) (k : nat) placed (node : Node num) :
  placeNode random w h (k, placed) node
  = (k + (if isPlaced node then 0 else 2), placed ++ [placedNode random w h k node]).
Proof.
  unfold placeNode, placedNode, isPlaced.
  destruct (x node), (y node); f_equal; lia.
Qed.

Lemma unplacedCount_cons (node : Node num) nodes :
  unplacedCount (node :: nodes)
  = (if isPlaced node then 0 else 1) + unplacedCount nodes.
Proof. unfold unplacedCount. simpl. now destruct (isPlaced node). Qed.

Lemma placeNodes_fold random (w h : num) nodes (k : nat) placed :
  exists fresh,
    fold_left (placeNode random w h) nodes (k, placed)
    = (k + 2 * unplacedCount nodes, placed ++ fresh)
    /\ length fresh = length nodes
    /\ forall i node,
         nodes !! i = Some node ->
         fresh !! i
         = Some (placedNode random w h (k + 2 * unplacedCount (take i nodes)) node).
Proof.
  revert k placed. induction nodes as [| first nodes IH]; intros k placed.
  - exists []. simpl. rewrite app_nil_r. split; [f_equal; unfold unplacedCount; simpl; lia |].
    split; [reflexivity |]. intros i node Hi. discriminate.
  - cbn [fold_left]. rewrite placeNode_step.
    destruct (IH (k + (if isPlaced first then 0 else 2))
                (placed ++ [placedNode random w h k first]))
      as (fresh & Hfold & Hlen & Hlookup).
    exists (placedNode random w h k first :: fresh). split; [| split].
    + rewrite Hfold, <- app_assoc, unplacedCount_cons. cbn [app].
      f_equal. destruct (isPlaced first); lia.
    + simpl. now rewrite Hlen.
    + intros [| i] node Hi.
      * injection Hi as <-. cbn [take].
        replace (k + 2 * unplacedCount []) with k
          by (unfold unplacedCount; simpl; lia).
        reflexivity.
      * change ((first :: nodes) !! S i) with (nodes !! i) in Hi.
        change ((placedNode random w h k first :: fresh) !! S i) with (fresh !! i).
        rewrite (Hlookup i node Hi).
        cbn [take]. rewrite unplacedCount_cons. do 2 f_equal.
        destruct (isPlaced first); lia.
Qed.

Lemma placedNode_isPlaced random (w h : num) (j : nat) (node : Node num) :
  isPlaced (placedNode random w h j node) = true.
Proof. unfold placedNode. destruct (isPlaced node) eqn:Hp; [exact Hp | reflexivity]. Qed.

Lemma placedNode_placed random (w h : num) (j : nat) (node : Node num) :
  isPlaced node = true -> placedNode random w h j node = node.
Proof. intros Hp. unfold placedNode. now rewrite Hp. Qed.

Lemma initializeNodePositions_lookup (sim : GraphSimulation num) random nodes
    (canvasWidth canvasHeight : option num) :
  length (snd (initializeNodePositions sim random nodes canvasWidth canvasHeight))
  = length nodes
  /\ forall i node,
       nodes !! i = Some node ->
       snd (initializeNodePositions sim random nodes canvasWidth canvasHeight) !! i
       = Some (placedNode random (default (lit 800 1) canvasWidth)
                 (default (lit 600 1) canvasHeight)
                 (2 * unplacedCount (take i nodes)) node).
Proof.
  unfold initializeNodePositions. cbn [snd].
  destruct (placeNodes_fold random (default (lit 800 1) canvasWidth)
              (default (lit 600 1) canvasHeight) nodes 0 [])
    as (fresh & -> & Hlen & Hlookup).
  cbn [snd app]. split; [exact Hlen |]. exact Hlookup.
Qed.

(** X1.  [initializeNodePositions] returns as many nodes as it is given, in
    the same order.  A node with both coordinates is returned as it is; a
    node lacking one keeps its id and label, gets the position
    [(random() * width - width / 2, random() * height - height / 2)] from two
    consecutive draws of its own, taken in array order, and a zero
    velocity.  Afterwards every node has both coordinates, so that a second
    call, with whatever size and draws, moves nothing. *)
Theorem initialize_places_each_node_once (sim : GraphSimulation num)
    (random : nat -> num) (nodes : list (Node num))
    (canvasWidth canvasHeight : option num) :
  let w := default (lit 800 1) canvasWidth in
  let h := default (lit 600 1) canvasHeight in
  let out := snd (initializeNodePositions sim random nodes canvasWidth canvasHeight) in
  length out = length nodes
  /\ (forall i node,
        nodes !! i = Some node ->
        out !! i
        = Some (if isPlaced node then node
                else {| id := id node; label := label node;
                        x := Some (nsub (nmul (random (2 * unplacedCount (take i nodes))) w)
                                     (ndiv w (lit 2 1)));
                        y := Some (nsub (nmul (random (S (2 * unplacedCount (take i nodes)))) h)
                                     (ndiv h (lit 2 1)));
                        vx := Some zero; vy := Some zero |}))
  /\ Forall (fun node => isPlaced node = true) out
  /\ (forall sim' random' canvasWidth' canvasHeight',
        snd (initializeNodePositions sim' random' out canvasWidth' canvasHeight') = out).
Proof.
  intros w h out.
  destruct (initializeNodePositions_lookup sim random nodes canvasWidth canvasHeight)
    as [Hlen Hlookup].
  fold out in Hlen, Hlookup. fold w h in Hlookup.
  assert (Hplaced : Forall (fun node => isPlaced node = true) out).
  { apply Forall_lookup. intros i node' Hi.
    destruct (lookup_lt_is_Some_2 nodes i) as [node Hnode].
    { rewrite <- Hlen. now apply lookup_lt_Some in Hi. }
    rewrite (Hlookup i node Hnode) in Hi. injection Hi as <-.
    apply placedNode_isPlaced. }
  split; [exact Hlen |]. split; [exact Hlookup |]. split; [exact Hplaced |].
  intros sim' random' cw' ch'.
  destruct (initializeNodePositions_lookup sim' random' out cw' ch') as [Hlen' Hlookup'].
  apply list_eq. intros i.
  destruct (out !! i) as [node |] eqn:Hi.
  - rewrite (Hlookup' i node Hi). f_equal. apply placedNode_placed.
    exact (proj1 (Forall_lookup _ _) Hplaced i node Hi).
  - apply lookup_ge_None. rewrite Hlen'. now apply lookup_ge_None.
Qed.

End Placing.

(** ** Missing references and the shape of the array *)

Section Shape.

Context {num : Type} `{JSNum num}.

Implicit Types (nodes state : list (Node num)) (d : option string)
  (sim : GraphSimulation num).

Lemma attractConnection_dangling sim d nodes (conn : Connection num) :
  dangling nodes conn -> attractConnection sim d nodes conn = nodes.
Proof.
  intros [Hnone | Hnone]; unfold attractConnection; rewrite Hnone; [reflexivity |].
  now destruct (findNode nodes (source conn)) as [[? ?] |].
Qed.

Lemma renderConnection_dangling (r : GraphRenderer) nodes (filterStrength : num)
    (conn : Connection num) :
  dangling nodes conn -> renderConnection r nodes filterStrength conn = [].
Proof.
  intros Hd. unfold renderConnection.
  destruct (nlt (strength conn) filterStrength); [reflexivity |].
  destruct Hd as [Hnone | Hnone]; rewrite Hnone; [reflexivity |].
  now destruct (findNode nodes (source conn)) as [[? ?] |].
Qed.

Lemma applyAttractionForces_dangling sim d nodes (connections : list (Connection num)) :
  Forall (dangling nodes) connections ->
  applyAttractionForces sim nodes connections d = nodes.
Proof.
  unfold applyAttractionForces.
  induction 1 as [| conn connections Hconn Hrest IH]; simpl; [reflexivity |].
  now rewrite attractConnection_dangling.
Qed.

Lemma forces_keep_bodies sim d nodes (connections : list (Connection num)) :
  sameBodies
    (applyAttractionForces sim
       (applyRepulsionForces sim (applyCenteringForce sim nodes d) d) connections d)
    nodes.
Proof.
  assert (Hcentre : sameBodies (applyCenteringForce sim nodes d) nodes).
  { unfold applyCenteringForce. destruct (nle centerForce zero).
    - apply sameBodies_refl.
    - unfold sameBodies. apply Forall2_fmap_l, Forall_Forall2_diag, Forall_forall.
      intros n _. unfold centerNode, compose. destruct (isDragged d n); now repeat split. }
  assert (Hrepel : sameBodies (applyRepulsionForces sim (applyCenteringForce sim nodes d) d)
                     nodes).
  { unfold applyRepulsionForces.
    apply (fold_left_preserves (fun s => sameBodies s nodes)); [| exact Hcentre].
    intros acc i Hacc. unfold repelFrom.
    apply (fold_left_preserves (fun s => sameBodies s nodes)); [| exact Hacc].
    intros acc' j Hacc'. unfold repelPair.
    destruct (acc' !! i); [| exact Hacc']. destruct (acc' !! j); [| exact Hacc'].
    apply updateUnlessDragged_bodies; [intros ?; apply pushForth_body |].
    apply updateUnlessDragged_bodies; [intros ?; apply pushBack_body | exact Hacc']. }
  unfold applyAttractionForces.
  apply (fold_left_preserves (fun s => sameBodies s nodes)); [| exact Hrepel].
  intros acc conn Hacc. now apply attractConnection_bodies.
Qed.

Lemma isLive_dangling nodes (conn : Connection num) :
  isLive nodes conn = false <-> dangling nodes conn.
Proof.
  unfold isLive, dangling. rewrite andb_false_iff, !findNode_resolves.
  destruct (findNode nodes (source conn)) as [[? ?] |],
           (findNode nodes (target conn)) as [[? ?] |];
    split; intros [Hs | Ht]; try discriminate; auto.
Qed.

Lemma dangling_bodies state nodes (conn : Connection num) :
  sameBodies state nodes -> dangling nodes conn -> dangling state conn.
Proof.
  intros Hsame Hconn. unfold dangling in *.
  pose proof (findNode_bodies (source conn) _ _ Hsame) as Hsrc.
  pose proof (findNode_bodies (target conn) _ _ Hsame) as Htgt.
  destruct Hconn as [Hnone | Hnone]; rewrite Hnone in *.
  - left. now destruct (findNode state (source conn)) as [[? ?] |].
  - right. now destruct (findNode state (target conn)) as [[? ?] |].
Qed.

(** The attraction step from any stage of the tick: only the connections
    whose two ends name a node do anything. *)
Lemma attract_live sim d nodes state (connections : list (Connection num)) :
  sameBodies state nodes ->
  applyAttractionForces sim state connections d
  = applyAttractionForces sim state (List.filter (isLive nodes) connections) d.
Proof.
  unfold applyAttractionForces. revert state.
  induction connections as [| conn connections IH]; intros state Hsame;
    cbn [List.filter fold_left]; [reflexivity |].
  destruct (isLive nodes conn) eqn:Hlive.
  - cbn [fold_left]. apply IH. now apply attractConnection_bodies.
  - apply isLive_dangling in Hlive.
    rewrite (attractConnection_dangling sim d state conn
               (dangling_bodies state nodes conn Hsame Hlive)).
    now apply IH.
Qed.

(** X2.  Connections with an end that names no node are without effect,
    whatever the other connections are: the attraction step, a whole tick
    and the renderer do with a list of connections exactly what they do
    with the connections of it whose two ends name a node, in the same
    order.  When no connection has both ends, the attraction step returns
    the array as it is and the renderer makes no call. *)
Theorem dangling_connections_ignored (sim : GraphSimulation num) (r : GraphRenderer)
    (nodes : list (Node num)) (connections : list (Connection num))
    (draggedNodeId : option string) (filterStrength : num) :
  let live :=
    List.filter
      (fun conn => resolves nodes (source conn) && resolves nodes (target conn))
      connections in
  applyAttractionForces sim nodes connections draggedNodeId
  = applyAttractionForces sim nodes live draggedNodeId
  /\ simulate sim nodes connections draggedNodeId
     = simulate sim nodes live draggedNodeId
  /\ renderConnections r connections nodes filterStrength
     = renderConnections r live nodes filterStrength
  /\ (Forall (dangling nodes) connections ->
      live = []
      /\ applyAttractionForces sim nodes connections draggedNodeId = nodes
      /\ renderConnections r connections nodes filterStrength = []).
Proof.
  intros live. change live with (List.filter (isLive nodes) connections). clear live.
  assert (Hrender : renderConnections r connections nodes filterStrength
                    = renderConnections r (List.filter (isLive nodes) connections) nodes
                        filterStrength).
  { unfold renderConnections.
    induction connections as [| conn connections IH]; cbn [List.filter flat_map];
      [reflexivity |].
    destruct (isLive nodes conn) eqn:Hlive.
    - cbn [flat_map]. now rewrite IH.
    - apply isLive_dangling in Hlive.
      now rewrite (renderConnection_dangling r nodes filterStrength conn Hlive). }
  split; [| split; [| split]].
  - apply attract_live, sameBodies_refl.
  - unfold simulate. f_equal. f_equal.
    apply attract_live.
    exact (forces_keep_bodies sim draggedNodeId nodes []).
  - exact Hrender.
  - intros Hall.
    assert (Hnone : List.filter (isLive nodes) connections = []).
    { clear Hrender.
      induction Hall as [| conn connections Hconn Hrest IH]; cbn [List.filter];
        [reflexivity |].
      apply isLive_dangling in Hconn. now rewrite Hconn. }
    split; [exact Hnone |]. split.
    + now apply applyAttractionForces_dangling.
    + rewrite Hrender, Hnone. reflexivity.
Qed.

Lemma sameBodies_identity state nodes :
  sameBodies state nodes -> Forall2 sameIdentity state nodes.
Proof.
  intros Hsame. eapply Forall2_impl; [exact Hsame |].
  intros a b (Hid & Hlabel & _). now split.
Qed.

Lemma simulate_identity sim d nodes (connections : list (Connection num)) :
  Forall2 sameIdentity (snd (simulate sim nodes connections d)) nodes.
Proof.
  unfold simulate, updatePositions. cbn [snd].
  apply Forall2_fmap_l.
  eapply Forall2_impl; [apply (forces_keep_bodies sim d nodes connections) |].
  intros a b (Hid & Hlabel & _). unfold compose, moveNode, sameIdentity.
  destruct (isDragged d a); now split.
Qed.

Lemma sameIdentity_chain (l1 l2 l3 : list (Node num)) :
  Forall2 sameIdentity l1 l2 -> Forall2 sameIdentity l2 l3 -> Forall2 sameIdentity l1 l3.
Proof.
  intros H12. revert l3. induction H12 as [| a b l1 l2 Hab Hrest IH]; intros l3 H23.
  - inversion H23. constructor.
  - inversion H23 as [| b' c l2' l3' Hbc Hrest']; subst. constructor.
    + destruct Hab, Hbc. split; congruence.
    + now apply IH.
Qed.

(** X3.  A tick never adds, removes, reorders or renames a node, and only
    its last step moves one: after the centering, repulsion and attraction
    steps every node has the id, the label and the position it had, and
    after any number of ticks the array has the same length and the same
    ids and labels, position by position. *)
Theorem tick_keeps_the_nodes (n : nat) (sim : GraphSimulation num)
    (nodes : list (Node num)) (connections : list (Connection num))
    (draggedNodeId : option string) :
  Forall2 sameBody
    (applyAttractionForces sim
       (applyRepulsionForces sim (applyCenteringForce sim nodes draggedNodeId)
          draggedNodeId)
       connections draggedNodeId)
    nodes
  /\ Forall2 sameIdentity (snd (simulateN n sim nodes connections draggedNodeId)) nodes
  /\ length (snd (simulateN n sim nodes connections draggedNodeId)) = length nodes.
Proof.
  split; [apply forces_keep_bodies |].
  assert (Hn : Forall2 sameIdentity
                 (snd (simulateN n sim nodes connections draggedNodeId)) nodes).
  { revert sim nodes. induction n as [| n IH]; intros sim nodes.
    - apply Forall_Forall2_diag, Forall_forall. intros a _. now split.
    - change (snd (simulateN (S n) sim nodes connections draggedNodeId))
        with (snd (simulateN n (fst (simulate sim nodes connections draggedNodeId))
                     (snd (simulate sim nodes connections draggedNodeId))
                     connections draggedNodeId)).
      eapply sameIdentity_chain; [apply IH | apply simulate_identity]. }
  split; [exact Hn |]. exact (Forall2_length _ _ _ Hn).
Qed.

End Shape.

(** A stale connection next to a live one: the tick is the tick of the live
    one alone. *)
Lemma dangling_connections_ignored_witness :
  let a := mkNode "a" "A" (Some (Fin 0)) (Some (Fin 0)) None None in
  let b := mkNode "b" "B" (Some (Fin 3)) (Some (Fin 4)) None None in
  let stale := mkConnection "a" "gone" (Fin 1) "" false in
  let link := mkConnection "a" "b" (Fin 0.5) "" false in
  applyAttractionForces newGraphSimulation [a; b] [stale; link; stale] None
  = applyAttractionForces newGraphSimulation [a; b] [link] None
  /\ simulate newGraphSimulation [a; b] [stale; link; stale] None
     = simulate newGraphSimulation [a; b] [link] None
  /\ renderConnections (mkRenderer false) [stale; link; stale] [a; b] (Fin 0)
     = renderConnections (mkRenderer false) [link] [a; b] (Fin 0).
Proof.
  intros a b stale link.
  destruct (dangling_connections_ignored newGraphSimulation (mkRenderer false)
              [a; b] [stale; link; stale] None (Fin 0)) as (Hstep & Htick & Hdraw & _).
  split; [exact Hstep |]. split; [exact Htick | exact Hdraw].
Defined.

(** ** A frame *)

Section Frames.

Context {num : Type} `{JSNum num} `{JSText}.

Implicit Types (nodes : list (Node num)) (c : Canvas num).

Lemma execOp_keeps_transform c (op : CanvasOp num) :
  isTransformOp op = false ->
  ctm (execOp c op) = ctm c /\ savedCtm (execOp c op) = savedCtm c.
Proof.
  destruct op; try discriminate; intros _; simpl; try (split; reflexivity).
  destruct (pen c); split; reflexivity.
Qed.

Lemma exec_keeps_transform c (ops : list (CanvasOp num)) :
  Forall (fun op => isTransformOp op = false) ops ->
  ctm (exec c ops) = ctm c /\ savedCtm (exec c ops) = savedCtm c.
Proof.
  intros Hops. revert c. unfold exec.
  induction Hops as [| op ops Hop Hrest IH]; intros c; simpl; [split; reflexivity |].
  destruct (IH (execOp c op)) as [-> ->]. now apply execOp_keeps_transform.
Qed.

Lemma Forall_flat_map {A B : Type} (P : B -> Prop) (f : A -> list B) (l : list A) :
  (forall a, Forall P (f a)) -> Forall P (flat_map f l).
Proof.
  intros Hf. induction l as [| a l IH]; simpl; [constructor |].
  apply Forall_app. split; [apply Hf | exact IH].
Qed.

Lemma renderConnections_no_transform (r : GraphRenderer)
    (connections : list (Connection num)) nodes (filterStrength : num) :
  Forall (fun op => isTransformOp op = false)
    (renderConnections r connections nodes filterStrength).
Proof.
  unfold renderConnections. apply Forall_flat_map. intros conn.
  unfold renderConnection.
  destruct (nlt (strength conn) filterStrength); [constructor |].
  destruct (findNode nodes (source conn)) as [[? ?] |]; [| constructor].
  destruct (findNode nodes (target conn)) as [[? ?] |]; [| constructor].
  destruct (isSurprising conn); repeat (apply List.Forall_cons; [reflexivity |]);
    apply List.Forall_nil.
Qed.

Lemma renderNodes_no_transform (r : GraphRenderer) nodes
    (hoveredNodeId selectedNodeId : option string) (searchQuery : string) (z : num) :
  Forall (fun op => isTransformOp op = false)
    (renderNodes r nodes hoveredNodeId selectedNodeId searchQuery z).
Proof.
  unfold renderNodes. apply Forall_flat_map. intros node. unfold renderNode.
  destruct (isNode hoveredNodeId node), (isNode selectedNodeId node),
    (isSearchMatch searchQuery node), (nlt (lit 15 10) z); cbn [orb app];
    repeat (apply List.Forall_cons; [reflexivity |]); apply List.Forall_nil.
Qed.

Lemma renderNode_painted (r : GraphRenderer) (hoveredNodeId selectedNodeId : option string)
    (searchQuery : string) (z : num) (node : Node num) c :
  painted (exec c (renderNode r hoveredNodeId selectedNodeId searchQuery z node))
  = painted c
    ++ nodePaint r hoveredNodeId selectedNodeId searchQuery z (lineDash c) (globalAlpha c)
         node
  /\ lineDash (exec c (renderNode r hoveredNodeId selectedNodeId searchQuery z node))
     = lineDash c
  /\ globalAlpha (exec c (renderNode r hoveredNodeId selectedNodeId searchQuery z node))
     = globalAlpha c.
Proof.
  unfold renderNode, nodePaint, fillCategory, nodeFill, categoryColor, position.
  destruct (isSearchMatch searchQuery node), (isNode selectedNodeId node),
    (isNode hoveredNodeId node), (nlt (lit 15 10) z);
    cbn [orb app exec fold_left execOp painted paint withPath withInk path fillStyle
         strokeStyle lineWidth lineDash globalAlpha px py];
    rewrite <- ?app_assoc; cbn [app]; repeat split; reflexivity.
Qed.

Lemma renderNodes_painted (r : GraphRenderer) (hoveredNodeId selectedNodeId : option string)
    (searchQuery : string) (z : num) nodes c :
  painted (exec c (renderNodes r nodes hoveredNodeId selectedNodeId searchQuery z))
  = painted c
    ++ flat_map (nodePaint r hoveredNodeId selectedNodeId searchQuery z
                   (lineDash c) (globalAlpha c)) nodes.
Proof.
  unfold renderNodes. revert c.
  induction nodes as [| node nodes IH]; intros c; cbn [flat_map].
  - cbn. now rewrite app_nil_r.
  - rewrite exec_app, IH.
    destruct (renderNode_painted r hoveredNodeId selectedNodeId searchQuery z node c)
      as (-> & -> & ->).
    now rewrite <- app_assoc.
Qed.

Lemma isNode_decide (nodeId : option string) (node : Node num) :
  isNode nodeId node = bool_decide (nodeId = Some (id node)).
Proof.
  destruct (isNode nodeId node) eqn:Hnode; symmetry.
  - apply bool_decide_eq_true, isNode_spec, Hnode.
  - apply bool_decide_eq_false. intros Heq. apply isNode_spec in Heq. congruence.
Qed.

(** X4.  From any state of the context, [renderNodes] paints for each node,
    in array order and at its position: a disc of radius 12 when the node is
    hovered and 10 otherwise, filled blue when the node is a search match,
    else violet when it is selected, else indigo; then the outline of the
    disc exactly when the node is hovered or selected; then its label, 15
    above the centre, exactly when the node is hovered, selected or a search
    match or the zoom exceeds 1.5; and nothing else.  A node is a search
    match when the query is not empty and its lower-cased form occurs in the
    lower-cased label.  Outline and label are black (white in the dark
    theme); the outline is 2 wide and, since [renderNodes] sets neither the
    line dash nor the opacity, it is stroked with the ones the context has
    on entry. *)
Theorem nodes_painted (r : GraphRenderer) (nodes : list (Node num))
    (hoveredNodeId selectedNodeId : option string) (searchQuery : string)
    (z : num) (c : Canvas num) :
  exists matched : Node num -> bool,
    (forall node,
        matched node = true
        <-> searchQuery <> EmptyString
            /\ exists pre post,
                 toLowerCase (label node)
                 = String.append pre (String.append (toLowerCase searchQuery) post))
    /\ painted (exec c (renderNodes r nodes hoveredNodeId selectedNodeId searchQuery z))
       = painted c
         ++ flat_map
              (fun node =>
                 let hovered := bool_decide (hoveredNodeId = Some (id node)) in
                 let selected := bool_decide (selectedNodeId = Some (id node)) in
                 let disc :=
                   [Circle (position node) (if hovered then lit 12 1 else lit 10 1)] in
                 let ink := if isDark r then "#fff" else "#000" in
                 [Filled disc
                    (if matched node then (if isDark r then "#3b82f6" else "#2563eb")
                     else if selected then (if isDark r then "#8b5cf6" else "#7c3aed")
                     else (if isDark r then "#6366f1" else "#4f46e5"))]
                 ++ (if hovered || selected
                     then [Stroked disc ink (lit 2 1) (lineDash c) (globalAlpha c)]
                     else [])
                 ++ (if hovered || selected || matched node || nlt (lit 15 10) z
                     then [Text (label node)
                             (mkPoint (px (position node))
                                (nsub (py (position node)) (lit 15 1)))
                             ink]
                     else []))
              nodes.
Proof.
  exists (isSearchMatch searchQuery).
  split; [intros node; apply isSearchMatch_spec |].
  rewrite renderNodes_painted. f_equal. apply flat_map_ext. intros node.
  unfold nodePaint, fillCategory, categoryColor, nodeRadius, themed. cbv zeta.
  rewrite !isNode_decide.
  now destruct (isSearchMatch searchQuery node),
    (bool_decide (selectedNodeId = Some (id node))),
    (bool_decide (hoveredNodeId = Some (id node))), (isDark r).
Qed.

(** X5.  The calls of one frame leave the transformation of the context
    and its stack of saved states as they found them; between [save] and
    [restore] the transformation is the one on entry followed by the camera
    (a shift by [centre + pan], then a scaling by the zoom); and the frame
    paints the strokes of the connections first and the nodes after them,
    so that discs cover the lines. *)
Theorem frame_is_balanced (r : GraphRenderer) (nodes : list (Node num))
    (shown : list (Connection num)) (filterStrength : num)
    (hoveredNodeId : option string) (selected : option (Node num))
    (searchQuery : string) (sz : Size num) (z : num) (p : Point num) (c : Canvas num) :
  let after := exec c (drawFrame r nodes shown filterStrength hoveredNodeId selected
                         searchQuery sz z p) in
  let lines := exec c (clear (width sz) (height sz)
                       ++ setupTransform (width sz) (height sz) z p
                       ++ renderConnections r shown nodes filterStrength) in
  ctm after = ctm c
  /\ savedCtm after = savedCtm c
  /\ ctm lines
     = {| scaleX := nmul (scaleX (ctm c)) z;
          scaleY := nmul (scaleY (ctm c)) z;
          shiftX := nadd (shiftX (ctm c))
                      (nmul (scaleX (ctm c)) (nadd (ndiv (width sz) (lit 2 1)) (px p)));
          shiftY := nadd (shiftY (ctm c))
                      (nmul (scaleY (ctm c)) (nadd (ndiv (height sz) (lit 2 1)) (py p))) |}
  /\ painted after
     = painted c
       ++ flat_map (connectionPaint r nodes filterStrength) shown
       ++ flat_map (nodePaint r hoveredNodeId (orNull (id <$> selected)) searchQuery z
                      (lineDash lines) (globalAlpha lines)) nodes.
Proof.
  intros after lines.
  set (camera := exec c (clear (width sz) (height sz)
                         ++ setupTransform (width sz) (height sz) z p)).
  assert (Hlines : lines = exec camera (renderConnections r shown nodes filterStrength)).
  { subst lines camera. now rewrite app_assoc, exec_app. }
  set (drawn := exec lines (renderNodes r nodes hoveredNodeId (orNull (id <$> selected))
                              searchQuery z)).
  assert (Hafter : after = exec drawn restoreTransform).
  { subst after drawn lines. unfold drawFrame. now rewrite !app_assoc, !exec_app. }
  destruct (exec_keeps_transform camera _
              (renderConnections_no_transform r shown nodes filterStrength))
    as [Hctm1 Hsaved1].
  rewrite <- Hlines in Hctm1, Hsaved1.
  destruct (exec_keeps_transform lines _
              (renderNodes_no_transform r nodes hoveredNodeId (orNull (id <$> selected))
                 searchQuery z))
    as [Hctm2 Hsaved2].
  fold drawn in Hctm2, Hsaved2.
  assert (Hsaved : savedCtm drawn = ctm c :: savedCtm c).
  { rewrite Hsaved2, Hsaved1. reflexivity. }
  split; [| split; [| split]].
  - rewrite Hafter. unfold restoreTransform, exec. cbn [fold_left execOp].
    now rewrite Hsaved.
  - rewrite Hafter. unfold restoreTransform, exec. cbn [fold_left execOp].
    now rewrite Hsaved.
  - rewrite Hctm1. reflexivity.
  - rewrite Hafter. unfold restoreTransform, exec at 1. cbn [fold_left execOp].
    rewrite Hsaved. cbn [withCtm painted]. subst drawn.
    rewrite renderNodes_painted, Hlines, renderConnections_painted.
    rewrite <- Hlines. now rewrite <- app_assoc.
Qed.

End Frames.

(** ** The graph store *)

Section Store.

Context {num : Type} `{JSNum num}.

Implicit Types (nodes : list (Node num)) (store : GraphStore num).

Lemma filter_twice {A : Type} (f : A -> bool) (l : list A) :
  List.filter f (List.filter f l) = List.filter f l.
Proof.
  induction l as [| a l IH]; simpl; [reflexivity |].
  destruct (f a) eqn:Hfa; simpl; [rewrite Hfa; f_equal |]; exact IH.
Qed.

Lemma resolves_after_delete (nodeId key : string) nodes :
  key <> nodeId ->
  resolves (List.filter (fun n => negb (String.eqb (id n) nodeId)) nodes) key
  = resolves nodes key.
Proof.
  intros Hkey. unfold resolves. induction nodes as [| n nodes IH]; simpl; [reflexivity |].
  destruct (String.eqb_spec (id n) nodeId) as [Hn | Hn]; simpl.
  - rewrite IH. destruct (String.eqb_spec (id n) key) as [Hk | Hk]; [congruence | reflexivity].
  - now rewrite IH.
Qed.

Lemma resolves_deleted (nodeId : string) nodes :
  resolves (List.filter (fun n => negb (String.eqb (id n) nodeId)) nodes) nodeId = false.
Proof.
  unfold resolves. induction nodes as [| n nodes IH]; simpl; [reflexivity |].
  destruct (String.eqb_spec (id n) nodeId) as [Hn | Hn]; simpl; [exact IH |].
  destruct (String.eqb_spec (id n) nodeId); [contradiction | exact IH].
Qed.

(** X6.  [deleteNode] removes every node carrying the id and every
    connection with that id at either end, and nothing else; the id then
    resolves to no node.  If every connection named two nodes before, every
    remaining one still does.  The selection is dropped exactly when the
    selected node carries the id.  Deleting the same id again changes
    nothing. *)
Theorem deleteNode_keeps_graph_intact (nodeId : string) (store : GraphStore num) :
  let after := deleteNode nodeId store in
  (forall n, In n (graphNodes (graph after))
             <-> In n (graphNodes (graph store)) /\ id n <> nodeId)
  /\ (forall c, In c (graphConnections (graph after))
                <-> In c (graphConnections (graph store))
                    /\ source c <> nodeId /\ target c <> nodeId)
  /\ resolves (graphNodes (graph after)) nodeId = false
  /\ (intact (graph store) -> intact (graph after))
  /\ selectedNode after
     = match selectedNode store with
       | Some n => if String.eqb (id n) nodeId then None else Some n
       | None => None
       end
  /\ deleteNode nodeId after = after.
Proof.
  intros after. subst after. unfold deleteNode. cbn [graph graphNodes graphConnections selectedNode].
  split; [| split; [| split; [| split; [| split]]]].
  - intros n. rewrite filter_In, negb_true_iff, String.eqb_neq. reflexivity.
  - intros c. rewrite filter_In, andb_true_iff, !negb_true_iff, !String.eqb_neq. reflexivity.
  - apply resolves_deleted.
  - unfold intact. cbn [graphNodes graphConnections]. intros Hintact.
    apply Forall_forall. intros c Hc.
    apply list_elem_of_In, filter_In in Hc as [Hc Hends].
    apply andb_true_iff in Hends as [Hsrc Htgt].
    apply negb_true_iff, String.eqb_neq in Hsrc, Htgt.
    rewrite Forall_forall in Hintact.
    destruct (Hintact c (proj2 (list_elem_of_In _ _) Hc)) as [Hs Ht].
    now rewrite !resolves_after_delete.
  - reflexivity.
  - rewrite !filter_twice. f_equal.
    destruct (selectedNode store) as [n |]; [| reflexivity].
    destruct (String.eqb (id n) nodeId) eqn:Hn; [reflexivity | now rewrite Hn].
Qed.

End Store.

(** ** Placing and cooling, in reals *)

Section Cooling.

Local Open Scope R_scope.

(** X7.  When [Math.random] returns numbers of [0, 1) and the surface has a
    positive finite size, a node that lacks a coordinate is placed inside
    the surface as the camera shows it at rest: [-W/2 <= x < W/2] and
    [-H/2 <= y < H/2], with a zero velocity. *)
Theorem new_nodes_land_on_surface (sim : GraphSimulation xnum) (random : nat -> xnum)
    (nodes : list (Node xnum)) (W Hh : R) (i : nat) (node : Node xnum) :
  unitDraws random ->
  0 < W -> 0 < Hh ->
  nodes !! i = Some node ->
  isPlaced node = false ->
  exists xr yr,
    snd (initializeNodePositions sim random nodes (Some (Fin W)) (Some (Fin Hh))) !! i
    = Some {| id := id node; label := label node;
              x := Some (Fin xr); y := Some (Fin yr);
              vx := Some zero; vy := Some zero |}
    /\ - W / 2 <= xr < W / 2
    /\ - Hh / 2 <= yr < Hh / 2.
Proof.
  intros Hdraws HW HH Hi Hplaced.
  destruct (initializeNodePositions_lookup sim random nodes (Some (Fin W)) (Some (Fin Hh)))
    as [_ Hlookup].
  rewrite (Hlookup i node Hi). unfold placedNode. rewrite Hplaced.
  change (default (lit 800 1) (Some (Fin W))) with (Fin W).
  change (default (lit 600 1) (Some (Fin Hh))) with (Fin Hh).
  destruct (Hdraws (2 * unplacedCount (take i nodes))%nat) as (rx & -> & Hrx).
  destruct (Hdraws (S (2 * unplacedCount (take i nodes)))) as (ry & -> & Hry).
  rewrite !lit_Fin, !mul_Fin, !div_Fin, !sub_Fin by lra.
  eexists. eexists. split; [reflexivity |]. split; split; nra.
Qed.

Lemma new_nodes_land_on_surface_witness :
  let fresh := mkNode "n" "N" None None None None in
  exists xr yr,
    snd (initializeNodePositions newGraphSimulation (fun _ => Fin 0.25) [fresh]
           (Some (Fin 800)) (Some (Fin 600))) !! 0%nat
    = Some {| id := "n"; label := "N"; x := Some (Fin xr); y := Some (Fin yr);
              vx := Some zero; vy := Some zero |}
    /\ - 800 / 2 <= xr < 800 / 2
    /\ - 600 / 2 <= yr < 600 / 2.
Proof.
  intros fresh.
  apply (new_nodes_land_on_surface newGraphSimulation (fun _ => Fin 0.25) [fresh]
           800 600 0 fresh).
  - intros j. exists 0.25. split; [reflexivity | lra].
  - lra.
  - lra.
  - reflexivity.
  - reflexivity.
Defined.

Lemma pow_unit_interval (q : R) (n : nat) : 0 <= q <= 1 -> 0 <= q ^ n <= 1.
Proof.
  intros Hq. induction n as [| n IH]; simpl; [lra |]. nra.
Qed.

Lemma pow_decreasing (q : R) (n m : nat) : 0 <= q <= 1 -> (n <= m)%nat -> q ^ m <= q ^ n.
Proof.
  intros Hq Hle. induction Hle as [| m Hle IH]; [lra |].
  pose proof (pow_unit_interval q m Hq). simpl. nra.
Qed.

Lemma cooling_far_enough : 0.3 * 0.995 ^ 358 <= 0.05.
Proof.
  replace 0.995 with (IZR 995 * / IZR 1000) by lra.
  rewrite Rpow_mult_distr, pow_inv, !pow_IZR.
  assert (Hpos : 0 < IZR (1000 ^ Z.of_nat 358)).
  { apply IZR_lt. apply Z.ltb_lt. vm_compute. reflexivity. }
  assert (Hle : IZR (6 * 995 ^ Z.of_nat 358) <= IZR (1000 ^ Z.of_nat 358)).
  { apply IZR_le. apply Z.leb_le. vm_compute. reflexivity. }
  rewrite mult_IZR in Hle.
  set (A := IZR (995 ^ Z.of_nat 358)) in *. set (B := IZR (1000 ^ Z.of_nat 358)) in *.
  assert (Hinv : 0 < / B) by now apply Rinv_0_lt_compat.
  assert (Hone : B * / B = 1) by (apply Rinv_r; lra).
  nra.
Qed.

Lemma simulate_alpha (sim : GraphSimulation xnum) nodes connections d (a : R) :
  alpha sim = Fin a ->
  alpha (fst (simulate sim nodes connections d)) = Fin (Rmax 0.05 (a * 0.995)).
Proof.
  intros Ha. unfold simulate, setAlpha, minAlpha, cooling. cbn [fst alpha].
  rewrite Ha, !lit_Fin, mul_Fin, max_Fin.
  apply Fin_eq. f_equal; lra.
Qed.

Lemma cooled_step (a : R) (n : nat) :
  0.05 <= a ->
  Rmax 0.05 (Rmax 0.05 (a * 0.995) * 0.995 ^ n) = Rmax 0.05 (a * 0.995 ^ S n).
Proof.
  intros Ha. pose proof (pow_unit_interval 0.995 n ltac:(lra)) as Hpow.
  simpl. set (p := 0.995 ^ n) in *.
  destruct (Rle_dec 0.05 (a * 0.995)) as [Hhigh | Hlow].
  - rewrite (Rmax_right 0.05 (a * 0.995)) by exact Hhigh. f_equal. ring.
  - rewrite (Rmax_left 0.05 (a * 0.995)) by lra.
    rewrite (Rmax_left 0.05 (0.05 * p)) by nra.
    rewrite (Rmax_left 0.05 (a * (0.995 * p))) by nra. reflexivity.
Qed.

(** X8.  Ticks alone cool the engine: from an energy [a] in [0.05, 0.3],
    after [n] ticks, whatever the graph, the energy is
    [max(0.05, a * 0.995^n)]; it never rises from one tick to the next; and
    from the 358th tick on it is exactly the floor 0.05. *)
Theorem alpha_cools_to_floor (n : nat) (sim : GraphSimulation xnum)
    (nodes : list (Node xnum)) (connections : list (Connection xnum))
    (draggedNodeId : option string) (a : R) :
  alpha sim = Fin a ->
  0.05 <= a <= 0.3 ->
  alpha (fst (simulateN n sim nodes connections draggedNodeId))
  = Fin (Rmax 0.05 (a * 0.995 ^ n))
  /\ Rmax 0.05 (a * 0.995 ^ S n) <= Rmax 0.05 (a * 0.995 ^ n)
  /\ Rmax 0.05 (a * 0.995 ^ n) <= a
  /\ ((358 <= n)%nat ->
      alpha (fst (simulateN n sim nodes connections draggedNodeId)) = Fin 0.05).
Proof.
  intros Ha Hrange.
  assert (Hclosed : alpha (fst (simulateN n sim nodes connections draggedNodeId))
                    = Fin (Rmax 0.05 (a * 0.995 ^ n))).
  { revert sim nodes a Ha Hrange. induction n as [| n IH]; intros sim nodes a Ha Hrange.
    - simpl. rewrite Ha. apply Fin_eq. unfold Rmax.
      destruct (Rle_dec 0.05 (a * 1)); lra.
    - change (simulateN (S n) sim nodes connections draggedNodeId)
        with (simulateN n (fst (simulate sim nodes connections draggedNodeId))
                (snd (simulate sim nodes connections draggedNodeId))
                connections draggedNodeId).
      rewrite (IH _ _ (Rmax 0.05 (a * 0.995))
                 (simulate_alpha sim nodes connections draggedNodeId a Ha)).
      + apply Fin_eq. apply cooled_step. lra.
      + unfold Rmax. destruct (Rle_dec 0.05 (a * 0.995)); lra. }
  pose proof (pow_unit_interval 0.995 n ltac:(lra)) as Hpow.
  split; [exact Hclosed |]. split; [| split].
  - simpl. set (p := 0.995 ^ n) in *.
    apply Rmax_lub; [apply Rmax_l |].
    apply Rle_trans with (a * p); [nra | apply Rmax_r].
  - apply Rmax_lub; nra.
  - intros Hn. rewrite Hclosed. apply Fin_eq.
    pose proof (pow_decreasing 0.995 358 n ltac:(lra) Hn) as Hdec.
    pose proof cooling_far_enough as Hfar.
    pose proof (pow_unit_interval 0.995 358 ltac:(lra)) as H358.
    unfold Rmax. destruct (Rle_dec 0.05 (a * 0.995 ^ n)); [nra | reflexivity].
Qed.

Lemma alpha_cools_to_floor_witness :
  alpha (fst (simulateN 400 (newGraphSimulation (num := xnum)) [] [] None)) = Fin 0.05.
Proof.
  assert (Ha : alpha (newGraphSimulation (num := xnum)) = Fin (3 / 10)) by reflexivity.
  assert (Hrange : 0.05 <= 3 / 10 <= 0.3) by lra.
  apply (proj2 (proj2 (proj2 (alpha_cools_to_floor 400 newGraphSimulation [] [] None
                                (3 / 10) Ha Hrange)))).
  lia.
Defined.

End Cooling.

(** ** Integration and momentum *)

Section Motion.

Local Open Scope R_scope.

Implicit Types (sim : GraphSimulation xnum) (node : Node xnum)
  (nodes state : list (Node xnum)) (d : option string).

Lemma snap_Fin (v : R) : snap (Fin v) = Fin (snappedR v).
Proof.
  unfold snap, snappedR, zero. rewrite !lit_Fin, orElse_Fin.
  cbn [nabs nlt xnum_JSNum X.abs X.lt].
  replace (1 / 10000) with 0.0001 by lra.
  destruct (Req_dec_T v 0) as [-> | Hv].
  - replace (0 / 1) with 0 by lra. rewrite Rabs_R0.
    destruct (Rltb_spec 0 0.0001); [| lra].
    destruct (Rlt_dec 0 0.0001); [apply Fin_eq; lra | lra].
  - destruct (Rltb_spec (Rabs v) 0.0001), (Rlt_dec (Rabs v) 0.0001);
      try contradiction; [apply Fin_eq; lra | reflexivity].
Qed.

Lemma snappedR_cases (v : R) :
  (snappedR v = 0 /\ Rabs v < 0.0001) \/ (snappedR v = v /\ 0.0001 <= Rabs v).
Proof.
  unfold snappedR. destruct (Rlt_dec (Rabs v) 0.0001); [left | right]; split;
    try reflexivity; lra.
Qed.

(** X9.  The integration step moves every node that is not dragged by its
    velocity and multiplies the velocity by the damping; a component of the
    damped velocity smaller than 0.0001 in absolute value becomes exactly 0,
    so afterwards each component is either 0 or at least 0.0001 in absolute
    value. *)
Theorem integration_moves_and_snaps (sim : GraphSimulation xnum)
    (nodes : list (Node xnum)) (draggedNodeId : option string)
    (i : nat) (node : Node xnum) :
  finite (damping sim) ->
  finiteNode node ->
  nodes !! i = Some node ->
  isDragged draggedNodeId node = false ->
  let k := valueR (damping sim) in
  updatePositions sim nodes draggedNodeId !! i
  = Some {| id := id node; label := label node;
            x := Some (Fin (coordR (x node) + coordR (vx node)));
            y := Some (Fin (coordR (y node) + coordR (vy node)));
            vx := Some (Fin (snappedR (coordR (vx node) * k)));
            vy := Some (Fin (snappedR (coordR (vy node) * k))) |}
  /\ (snappedR (coordR (vx node) * k) = 0
      \/ 0.0001 <= Rabs (snappedR (coordR (vx node) * k)))
  /\ (snappedR (coordR (vy node) * k) = 0
      \/ 0.0001 <= Rabs (snappedR (coordR (vy node) * k))).
Proof.
  intros Hk (Hx & Hy & Hvx & Hvy) Hi Hd k.
  split; [| split].
  - unfold updatePositions. rewrite list_lookup_fmap, Hi. cbn [fmap option_fmap option_map].
    unfold moveNode. rewrite Hd.
    rewrite (orDefault_zero _ Hx), (orDefault_zero _ Hy),
      (orDefault_zero _ Hvx), (orDefault_zero _ Hvy), (finite_value _ Hk).
    rewrite !mul_Fin, !add_Fin, !snap_Fin. reflexivity.
  - destruct (snappedR_cases (coordR (vx node) * k)) as [[-> _] | [-> Hbig]];
      [now left | now right].
  - destruct (snappedR_cases (coordR (vy node) * k)) as [[-> _] | [-> Hbig]];
      [now left | now right].
Qed.

Lemma integration_moves_and_snaps_witness :
  let node := mkNode "a" "A" (Some (Fin 1)) (Some (Fin 2)) (Some (Fin 0.0001)) None in
  updatePositions newGraphSimulation [node] None !! 0%nat
  = Some {| id := "a"; label := "A";
            x := Some (Fin (1 + 0.0001)); y := Some (Fin (2 + 0));
            vx := Some (Fin (snappedR (0.0001 * valueR (damping newGraphSimulation))));
            vy := Some (Fin (snappedR (0 * valueR (damping newGraphSimulation)))) |}.
Proof.
  intros node.
  refine (proj1 (integration_moves_and_snaps newGraphSimulation [node] None 0 node
                   _ _ eq_refl eq_refl)).
  - exact I.
  - repeat split.
Defined.

Lemma totalVx_insert state (i : nat) (old new : Node xnum) :
  state !! i = Some old ->
  totalVx (<[i := new]> state) = totalVx state - coordR (vx old) + coordR (vx new).
Proof.
  revert i. induction state as [| n state IH]; intros [| i] Hi; try discriminate.
  - injection Hi as ->. simpl. lra.
  - change ((n :: state) !! S i) with (state !! i) in Hi.
    change (<[S i := new]> (n :: state)) with (n :: <[i := new]> state).
    simpl. rewrite (IH i Hi). lra.
Qed.

Lemma totalVy_insert state (i : nat) (old new : Node xnum) :
  state !! i = Some old ->
  totalVy (<[i := new]> state) = totalVy state - coordR (vy old) + coordR (vy new).
Proof.
  revert i. induction state as [| n state IH]; intros [| i] Hi; try discriminate.
  - injection Hi as ->. simpl. lra.
  - change ((n :: state) !! S i) with (state !! i) in Hi.
    change (<[S i := new]> (n :: state)) with (n :: <[i := new]> state).
    simpl. rewrite (IH i Hi). lra.
Qed.

(** The effect of one guarded write on the sums, when nothing is dragged. *)
Lemma push_totals state (i : nat) (fx fy s : R) (f : Node xnum -> Node xnum) :
  Forall finiteNode state ->
  (forall n, finiteNode n ->
             f n = setVelocity n (Fin (coordR (vx n) + s * fx))
                     (Fin (coordR (vy n) + s * fy))) ->
  Forall finiteNode (updateUnlessDragged None i f state)
  /\ totalVx (updateUnlessDragged None i f state)
     = totalVx state + match state !! i with Some _ => s * fx | None => 0 end
  /\ totalVy (updateUnlessDragged None i f state)
     = totalVy state + match state !! i with Some _ => s * fy | None => 0 end.
Proof.
  intros Hall Hf. unfold updateUnlessDragged.
  destruct (state !! i) as [n |] eqn:Hi; cbn [isDragged].
  - pose proof (proj1 (Forall_lookup _ _) Hall i n Hi) as Hn.
    rewrite (Hf n Hn). split; [| split].
    + apply Forall_insert; [exact Hall |].
      destruct Hn as (Hx & Hy & _). unfold setVelocity, finiteNode. cbn [x y vx vy].
      now repeat split.
    + rewrite (totalVx_insert _ _ n _ Hi). cbn [setVelocity vx coordR]. lra.
    + rewrite (totalVy_insert _ _ n _ Hi). cbn [setVelocity vy coordR]. lra.
  - split; [exact Hall |]. split; lra.
Qed.

Lemma pushBack_value (fx fy : R) (n : Node xnum) :
  finiteNode n ->
  pushBack (Fin fx, Fin fy) n
  = setVelocity n (Fin (coordR (vx n) + -1 * fx)) (Fin (coordR (vy n) + -1 * fy)).
Proof.
  intros (_ & _ & Hvx & Hvy). unfold pushBack. cbn [fst snd].
  rewrite (orDefault_zero _ Hvx), (orDefault_zero _ Hvy), !sub_Fin.
  f_equal; apply Fin_eq; lra.
Qed.

Lemma pushForth_value (fx fy : R) (n : Node xnum) :
  finiteNode n ->
  pushForth (Fin fx, Fin fy) n
  = setVelocity n (Fin (coordR (vx n) + 1 * fx)) (Fin (coordR (vy n) + 1 * fy)).
Proof.
  intros (_ & _ & Hvx & Hvy). unfold pushForth. cbn [fst snd].
  rewrite (orDefault_zero _ Hvx), (orDefault_zero _ Hvy), !add_Fin.
  f_equal; apply Fin_eq; lra.
Qed.

(** Two opposite writes, at any two indices of the array, cancel in the
    sums. *)
Lemma opposite_pushes_cancel state (i j : nat) (fx fy : R) :
  Forall finiteNode state ->
  is_Some (state !! i) -> is_Some (state !! j) ->
  let state' :=
    updateUnlessDragged None j (pushForth (Fin fx, Fin fy))
      (updateUnlessDragged None i (pushBack (Fin fx, Fin fy)) state) in
  Forall finiteNode state'
  /\ totalVx state' = totalVx state /\ totalVy state' = totalVy state.
Proof.
  intros Hall [ni Hi] [nj Hj] state'. subst state'.
  destruct (push_totals state i fx fy (-1) (pushBack (Fin fx, Fin fy)) Hall
              (pushBack_value fx fy)) as (Hall1 & Hx1 & Hy1).
  rewrite Hi in Hx1, Hy1.
  set (state1 := updateUnlessDragged None i (pushBack (Fin fx, Fin fy)) state) in *.
  assert (Hj1 : is_Some (state1 !! j)).
  { apply lookup_lt_is_Some. subst state1. rewrite updateUnlessDragged_length.
    now apply lookup_lt_Some in Hj. }
  destruct Hj1 as [nj1 Hj1].
  destruct (push_totals state1 j fx fy 1 (pushForth (Fin fx, Fin fy)) Hall1
              (pushForth_value fx fy)) as (Hall2 & Hx2 & Hy2).
  rewrite Hj1 in Hx2, Hy2.
  split; [exact Hall2 |]. split; lra.
Qed.

Lemma opposite_pulls_cancel state (i j : nat) (fx fy : R) :
  Forall finiteNode state ->
  is_Some (state !! i) -> is_Some (state !! j) ->
  let state' :=
    updateUnlessDragged None j (pushBack (Fin fx, Fin fy))
      (updateUnlessDragged None i (pushForth (Fin fx, Fin fy)) state) in
  Forall finiteNode state'
  /\ totalVx state' = totalVx state /\ totalVy state' = totalVy state.
Proof.
  intros Hall [ni Hi] [nj Hj] state'. subst state'.
  destruct (push_totals state i fx fy 1 (pushForth (Fin fx, Fin fy)) Hall
              (pushForth_value fx fy)) as (Hall1 & Hx1 & Hy1).
  rewrite Hi in Hx1, Hy1.
  set (state1 := updateUnlessDragged None i (pushForth (Fin fx, Fin fy)) state) in *.
  assert (Hj1 : is_Some (state1 !! j)).
  { apply lookup_lt_is_Some. subst state1. rewrite updateUnlessDragged_length.
    now apply lookup_lt_Some in Hj. }
  destruct Hj1 as [nj1 Hj1].
  destruct (push_totals state1 j fx fy (-1) (pushBack (Fin fx, Fin fy)) Hall1
              (pushBack_value fx fy)) as (Hall2 & Hx2 & Hy2).
  rewrite Hj1 in Hx2, Hy2.
  split; [exact Hall2 |]. split; lra.
Qed.

Lemma repelPair_totals sim state (i j : nat) :
  finiteSim sim -> Forall finiteNode state ->
  Forall finiteNode (repelPair sim None state i j)
  /\ totalVx (repelPair sim None state i j) = totalVx state
  /\ totalVy (repelPair sim None state i j) = totalVy state.
Proof.
  intros Hsim Hall. unfold repelPair.
  destruct (state !! i) as [node1 |] eqn:Hi; [| now repeat split].
  destruct (state !! j) as [node2 |] eqn:Hj; [| now repeat split].
  pose proof (proj1 (Forall_lookup _ _) Hall i node1 Hi) as H1.
  pose proof (proj1 (Forall_lookup _ _) Hall j node2 Hj) as H2.
  destruct (repulsionVector_Fin sim node1 node2 Hsim
              (finiteNode_placed _ H1) (finiteNode_placed _ H2)) as [_ ->].
  apply opposite_pushes_cancel; [exact Hall | |]; eauto.
Qed.

Lemma attractConnection_totals sim state (conn : Connection xnum) :
  finiteSim sim -> finite (strength conn) -> Forall finiteNode state ->
  Forall finiteNode (attractConnection sim None state conn)
  /\ totalVx (attractConnection sim None state conn) = totalVx state
  /\ totalVy (attractConnection sim None state conn) = totalVy state.
Proof.
  intros Hsim Hs Hall. unfold attractConnection.
  destruct (findNode state (source conn)) as [[si src] |] eqn:Hsrc; [| now repeat split].
  destruct (findNode state (target conn)) as [[ti tgt] |] eqn:Htgt; [| now repeat split].
  apply list_find_Some in Hsrc as (Hsi & _). apply list_find_Some in Htgt as (Hti & _).
  pose proof (proj1 (Forall_lookup _ _) Hall si src Hsi) as H1.
  pose proof (proj1 (Forall_lookup _ _) Hall ti tgt Hti) as H2.
  destruct (attractionVector_Fin sim conn src tgt _ Hsim
              (finiteNode_placed _ H1) (finiteNode_placed _ H2)
              (finite_value _ Hs)) as [_ ->].
  apply opposite_pulls_cancel; [exact Hall | |]; eauto.
Qed.

Lemma applyRepulsionForces_totals sim nodes :
  finiteSim sim -> Forall finiteNode nodes ->
  totalVx (applyRepulsionForces sim nodes None) = totalVx nodes
  /\ totalVy (applyRepulsionForces sim nodes None) = totalVy nodes.
Proof.
  intros Hsim Hall.
  set (P := fun state : list (Node xnum) =>
              Forall finiteNode state
              /\ totalVx state = totalVx nodes /\ totalVy state = totalVy nodes).
  assert (Hrepel : P (applyRepulsionForces sim nodes None)); [| apply Hrepel].
  unfold applyRepulsionForces. apply (fold_left_preserves P); [| now repeat split].
  intros acc i Hacc. unfold repelFrom. apply (fold_left_preserves P); [| exact Hacc].
  intros acc' j (Hfin & Hx & Hy).
  destruct (repelPair_totals sim acc' i j Hsim Hfin) as (Hfin' & Hx' & Hy').
  split; [exact Hfin' |]. split; congruence.
Qed.

Lemma applyAttractionForces_totals sim nodes (connections : list (Connection xnum)) :
  finiteSim sim -> Forall finiteNode nodes ->
  Forall (fun conn => finite (strength conn)) connections ->
  totalVx (applyAttractionForces sim nodes connections None) = totalVx nodes
  /\ totalVy (applyAttractionForces sim nodes connections None) = totalVy nodes.
Proof.
  intros Hsim Hall Hconns. unfold applyAttractionForces.
  revert nodes Hall.
  induction Hconns as [| conn connections Hs Hrest IH]; intros nodes Hall; simpl.
  - now split.
  - destruct (attractConnection_totals sim nodes conn Hsim Hs Hall) as (Hfin' & Hx' & Hy').
    destruct (IH _ Hfin') as [Hx Hy]. split; congruence.
Qed.

(** X10.  When no node is dragged, the repulsion step and the attraction
    step leave the sum of the velocities of the array unchanged on each
    axis: every force is subtracted from one node and added to another.
    (The centering step and a dragged node do change the sum.) *)
Theorem forces_conserve_momentum (sim : GraphSimulation xnum)
    (nodes : list (Node xnum)) (connections : list (Connection xnum)) :
  finiteSim sim ->
  Forall finiteNode nodes ->
  Forall (fun conn => finite (strength conn)) connections ->
  totalVx (applyRepulsionForces sim nodes None) = totalVx nodes
  /\ totalVy (applyRepulsionForces sim nodes None) = totalVy nodes
  /\ totalVx (applyAttractionForces sim nodes connections None) = totalVx nodes
  /\ totalVy (applyAttractionForces sim nodes connections None) = totalVy nodes.
Proof.
  intros Hsim Hall Hconns.
  destruct (applyRepulsionForces_totals sim nodes Hsim Hall) as [Hrx Hry].
  destruct (applyAttractionForces_totals sim nodes connections Hsim Hall Hconns)
    as [Hax Hay].
  now repeat split.
Qed.

Lemma forces_conserve_momentum_witness :
  let a := mkNode "a" "A" (Some (Fin 0)) (Some (Fin 0)) (Some (Fin 1)) None in
  let b := mkNode "b" "B" (Some (Fin 3)) (Some (Fin 4)) None (Some (Fin 2)) in
  let link := mkConnection "a" "b" (Fin 0.5) "" false in
  totalVx (applyRepulsionForces newGraphSimulation [a; b] None) = totalVx [a; b]
  /\ totalVy (applyRepulsionForces newGraphSimulation [a; b] None) = totalVy [a; b]
  /\ totalVx (applyAttractionForces newGraphSimulation [a; b] [link] None) = totalVx [a; b]
  /\ totalVy (applyAttractionForces newGraphSimulation [a; b] [link] None) = totalVy [a; b].
Proof.
  intros a b link.
  apply (forces_conserve_momentum newGraphSimulation [a; b] [link]).
  - repeat split.
  - repeat (apply List.Forall_cons; [repeat split |]). apply List.Forall_nil.
  - apply List.Forall_cons; [exact I | apply List.Forall_nil].
Defined.

Lemma centerNode_value sim node (a : R) :
  alpha sim = Fin a -> finiteNode node ->
  centerNode sim None node
  = setVelocity node (Fin (coordR (vx node) - 0.0025 * a * coordR (x node)))
      (Fin (coordR (vy node) - 0.0025 * a * coordR (y node))).
Proof.
  intros Ha (Hx & Hy & Hvx & Hvy). unfold centerNode, centerForce. cbn [isDragged].
  rewrite (orDefault_zero _ Hx), (orDefault_zero _ Hy),
    (orDefault_zero _ Hvx), (orDefault_zero _ Hvy), Ha, lit_Fin.
  rewrite !mul_Fin, !sub_Fin. f_equal; apply Fin_eq; lra.
Qed.

Lemma totalVx_cons node nodes : totalVx (node :: nodes) = coordR (vx node) + totalVx nodes.
Proof. reflexivity. Qed.

Lemma totalVy_cons node nodes : totalVy (node :: nodes) = coordR (vy node) + totalVy nodes.
Proof. reflexivity. Qed.

Lemma totalX_cons node nodes : totalX (node :: nodes) = coordR (x node) + totalX nodes.
Proof. reflexivity. Qed.

Lemma totalY_cons node nodes : totalY (node :: nodes) = coordR (y node) + totalY nodes.
Proof. reflexivity. Qed.

Lemma applyCenteringForce_totals sim nodes (a : R) :
  alpha sim = Fin a -> Forall finiteNode nodes ->
  totalVx (applyCenteringForce sim nodes None) = totalVx nodes - 0.0025 * a * totalX nodes
  /\ totalVy (applyCenteringForce sim nodes None)
     = totalVy nodes - 0.0025 * a * totalY nodes.
Proof.
  intros Ha Hall. unfold applyCenteringForce.
  assert (Hpos : nle (centerForce (num := xnum)) zero = false).
  { unfold centerForce, zero. rewrite !lit_Fin. cbn [nle xnum_JSNum X.le].
    destruct (Rleb_spec (25 / 10000) (0 / 1)); [lra | reflexivity]. }
  rewrite Hpos.
  induction Hall as [| node nodes Hnode Hall [IHx IHy]].
  - split; simpl; lra.
  - rewrite map_cons, !totalVx_cons, !totalVy_cons, totalX_cons, totalY_cons, IHx, IHy.
    rewrite (centerNode_value sim node a Ha Hnode). cbn [setVelocity vx vy coordR].
    split; lra.
Qed.

Lemma sameBodies_totals state nodes :
  sameBodies state nodes -> totalX state = totalX nodes /\ totalY state = totalY nodes.
Proof.
  unfold sameBodies. induction 1 as [| n n' state nodes (_ & _ & Hx & Hy) _ [IHx IHy]].
  - now split.
  - rewrite !totalX_cons, !totalY_cons, Hx, Hy, IHx, IHy. now split.
Qed.

Lemma updatePositions_totals sim nodes :
  Forall finiteNode nodes ->
  totalX (updatePositions sim nodes None) = totalX nodes + totalVx nodes
  /\ totalY (updatePositions sim nodes None) = totalY nodes + totalVy nodes.
Proof.
  unfold updatePositions.
  induction 1 as [| node nodes (Hx & Hy & Hvx & Hvy) Hall [IHx IHy]].
  - split; simpl; lra.
  - rewrite map_cons, !totalX_cons, !totalY_cons, totalVx_cons, totalVy_cons, IHx, IHy.
    unfold moveNode. cbn [isDragged x y].
    rewrite (orDefault_zero _ Hx), (orDefault_zero _ Hy),
      (orDefault_zero _ Hvx), (orDefault_zero _ Hvy), !add_Fin.
    cbn [coordR]. split; lra.
Qed.

(** X11.  When no node is dragged, one tick moves the sum of the positions
    by the sum of the velocities and by the pull to the origin only:
    on each axis the new sum is [(1 - 0.0025 * alpha) * sum + velocities].
    The repulsion and the springs between the nodes do not move the
    centroid. *)
Theorem tick_moves_the_centroid (sim : GraphSimulation xnum)
    (nodes : list (Node xnum)) (connections : list (Connection xnum)) :
  finiteSim sim ->
  Forall finiteNode nodes ->
  Forall (fun conn => finite (strength conn)) connections ->
  let a := valueR (alpha sim) in
  let nodes' := snd (simulate sim nodes connections None) in
  totalX nodes' = (1 - 0.0025 * a) * totalX nodes + totalVx nodes
  /\ totalY nodes' = (1 - 0.0025 * a) * totalY nodes + totalVy nodes.
Proof.
  intros Hsim Hall Hconns a nodes'. subst nodes'. unfold simulate. cbn [snd].
  assert (Ha : alpha sim = Fin a) by (apply finite_value, Hsim).
  set (nodes1 := applyCenteringForce sim nodes None).
  set (nodes2 := applyRepulsionForces sim nodes1 None).
  set (nodes3 := applyAttractionForces sim nodes2 connections None).
  assert (H1 : Forall finiteNode nodes1) by now apply applyCenteringForce_finite.
  assert (H2 : Forall finiteNode nodes2) by now apply applyRepulsionForces_finite.
  assert (H3 : Forall finiteNode nodes3) by now apply applyAttractionForces_finite.
  destruct (applyCenteringForce_totals sim nodes a Ha Hall) as [Hc1 Hc2].
  destruct (applyRepulsionForces_totals sim nodes1 Hsim H1) as [Hr1 Hr2].
  destruct (applyAttractionForces_totals sim nodes2 connections Hsim H2 Hconns)
    as [Ha1 Ha2].
  destruct (sameBodies_totals nodes3 nodes (forces_keep_bodies sim None nodes connections))
    as [Hb1 Hb2].
  destruct (updatePositions_totals sim nodes3 H3) as [Hu1 Hu2].
  fold nodes1 in Hc1, Hc2. fold nodes2 in Hr1, Hr2. fold nodes3 in Ha1, Ha2.
  rewrite Hu1, Hu2, Hb1, Hb2, Ha1, Ha2, Hr1, Hr2, Hc1, Hc2. split; lra.
Qed.

Lemma tick_moves_the_centroid_witness :
  let a := mkNode "a" "A" (Some (Fin 0)) (Some (Fin 0)) (Some (Fin 1)) None in
  let b := mkNode "b" "B" (Some (Fin 3)) (Some (Fin 4)) None (Some (Fin 2)) in
  let link := mkConnection "a" "b" (Fin 0.5) "" false in
  let nodes' := snd (simulate newGraphSimulation [a; b] [link] None) in
  totalX nodes'
  = (1 - 0.0025 * valueR (alpha newGraphSimulation)) * totalX [a; b] + totalVx [a; b]
  /\ totalY nodes'
     = (1 - 0.0025 * valueR (alpha newGraphSimulation)) * totalY [a; b] + totalVy [a; b].
Proof.
  intros a b link.
  apply (tick_moves_the_centroid newGraphSimulation [a; b] [link]).
  - repeat split.
  - repeat (apply List.Forall_cons; [repeat split |]). apply List.Forall_nil.
  - apply List.Forall_cons; [exact I | apply List.Forall_nil].
Defined.

End Motion.

(** ** Two nodes at the same place *)

Section Coincident.

Local Open Scope R_scope.

Implicit Types (sim : GraphSimulation xnum) (node : Node xnum) (d : option string).

Lemma coincident_vector sim (a b : Node xnum) :
  finiteSim sim -> placed a -> placed b ->
  coordR (x a) = coordR (x b) -> coordR (y a) = coordR (y b) ->
  distOr1 (offsetX a b) (offsetY a b) = Fin 1
  /\ repulsionVector sim a b = (Fin 0, Fin 0).
Proof.
  intros Hsim Hpa Hpb Hx Hy.
  assert (Hgx : gapX a b = 0) by (unfold gapX; lra).
  assert (Hgy : gapY a b = 0) by (unfold gapY; lra).
  assert (Hgap : gap a b = 0).
  { unfold gap. rewrite Hgx, Hgy. replace (0 * 0 + 0 * 0) with 0 by ring. apply sqrt_0. }
  assert (Hfloor : floored (gap a b) = 1).
  { rewrite Hgap. unfold floored. destruct (Req_dec_T 0 0); [reflexivity | lra]. }
  split.
  - rewrite (offsetX_Fin _ _ Hpa Hpb), (offsetY_Fin _ _ Hpa Hpb), distOr1_Fin.
    fold (gap a b). now rewrite Hfloor.
  - destruct (repulsionVector_Fin sim a b Hsim Hpa Hpb) as [_ ->].
    rewrite Hgx, Hgy, Hfloor. f_equal; apply Fin_eq; unfold Rdiv; ring.
Qed.

(** The double loop on an array of two nodes is one run of its body. *)
Lemma repel_two sim d (a b : Node xnum) (f : xnum * xnum) :
  repulsionVector sim a b = f ->
  applyRepulsionForces sim [a; b] d
  = [if isDragged d a then a else pushBack f a;
     if isDragged d b then b else pushForth f b].
Proof.
  intros Hf. unfold applyRepulsionForces, repelFrom.
  cbn [length seq fold_left Nat.sub].
  assert (Hpair : repelPair sim d [a; b] 0 1
                  = [if isDragged d a then a else pushBack f a;
                     if isDragged d b then b else pushForth f b]).
  { unfold repelPair.
    change ([a; b] !! 0%nat) with (Some a). change ([a; b] !! 1%nat) with (Some b).
    cbv iota beta. rewrite Hf. unfold updateUnlessDragged.
    change ([a; b] !! 0%nat) with (Some a).
    cbv iota beta.
    destruct (isDragged d a) eqn:Hda; cbn [lookup list_lookup insert list_insert];
      cbv iota beta; destruct (isDragged d b) eqn:Hdb; reflexivity. }
  rewrite Hpair. reflexivity.
Qed.

Lemma centerForce_positive : nle (centerForce (num := xnum)) zero = false.
Proof.
  unfold centerForce, zero. rewrite !lit_Fin. cbn [nle xnum_JSNum X.le].
  destruct (Rleb_spec (25 / 10000) (0 / 1)); [lra | reflexivity].
Qed.

(** One tick on a node that receives no force from the others. *)
Lemma tick_without_force sim d node (p q : R) (push : xnum * xnum -> Node xnum -> Node xnum) :
  push = pushBack \/ push = pushForth ->
  finiteSim sim ->
  x node = Some (Fin p) -> y node = Some (Fin q) ->
  finiteOpt (vx node) -> finiteOpt (vy node) ->
  isDragged d node = false ->
  moveNode sim d (push (Fin 0, Fin 0) (centerNode sim d node))
  = {| id := id node; label := label node;
       x := Some (Fin (p + (coordR (vx node) - p * 0.0025 * valueR (alpha sim))));
       y := Some (Fin (q + (coordR (vy node) - q * 0.0025 * valueR (alpha sim))));
       vx := Some (Fin (snappedR ((coordR (vx node) - p * 0.0025 * valueR (alpha sim))
                                  * valueR (damping sim))));
       vy := Some (Fin (snappedR ((coordR (vy node) - q * 0.0025 * valueR (alpha sim))
                                  * valueR (damping sim)))) |}.
Proof.
  intros Hpush (Ha & _ & _ & Hk) Hx Hy Hvx Hvy Hd.
  unfold centerNode, centerForce. rewrite Hd, Hx, Hy.
  rewrite !(orDefault_zero (Some (Fin _)) I), (orDefault_zero _ Hvx), (orDefault_zero _ Hvy).
  cbn [coordR]. rewrite lit_Fin, (finite_value _ Ha), !mul_Fin, !sub_Fin.
  set (v := coordR (vx node) - p * (25 / 10000) * valueR (alpha sim)).
  set (w := coordR (vy node) - q * (25 / 10000) * valueR (alpha sim)).
  assert (Hpushed : exists v' w',
             push (Fin 0, Fin 0) (setVelocity node (Fin v) (Fin w))
             = setVelocity node (Fin v') (Fin w') /\ v' = v /\ w' = w).
  { destruct Hpush as [-> | ->].
    - rewrite pushBack_velocity by exact I. cbn [setVelocity vx vy coordR].
      eexists. eexists. split; [reflexivity |]. split; lra.
    - rewrite pushForth_velocity by exact I. cbn [setVelocity vx vy coordR].
      eexists. eexists. split; [reflexivity |]. split; lra. }
  destruct Hpushed as (v' & w' & -> & -> & ->).
  unfold moveNode. rewrite isDragged_setVelocity, Hd.
  cbn [setVelocity id label x y vx vy]. rewrite Hx, Hy.
  rewrite !(orDefault_zero (Some (Fin _)) I). cbn [coordR].
  rewrite (finite_value _ Hk), !add_Fin, !mul_Fin, !snap_Fin.
  subst v w. f_equal; f_equal; apply Fin_eq; try (f_equal; lra); lra.
Qed.

(** C9, as the code has it.  Two nodes at the same finite position and no
    connection: the distance used as divisor is 1 and the force between the
    two is zero on both axes, so nothing is divided by zero.  One tick
    leaves a dragged node as it is and gives every other one the position
    [p + (v - 0.0025 * alpha * p)] and the velocity
    [(v - 0.0025 * alpha * p) * damping], snapped to zero below 0.0001, on
    each axis, in exact arithmetic.  For an energy of at most 0.3 and
    coordinates and velocities of magnitude at most [M] the new coordinates
    have magnitude at most [2.00075 * M]; no bound on the result holds
    without one on the input. *)
Theorem coincident_nodes_tick (sim : GraphSimulation xnum) (a b : Node xnum)
    (draggedNodeId : option string) (p q : R) :
  finiteSim sim ->
  x a = Some (Fin p) -> y a = Some (Fin q) ->
  x b = Some (Fin p) -> y b = Some (Fin q) ->
  finiteOpt (vx a) -> finiteOpt (vy a) -> finiteOpt (vx b) -> finiteOpt (vy b) ->
  let pull := 0.0025 * valueR (alpha sim) in
  let tick node :=
    if isDragged draggedNodeId node then node
    else {| id := id node; label := label node;
            x := Some (Fin (p + (coordR (vx node) - p * pull)));
            y := Some (Fin (q + (coordR (vy node) - q * pull)));
            vx := Some (Fin (snappedR ((coordR (vx node) - p * pull)
                                       * valueR (damping sim))));
            vy := Some (Fin (snappedR ((coordR (vy node) - q * pull)
                                       * valueR (damping sim)))) |} in
  distOr1 (offsetX a b) (offsetY a b) = Fin 1
  /\ repulsionVector sim a b = (Fin 0, Fin 0)
  /\ snd (simulate sim [a; b] [] draggedNodeId) = [tick a; tick b]
  /\ (forall c v M : R,
        0 <= valueR (alpha sim) <= 0.3 -> Rabs c <= M -> Rabs v <= M ->
        Rabs (c + (v - c * pull)) <= 2.00075 * M).
Proof.
  intros Hsim Hxa Hya Hxb Hyb Hvxa Hvya Hvxb Hvyb pull tick.
  assert (Hpa : placed a) by (split; [now rewrite Hxa | now rewrite Hya]).
  assert (Hpb : placed b) by (split; [now rewrite Hxb | now rewrite Hyb]).
  assert (Hsamex : coordR (x a) = coordR (x b)) by now rewrite Hxa, Hxb.
  assert (Hsamey : coordR (y a) = coordR (y b)) by now rewrite Hya, Hyb.
  destruct (coincident_vector sim a b Hsim Hpa Hpb Hsamex Hsamey) as [Hdist Hvec].
  split; [exact Hdist |]. split; [exact Hvec |]. split.
  - unfold simulate. cbn [snd]. unfold applyCenteringForce, applyAttractionForces.
    rewrite centerForce_positive. cbn [map fold_left].
    assert (Hvec' : repulsionVector sim (centerNode sim draggedNodeId a)
                      (centerNode sim draggedNodeId b) = (Fin 0, Fin 0)).
    { rewrite <- Hvec. unfold centerNode.
      destruct (isDragged draggedNodeId a), (isDragged draggedNodeId b); reflexivity. }
    rewrite (repel_two sim draggedNodeId _ _ _ Hvec').
    unfold updatePositions. cbn [map]. subst tick. cbv beta.
    assert (Hcentre : forall node,
               isDragged draggedNodeId (centerNode sim draggedNodeId node)
               = isDragged draggedNodeId node).
    { intros node. unfold centerNode.
      destruct (isDragged draggedNodeId node) eqn:Hd; [exact Hd | exact Hd]. }
    rewrite !Hcentre.
    assert (Hstay : forall node,
               isDragged draggedNodeId node = true ->
               moveNode sim draggedNodeId (centerNode sim draggedNodeId node) = node).
    { intros node Hd. unfold centerNode, moveNode. now rewrite Hd, Hd. }
    f_equal; [| f_equal].
    + destruct (isDragged draggedNodeId a) eqn:Hd; [now apply Hstay |].
      rewrite (tick_without_force sim draggedNodeId a p q pushBack
                 (or_introl eq_refl) Hsim Hxa Hya Hvxa Hvya Hd).
      subst pull. f_equal; f_equal; apply Fin_eq; try (f_equal; lra); lra.
    + destruct (isDragged draggedNodeId b) eqn:Hd; [now apply Hstay |].
      rewrite (tick_without_force sim draggedNodeId b p q pushForth
                 (or_intror eq_refl) Hsim Hxb Hyb Hvxb Hvyb Hd).
      subst pull. f_equal; f_equal; apply Fin_eq; try (f_equal; lra); lra.
  - intros c v M Halpha Hc Hv. subst pull.
    assert (HM : 0 <= M) by (pose proof (Rabs_pos c); lra).
    unfold Rabs in *.
    destruct (Rcase_abs c), (Rcase_abs v),
      (Rcase_abs (c + (v - c * (0.0025 * valueR (alpha sim))))); nra.
Qed.

(** Two nodes at (2, -1), the first one moving: the second one only feels
    the pull to the origin. *)
Lemma coincident_nodes_tick_witness :
  let a := mkNode "a" "A" (Some (Fin 2)) (Some (Fin (-1))) (Some (Fin 3)) None in
  let b := mkNode "b" "B" (Some (Fin 2)) (Some (Fin (-1))) None None in
  distOr1 (offsetX a b) (offsetY a b) = Fin 1
  /\ repulsionVector newGraphSimulation a b = (Fin 0, Fin 0)
  /\ x <$> snd (simulate newGraphSimulation [a; b] [] None)
     = [Some (Fin (2 + (3 - 2 * (0.0025 * (3 / 10)))));
        Some (Fin (2 + (0 - 2 * (0.0025 * (3 / 10)))))].
Proof.
  intros a b.
  destruct (coincident_nodes_tick newGraphSimulation a b None 2 (-1)
              ltac:(repeat split) eq_refl eq_refl eq_refl eq_refl I I I I)
    as (Hdist & Hvec & Htick & _).
  split; [exact Hdist |]. split; [exact Hvec |].
  rewrite Htick. reflexivity.
Defined.

End Coincident.

(** C9 as the specification words it does not hold without a bound on the
    magnitudes, evaluated in binary64 with a fresh engine: two nodes at the
    same finite place [1.5 * 2^1023] with that velocity, no connection.
    The distance is zero and the force between them is zero, but the
    integrated position overflows: after one tick the [x] of both nodes is
    Infinity. *)
Lemma coincident_overflow_counterexample :
  let big := 0x1.8p+1023%float in
  let a : Node float := mkNode "a" "A" (Some big) (Some 0%float) (Some big) (Some 0%float) in
  let b : Node float := mkNode "b" "B" (Some big) (Some 0%float) (Some big) (Some 0%float) in
  finiteFloat big = true
  /\ euclid (offsetX a b) (offsetY a b) = 0%float
  /\ repulsionVector newGraphSimulation a b = (0%float, 0%float)
  /\ x <$> snd (simulate newGraphSimulation [a; b] [] None)
     = [Some infinity; Some infinity]
  /\ finiteFloat infinity = false.
Proof. vm_compute. repeat split. Qed.



(** ** The pointer and the camera *)

Section Pointer.

Local Open Scope R_scope.

Implicit Types (st : CanvasState xnum) (e : MouseEvent xnum)
  (nodes : list (Node xnum)) (container : option (Rect xnum)).

Lemma handleMouseDown_camera container st e nodes :
  zoom (fst (handleMouseDown container st e nodes)) = zoom st
  /\ pan (fst (handleMouseDown container st e nodes)) = pan st
  /\ canvasSize (fst (handleMouseDown container st e nodes)) = canvasSize st.
Proof.
  unfold handleMouseDown.
  destruct (getNodeAtPosition _ _ _ _ _); [destruct container |]; now cbn.
Qed.

Lemma handleMouseMove_camera container st e nodes :
  zoom (fst (handleMouseMove container st e nodes)) = zoom st
  /\ canvasSize (fst (handleMouseMove container st e nodes)) = canvasSize st
  /\ (pan (fst (handleMouseMove container st e nodes)) = pan st
      \/ (orNull (draggedNode st) = None /\ isDraggingCanvas st = true)).
Proof.
  unfold handleMouseMove.
  destruct (orNull (draggedNode st)) as [dragged |].
  - destruct container as [rect |]; [destruct (popupPosition st) |]; cbn; tauto.
  - destruct (isDraggingCanvas st); cbn; tauto.
Qed.

Lemma canvasStep_within st (ev : CanvasEvent xnum) :
  within 0.5 3 (zoom st) -> within 0.5 3 (zoom (canvasStep st ev)).
Proof.
  intros Hw. destruct ev as [c e n | c e n | | event | | | bounds]; cbn [canvasStep].
  - now rewrite (proj1 (handleMouseDown_camera c st e n)).
  - now rewrite (proj1 (handleMouseMove_camera c st e n)).
  - exact Hw.
  - now apply handleWheel_within.
  - unfold resetView. cbn [zoom]. rewrite lit_Fin. simpl. lra.
  - exact Hw.
  - destruct bounds; exact Hw.
Qed.

(** X12.  The zoom is changed only by a wheel event or a reset of the view;
    the pan only by a mouse move made while the canvas is dragged and no
    node is, or by a reset; the size of the surface only by a resize with
    the container mounted.  Hence, whatever the events that reach the hook
    after it is created, the zoom is a number of [0.5, 3]. *)
Theorem camera_changes_only_by_its_controls :
  (forall st (ev : CanvasEvent xnum),
      zoom (canvasStep st ev) = zoom st
      \/ (exists event, ev = Wheel event) \/ ev = ResetView)
  /\ (forall st (ev : CanvasEvent xnum),
      pan (canvasStep st ev) = pan st
      \/ (exists container e nodes,
             ev = MouseMove container e nodes
             /\ orNull (draggedNode st) = None /\ isDraggingCanvas st = true)
      \/ ev = ResetView)
  /\ (forall st (ev : CanvasEvent xnum),
      canvasSize (canvasStep st ev) = canvasSize st
      \/ exists sz, ev = Resize (Some sz))
  /\ (forall events : list (CanvasEvent xnum),
      within 0.5 3 (zoom (canvasRun initialCanvasState events))).
Proof.
  split; [| split; [| split]].
  - intros st [c e n | c e n | | event | | | bounds]; cbn [canvasStep].
    + left. apply handleMouseDown_camera.
    + left. apply handleMouseMove_camera.
    + now left.
    + right. left. now exists event.
    + now right; right.
    + now left.
    + left. now destruct bounds.
  - intros st [c e n | c e n | | event | | | bounds]; cbn [canvasStep].
    + left. apply handleMouseDown_camera.
    + destruct (handleMouseMove_camera c st e n) as (_ & _ & [Hpan | Hmode]).
      * now left.
      * right. left. now exists c, e, n.
    + now left.
    + left. unfold handleWheel. now destruct (metaKey event || ctrlKey event).
    + now right; right.
    + now left.
    + left. now destruct bounds.
  - intros st [c e n | c e n | | event | | | bounds]; cbn [canvasStep].
    + left. apply handleMouseDown_camera.
    + left. apply handleMouseMove_camera.
    + now left.
    + left. unfold handleWheel. now destruct (metaKey event || ctrlKey event).
    + now left.
    + now left.
    + destruct bounds as [sz |]; [right; now exists sz | now left].
  - intros events. unfold canvasRun.
    apply (fold_left_preserves (fun st => within 0.5 3 (zoom st))).
    + intros st ev. apply canvasStep_within.
    + unfold initialCanvasState. cbn [zoom]. rewrite lit_Fin. simpl. lra.
Qed.

(** The world point under a pointer position, in reals. *)
Lemma toWorld_value (rect : Rect xnum) st (sx sy : R) :
  cameraOk rect st ->
  toWorld rect st (Fin sx) (Fin sy)
  = mkPoint
      (Fin ((sx - valueR (left rect) - valueR (width (canvasSize st)) / 2
             - valueR (px (pan st))) / valueR (zoom st)))
      (Fin ((sy - valueR (top rect) - valueR (height (canvasSize st)) / 2
             - valueR (py (pan st))) / valueR (zoom st))).
Proof.
  intros (Hz & [Hpx Hpy] & Hw & Hh & Hl & Ht).
  destruct rect as [l t], st as [z [panx pany] dc dn lm pp [w h]].
  cbn [zoom pan canvasSize width height left top px py] in *.
  destruct (within_inv _ _ _ Hz) as (zr & -> & Hzlo & Hzhi).
  destruct (finite_inv _ Hpx) as (panxr & ->), (finite_inv _ Hpy) as (panyr & ->),
    (finite_inv _ Hw) as (wr & ->), (finite_inv _ Hh) as (hr & ->),
    (finite_inv _ Hl) as (lr & ->), (finite_inv _ Ht) as (tr & ->).
  cbn [valueR]. unfold toWorld.
  cbn [zoom pan canvasSize width height left top px py].
  rewrite lit_Fin, !(div_Fin _ (2 / 1)) by lra.
  rewrite !sub_Fin, !div_Fin by lra.
  f_equal; apply Fin_eq; field; lra.
Qed.

Lemma pan_step container st e nodes :
  orNull (draggedNode st) = None -> isDraggingCanvas st = true ->
  finitePoint (pan st) -> finitePoint (lastMousePos st) -> finiteMouse e ->
  let st' := fst (handleMouseMove container st e nodes) in
  pan st'
  = mkPoint
      (Fin (valueR (px (pan st)) + (valueR (clientX e) - valueR (px (lastMousePos st)))))
      (Fin (valueR (py (pan st)) + (valueR (clientY e) - valueR (py (lastMousePos st)))))
  /\ lastMousePos st' = mkPoint (clientX e) (clientY e)
  /\ zoom st' = zoom st /\ canvasSize st' = canvasSize st
  /\ draggedNode st' = draggedNode st /\ isDraggingCanvas st' = true.
Proof.
  intros Hdn Hdc [Hpx Hpy] [Hlx Hly] [Hex Hey] st'. subst st'.
  unfold handleMouseMove. rewrite Hdn, Hdc.
  cbn [fst pan lastMousePos zoom canvasSize draggedNode isDraggingCanvas].
  repeat split.
  rewrite (finite_value _ Hpx), (finite_value _ Hpy), (finite_value _ Hlx),
    (finite_value _ Hly), (finite_value _ Hex), (finite_value _ Hey).
  cbn [valueR]. rewrite !sub_Fin, !add_Fin. reflexivity.
Qed.

(** X13.  While the canvas is dragged and no node is, a run of mouse moves
    shifts the pan by exactly the way of the pointer, from the position
    recorded at the last move or press to the last position, and changes
    neither the zoom nor the size; so the world point that was under the
    pointer when the run began is under the pointer when it ends. *)
Theorem pan_follows_pointer st
    (moves : list (option (Rect xnum) * MouseEvent xnum * list (Node xnum))) :
  orNull (draggedNode st) = None -> isDraggingCanvas st = true ->
  finitePoint (pan st) -> finitePoint (lastMousePos st) ->
  Forall (fun m => finiteMouse (snd (fst m))) moves ->
  let st' := canvasRun st (moveEvents moves) in
  let last := lastPointer (lastMousePos st) moves in
  pan st'
  = mkPoint
      (Fin (valueR (px (pan st)) + (valueR (px last) - valueR (px (lastMousePos st)))))
      (Fin (valueR (py (pan st)) + (valueR (py last) - valueR (py (lastMousePos st)))))
  /\ lastMousePos st' = last
  /\ zoom st' = zoom st /\ canvasSize st' = canvasSize st
  /\ forall rect : Rect xnum,
       cameraOk rect st ->
       toWorld rect st' (px last) (py last)
       = toWorld rect st (px (lastMousePos st)) (py (lastMousePos st)).
Proof.
  intros Hdn Hdc Hpan Hlast Hmoves st' last.
  assert (Hrun : pan st'
      = mkPoint
          (Fin (valueR (px (pan st)) + (valueR (px last) - valueR (px (lastMousePos st)))))
          (Fin (valueR (py (pan st)) + (valueR (py last) - valueR (py (lastMousePos st)))))
      /\ lastMousePos st' = last /\ finitePoint last
      /\ zoom st' = zoom st /\ canvasSize st' = canvasSize st).
  { subst st' last. unfold canvasRun, lastPointer, moveEvents.
    revert st Hdn Hdc Hpan Hlast.
    induction Hmoves as [| [[c e] n] moves He Hmoves IH]; intros st Hdn Hdc Hpan Hlast.
    - cbn [map fold_left]. repeat split; try apply Hlast.
      destruct Hpan as [Hpx Hpy]. destruct (pan st) as [a b]. cbn [px py] in *.
      rewrite (finite_value _ Hpx), (finite_value _ Hpy). cbn [valueR].
      f_equal; apply Fin_eq; lra.
    - cbn [map fold_left fst snd canvasStep]. cbn [fst snd] in He.
      destruct (pan_step c st e n Hdn Hdc Hpan Hlast He)
        as (Hp1 & Hl1 & Hz1 & Hs1 & Hd1 & Hc1).
      set (st1 := fst (handleMouseMove c st e n)) in *.
      assert (Hpan1 : finitePoint (pan st1)) by (rewrite Hp1; split; exact I).
      assert (Hlast1 : finitePoint (lastMousePos st1)) by (rewrite Hl1; exact He).
      assert (Hdn1 : orNull (draggedNode st1) = None) by now rewrite Hd1.
      destruct (IH st1 Hdn1 Hc1 Hpan1 Hlast1) as (Hp & Hl & Hf & Hz & Hs).
      rewrite Hl1 in Hp, Hl, Hf.
      split; [| split; [exact Hl | split; [exact Hf | split; congruence]]].
      rewrite Hp, Hp1. cbn [px py valueR]. f_equal; apply Fin_eq; lra. }
  destruct Hrun as (Hp & Hl & Hf & Hz & Hs).
  split; [exact Hp |]. split; [exact Hl |]. split; [exact Hz |]. split; [exact Hs |].
  intros rect Hcam.
  assert (Hcam' : cameraOk rect st').
  { destruct Hcam as (Hz0 & Hp0 & Hw0 & Hh0 & Hrect).
    unfold cameraOk. rewrite Hz, Hs, Hp. repeat split; tauto. }
  destruct Hf as [Hfx Hfy], Hlast as [Hlx Hly].
  rewrite (finite_value _ Hfx), (finite_value _ Hfy),
    (finite_value _ Hlx), (finite_value _ Hly).
  rewrite (toWorld_value rect st' _ _ Hcam'), (toWorld_value rect st _ _ Hcam).
  rewrite Hz, Hs, Hp. cbn [px py valueR].
  f_equal; apply Fin_eq; lra.
Qed.

Lemma pan_follows_pointer_witness :
  let st := canvasStep initialCanvasState
              (MouseDown None (mkMouse (Fin 100) (Fin 100)) []) in
  let moves := [(None, mkMouse (Fin 130) (Fin 90), []);
                (None, mkMouse (Fin 160) (Fin 140), [])] in
  pan (canvasRun st (moveEvents moves))
  = mkPoint (Fin (valueR (px (pan st)) + (160 - 100)))
      (Fin (valueR (py (pan st)) + (140 - 100))).
Proof.
  intros st moves.
  refine (proj1 (pan_follows_pointer st moves eq_refl eq_refl _ _ _)).
  - split; exact I.
  - split; exact I.
  - repeat (apply List.Forall_cons; [split; exact I |]). apply List.Forall_nil.
Defined.

End Pointer.


(** ** Dragging a node *)

Section Dragging.

Local Open Scope R_scope.

Implicit Types (st : CanvasState xnum) (e : MouseEvent xnum)
  (nodes : list (Node xnum)) (rect : Rect xnum) (store : GraphStore xnum).

(** X14.  While a node is dragged (the dragged id is a non-empty string)
    and the container is mounted, a mouse move reports one position update,
    for that id and at the world point under the pointer.  Once the store
    has applied it, every node with that id is shown exactly under the
    pointer and has velocity zero; the other nodes, the connections and the
    stored selection are as before; the camera is unchanged, and an open
    popup is moved to the pointer.  Without a container the move does
    nothing. *)
Theorem drag_puts_node_under_pointer rect st e nodes (dragged : string) store :
  cameraOk rect st -> finiteMouse e ->
  orNull (draggedNode st) = Some dragged ->
  let st' := fst (handleMouseMove (Some rect) st e nodes) in
  let calls := snd (handleMouseMove (Some rect) st e nodes) in
  let store' := fold_left applyHostCall calls store in
  (exists wx wy,
      calls = [NodePositionUpdate dragged wx wy]
      /\ mkPoint wx wy = toWorld rect st (clientX e) (clientY e)
      /\ toScreen rect st (mkPoint wx wy) = mkPoint (clientX e) (clientY e))
  /\ zoom st' = zoom st /\ pan st' = pan st /\ canvasSize st' = canvasSize st
  /\ draggedNode st' = draggedNode st
  /\ popupPosition st'
     = match popupPosition st with
       | Some _ => Some (mkPoint (nsub (clientX e) (left rect)) (nsub (clientY e) (top rect)))
       | None => None
       end
  /\ graphConnections (graph store') = graphConnections (graph store)
  /\ selectedNode store' = selectedNode store
  /\ Forall2
       (fun n n' =>
          id n' = id n /\ label n' = label n
          /\ if String.eqb (id n) dragged
             then toScreen rect st (position n') = mkPoint (clientX e) (clientY e)
                  /\ vx n' = Some zero /\ vy n' = Some zero
             else n' = n)
       (graphNodes (graph store)) (graphNodes (graph store'))
  /\ handleMouseMove None st e nodes = (st, []).
Proof.
  intros Hcam [Hex Hey] Hdn st' calls store'. subst st' calls store'.
  unfold handleMouseMove. rewrite Hdn.
  destruct (finite_inv _ Hex) as (sx & Hsx), (finite_inv _ Hey) as (sy & Hsy).
  pose proof (toWorld_value rect st sx sy Hcam) as Hworld.
  pose proof (toScreen_toWorld rect st (mkPoint (Fin sx) (Fin sy)) Hcam
                (conj I I)) as Hback.
  cbn [px py] in Hback. rewrite <- Hsx, <- Hsy in Hworld, Hback.
  set (p := toWorld rect st (clientX e) (clientY e)) in *.
  cbn [fst snd fold_left applyHostCall graph selectedNode updateNodePosition
       graphNodes graphConnections].
  split; [| split; [| split; [| split; [| split; [| split; [| split; [| split;
    [| split]]]]]]]].
  - exists (px p), (py p). split; [reflexivity |]. split; [now destruct p |].
    rewrite <- Hback. now destruct p.
  - now destruct (popupPosition st).
  - now destruct (popupPosition st).
  - now destruct (popupPosition st).
  - now destruct (popupPosition st).
  - destruct (popupPosition st) eqn:Hpopup; [reflexivity | exact Hpopup].
  - reflexivity.
  - reflexivity.
  - apply Forall2_fmap_r, Forall_Forall2_diag, Forall_forall. intros n _.
    unfold compose.
    destruct (String.eqb (id n) dragged) eqn:Heq.
    + assert (Hmoved : moveTo dragged (px p) (py p) n
                       = mkNode (id n) (label n) (Some (px p)) (Some (py p))
                           (Some zero) (Some zero))
        by (unfold moveTo; now rewrite Heq).
      rewrite Hmoved. cbn [id label vx vy].
      repeat (split; [reflexivity |]). split; [| now split].
      assert (Hpos : position (mkNode (id n) (label n) (Some (px p)) (Some (py p))
                                 (Some zero) (Some zero)) = p).
      { unfold position. cbn [x y]. rewrite Hworld. cbn [px py].
        now rewrite !(orDefault_zero (Some (Fin _)) I). }
      rewrite Hpos. exact Hback.
    + unfold moveTo. rewrite Heq. now repeat split.
  - reflexivity.
Qed.

Lemma drag_puts_node_under_pointer_witness :
  let rect := mkRect (Fin 8) (Fin 64) in
  let st := setDraggedNode (cameraAt 2 15 (-5) 800 600) (Some "a") in
  let e := mkMouse (Fin 500) (Fin 300) in
  let a := mkNode "a" "A" (Some (Fin 0)) (Some (Fin 0)) (Some (Fin 3)) None in
  let b := mkNode "b" "B" (Some (Fin 30)) (Some (Fin 40)) None None in
  let store := mkStore (mkGraph [a; b] []) (Some a) in
  exists wx wy,
    snd (handleMouseMove (Some rect) st e [a; b]) = [NodePositionUpdate "a" wx wy]
    /\ mkPoint wx wy = toWorld rect st (clientX e) (clientY e)
    /\ toScreen rect st (mkPoint wx wy) = mkPoint (Fin 500) (Fin 300).
Proof.
  intros rect st e a b store.
  refine (proj1 (drag_puts_node_under_pointer rect st e [a; b] "a" store _ _ eq_refl)).
  - unfold cameraOk, finitePoint. simpl. repeat split; lra.
  - split; exact I.
Defined.

End Dragging.


(** ** The controls of the canvas component *)

Section Controls.

Local Open Scope R_scope.

Lemma le_then_not_lt (a b : xnum) : nle a b = true -> nlt b a = false.
Proof.
  destruct a as [r | s |], b as [r' | s' |]; cbn; try discriminate; try reflexivity.
  - destruct (Rleb_spec r r'), (Rltb_spec r' r); try discriminate; try reflexivity; lra.
  - now destruct s'.
  - now destruct s.
  - now destruct s, s'.
Qed.

Lemma shown_connection_paint (r : GraphRenderer) (nodes : list (Node xnum))
    (filterStrength : xnum) (conn : Connection xnum) :
  nle filterStrength (strength conn) = true ->
  if rendered filterStrength nodes conn
  then exists stroke,
         connectionPaint r nodes filterStrength conn = [stroke]
         /\ drawnAs r nodes conn stroke
  else connectionPaint r nodes filterStrength conn = [].
Proof.
  intros Hle. unfold rendered, connectionPaint.
  rewrite Hle, (le_then_not_lt _ _ Hle), !findNode_resolves. cbn [andb].
  destruct (findNode nodes (source conn)) as [[i src] |] eqn:Hsrc; [| reflexivity].
  destruct (findNode nodes (target conn)) as [[j tgt] |] eqn:Htgt; [| reflexivity].
  cbn [andb]. eexists. split; [reflexivity |].
  exists i, j, src, tgt. now rewrite Hsrc, Htgt.
Qed.

(** X15.  The component hands the renderer the connections of the graph
    whose strength is at least the threshold, and the renderer tests the
    threshold again.  Together they draw one stroke for each connection of
    the graph whose strength is at least the threshold and whose two ids
    resolve, in the order of the graph, whatever the strengths and the
    threshold are: a strength or a threshold that is NaN draws nothing. *)
Theorem frame_draws_filtered_connections (r : GraphRenderer)
    (g : KnowledgeGraph xnum) (filterStrength : xnum) (c : Canvas xnum) :
  let nodes := graphNodes g in
  let shown := filteredConnections g filterStrength in
  (exists strokes,
      painted (exec c (renderConnections r shown nodes filterStrength))
      = painted c ++ strokes
      /\ Forall2 (drawnAs r nodes)
           (List.filter (rendered filterStrength nodes) (graphConnections g)) strokes)
  /\ Forall (fun conn => strength conn <> NaN) shown
  /\ (filterStrength = NaN -> shown = []).
Proof.
  intros nodes shown. subst shown. unfold filteredConnections.
  split; [| split].
  - rewrite renderConnections_painted. eexists. split; [reflexivity |].
    induction (graphConnections g) as [| conn conns IH]; cbn [List.filter flat_map].
    + constructor.
    + destruct (nle filterStrength (strength conn)) eqn:Hle.
      * cbn [flat_map].
        pose proof (shown_connection_paint r nodes filterStrength conn Hle) as Hc.
        destruct (rendered filterStrength nodes conn).
        -- destruct Hc as (stroke & -> & Hdrawn). simpl. now constructor.
        -- rewrite Hc. exact IH.
      * unfold rendered at 1. rewrite Hle. exact IH.
  - apply List.Forall_forall. intros conn [_ Hle]%filter_In Hnan.
    rewrite Hnan in Hle. now destruct filterStrength.
  - intros ->. induction (graphConnections g) as [| conn conns IH]; [reflexivity |].
    cbn [List.filter]. exact IH.
Qed.

Lemma filter_weaken {A : Type} (p q : A -> bool) (l : list A) :
  (forall a, p a = true -> q a = true) -> sublist (List.filter p l) (List.filter q l).
Proof.
  intros Hpq. induction l as [| a l IH]; cbn [List.filter].
  - constructor.
  - destruct (p a) eqn:Hp.
    + rewrite (Hpq a Hp). now apply sublist_skip.
    + destruct (q a); [now apply sublist_cons | exact IH].
Qed.

(** X16.  The slider shows [1 - filterStrength], clamped to [0, 1], and a
    change of the slider to [v] sets the threshold to the number the
    subtraction [1 - v] gives: whatever the arithmetic, a connection is
    shown exactly when that number is at most its strength.  In exact
    arithmetic, moving the slider to a larger value never hides a connection
    that was shown. *)
Theorem slider_reveals_connections (g : KnowledgeGraph xnum) (v v' : R) :
  v <= v' ->
  sublist (filteredConnections g (sliderChange (Fin v)))
    (filteredConnections g (sliderChange (Fin v')))
  /\ (forall (num : Type) (N : JSNum num) (graph : KnowledgeGraph num) (value : num)
             (conn : Connection num),
        In conn (filteredConnections graph (sliderChange value))
        <-> In conn (graphConnections graph)
            /\ nle (nsub (lit 1 1) value) (strength conn) = true)
  /\ (forall f : R, sliderValue (Fin f) = Fin (Rmax 0 (Rmin 1 (1 - f))))
  /\ (forall f : R, within 0 1 (sliderValue (Fin f))).
Proof.
  intros Hv.
  assert (Hchange : forall w : R, sliderChange (Fin w) = Fin (1 - w)).
  { intros w. unfold sliderChange, one. rewrite lit_Fin, sub_Fin. apply Fin_eq. lra. }
  assert (Hvalue : forall f : R, sliderValue (Fin f) = Fin (Rmax 0 (Rmin 1 (1 - f)))).
  { intros f. unfold sliderValue, one, zero.
    rewrite !lit_Fin, sub_Fin, min_Fin, max_Fin.
    replace (0 / 1) with 0 by lra. replace (1 / 1) with 1 by lra. reflexivity. }
  split; [| split; [| split]].
  - unfold filteredConnections. apply filter_weaken. intros conn.
    rewrite !Hchange. destruct (strength conn) as [s | s |]; cbn; try easy.
    destruct (Rleb_spec (1 - v) s), (Rleb_spec (1 - v') s); try easy. lra.
  - intros num N graph value conn. unfold filteredConnections, sliderChange, one.
    apply filter_In.
  - exact Hvalue.
  - intros f. rewrite Hvalue. cbn [within].
    split; [apply Rmax_l |].
    apply Rmax_lub; [lra | apply Rmin_l].
Qed.

Lemma slider_reveals_connections_witness :
  let weak := mkConnection "a" "b" (Fin 0.2) "" false in
  let strong := mkConnection "b" "c" (Fin 0.9) "" true in
  let g := mkGraph [] [weak; strong] in
  sublist (filteredConnections g (sliderChange (Fin 0.5)))
    (filteredConnections g (sliderChange (Fin 0.9))).
Proof.
  intros weak strong g.
  refine (proj1 (slider_reveals_connections g 0.5 0.9 _)). lra.
Defined.

(** X17.  The box of the node popup is between 220 and 320 wide and between
    180 and 320 high, and its right and lower edges are at least 16 inside
    the surface.  It starts 20 to the right of the pointer, at the height of
    the pointer, when that leaves 16 on every side; on a surface at least
    252 wide (212 high) it always keeps 16 to the left (above), and on a
    smaller one it starts at [width - 236] ([height - 196]), which is
    outside the surface when this is negative.  Without a popup position
    there are no metrics. *)
Theorem popup_stays_on_surface (x0 y0 W Hs : R) :
  popupMetrics None (mkSize (Fin W) (Fin Hs)) = None
  /\ exists l t mw mh,
       popupMetrics (Some (mkPoint (Fin x0) (Fin y0))) (mkSize (Fin W) (Fin Hs))
       = Some (mkMetrics (Fin l) (Fin t) (Fin mw) (Fin mh))
       /\ mw = Rmax 220 (Rmin 320 (W - 32)) /\ mh = Rmax 180 (Rmin 320 (Hs - 32))
       /\ 220 <= mw <= 320 /\ 180 <= mh <= 320
       /\ l + mw <= W - 16 /\ t + mh <= Hs - 16
       /\ (16 <= x0 + 20 <= W - mw - 16 -> l = x0 + 20)
       /\ (16 <= y0 <= Hs - mh - 16 -> t = y0)
       /\ (252 <= W -> 16 <= l) /\ (212 <= Hs -> 16 <= t)
       /\ (W < 252 -> l = W - 236) /\ (Hs < 212 -> t = Hs - 196).
Proof.
  split; [reflexivity |].
  set (mw := Rmax 220 (Rmin 320 (W - 32))). set (mh := Rmax 180 (Rmin 320 (Hs - 32))).
  exists (Rmin (Rmax (x0 + 20) 16) (W - mw - 16)),
    (Rmin (Rmax y0 16) (Hs - mh - 16)), mw, mh.
  assert (Hmw : 220 <= mw <= 320 /\ (252 <= W -> mw <= W - 32) /\ (W < 252 -> mw = 220)).
  { subst mw. unfold Rmax, Rmin.
    destruct (Rle_dec 320 (W - 32)); destruct (Rle_dec 220 _); repeat split; lra. }
  assert (Hmh : 180 <= mh <= 320 /\ (212 <= Hs -> mh <= Hs - 32) /\ (Hs < 212 -> mh = 180)).
  { subst mh. unfold Rmax, Rmin.
    destruct (Rle_dec 320 (Hs - 32)); destruct (Rle_dec 180 _); repeat split; lra. }
  destruct Hmw as (Hmw & Hwide & Hnarrow), Hmh as (Hmh & Hhigh & Hlow).
  split.
  { unfold popupMetrics. cbn [px py width height].
    rewrite !lit_Fin, !mul_Fin, !sub_Fin, !min_Fin, !max_Fin, !add_Fin, !sub_Fin,
      !max_Fin, !min_Fin.
    subst mw mh. do 2 f_equal.
    all: repeat match goal with
           | |- Fin _ = Fin _ => apply Fin_eq
           | |- Rmin _ _ = Rmin _ _ => f_equal
           | |- Rmax _ _ = Rmax _ _ => f_equal
           | |- (_ - _ = _ - _)%R => f_equal
           end; lra. }
  clearbody mw mh.
  split; [reflexivity |]. split; [reflexivity |].
  split; [exact Hmw |]. split; [exact Hmh |].
  repeat split.
  - pose proof (Rmin_r (Rmax (x0 + 20) 16) (W - mw - 16)). lra.
  - pose proof (Rmin_r (Rmax y0 16) (Hs - mh - 16)). lra.
  - intros [Hlo Hhi]. rewrite (Rmax_left (x0 + 20) 16) by lra. now apply Rmin_left.
  - intros [Hlo Hhi]. rewrite (Rmax_left y0 16) by lra. now apply Rmin_left.
  - intros HW. apply Rmin_glb; [apply Rmax_r |]. specialize (Hwide HW). lra.
  - intros HH. apply Rmin_glb; [apply Rmax_r |]. specialize (Hhigh HH). lra.
  - intros HW. rewrite (Hnarrow HW). rewrite Rmin_right; [lra |].
    pose proof (Rmax_r (x0 + 20) 16). lra.
  - intros HH. rewrite (Hlow HH). rewrite Rmin_right; [lra |].
    pose proof (Rmax_r y0 16). lra.
Qed.

End Controls.

(** The slider on its grid of tenths in binary64: at 0.3 the subtraction
    [1 - 0.3] rounds to the double written [0.7], so a connection of
    strength 0.7 is shown, although the exact difference of the two doubles
    is above it; at 0.2 it is hidden. *)
Example slider_grid_binary64 :
  let link : Connection float := mkConnection "a" "b" (lit 7 10) "" false in
  let g := mkGraph [] [link] in
  sliderChange (lit 3 10 : float) = lit 7 10
  /\ filteredConnections g (sliderChange (lit 3 10)) = [link]
  /\ filteredConnections g (sliderChange (lit 2 10)) = [].
Proof. vm_compute. repeat split. Qed.


(** ** A gesture, from the press to the release *)

Section Gesture.

Local Open Scope R_scope.

Implicit Types (st : CanvasState xnum) (e : MouseEvent xnum)
  (nodes : list (Node xnum)) (rect : Rect xnum) (store : GraphStore xnum).

Lemma simulateN_dragged (n : nat) (sim : GraphSimulation xnum) nodes
    (connections : list (Connection xnum)) (d : option string) (i : nat)
    (node : Node xnum) :
  nodes !! i = Some node ->
  isDragged d node = true ->
  snd (simulateN n sim nodes connections d) !! i = Some node.
Proof.
  intros Hi Hd. revert sim nodes Hi.
  induction n as [| n IH]; intros sim nodes Hi.
  - exact Hi.
  - change (simulateN (S n) sim nodes connections d)
      with (simulateN n (fst (simulate sim nodes connections d))
              (snd (simulate sim nodes connections d)) connections d).
    apply IH. now apply simulate_dragged.
Qed.

(** X18.  While a node is dragged, the render loop leaves it where the last
    mouse move put it: after the store has applied the position update of
    the move, and after any number of ticks run with the dragged id of the
    hook, every node with that id is still shown exactly under the pointer,
    with velocity zero. *)
Theorem dragged_node_stays_under_pointer (n : nat) (sim : GraphSimulation xnum)
    (connections : list (Connection xnum)) rect st e nodes (dragged : string) store
    (i : nat) (node : Node xnum) :
  cameraOk rect st -> finiteMouse e ->
  orNull (draggedNode st) = Some dragged ->
  graphNodes (graph store) !! i = Some node ->
  id node = dragged ->
  let st' := fst (handleMouseMove (Some rect) st e nodes) in
  let store' :=
    fold_left applyHostCall (snd (handleMouseMove (Some rect) st e nodes)) store in
  exists node',
    snd (simulateN n sim (graphNodes (graph store')) connections
           (orNull (draggedNode st'))) !! i = Some node'
    /\ id node' = dragged /\ label node' = label node
    /\ toScreen rect st' (position node') = mkPoint (clientX e) (clientY e)
    /\ vx node' = Some zero /\ vy node' = Some zero.
Proof.
  intros Hcam [Hex Hey] Hdn Hi Hid st' store'. subst st' store'.
  unfold handleMouseMove. rewrite Hdn.
  destruct (finite_inv _ Hex) as (sx & Hsx), (finite_inv _ Hey) as (sy & Hsy).
  pose proof (toWorld_value rect st sx sy Hcam) as Hworld.
  pose proof (toScreen_toWorld rect st (mkPoint (Fin sx) (Fin sy)) Hcam
                (conj I I)) as Hback.
  cbn [px py] in Hback. rewrite <- Hsx, <- Hsy in Hworld, Hback.
  set (p := toWorld rect st (clientX e) (clientY e)) in *.
  cbn [fst snd fold_left applyHostCall graph updateNodePosition graphNodes].
  set (st' := match popupPosition st with
              | Some _ => setPopupPosition st _
              | None => st
              end).
  assert (Hsame : draggedNode st' = draggedNode st /\ zoom st' = zoom st
                  /\ pan st' = pan st /\ canvasSize st' = canvasSize st).
  { subst st'. now destruct (popupPosition st). }
  destruct Hsame as (Hd' & Hz' & Hp' & Hs').
  set (moved := mkNode (id node) (label node) (Some (px p)) (Some (py p))
                  (Some zero) (Some zero)).
  assert (Hmoved : map (moveTo dragged (px p) (py p)) (graphNodes (graph store)) !! i
                   = Some moved).
  { rewrite list_lookup_fmap, Hi. cbn [fmap option_fmap option_map].
    unfold moveTo. now rewrite (proj2 (String.eqb_eq _ _) Hid). }
  exists moved. rewrite Hd', Hdn. split.
  { apply simulateN_dragged; [exact Hmoved |].
    unfold isDragged, moved. cbn [id]. now apply String.eqb_eq. }
  split; [exact Hid |]. split; [reflexivity |]. split; [| now split].
  assert (Hpos : position moved = p).
  { unfold position, moved. cbn [x y]. rewrite Hworld. cbn [px py].
    now rewrite !(orDefault_zero (Some (Fin _)) I). }
  rewrite Hpos. unfold toScreen. rewrite Hz', Hp', Hs'. exact Hback.
Qed.

Lemma dragged_node_stays_under_pointer_witness :
  let rect := mkRect (Fin 8) (Fin 64) in
  let st := setDraggedNode (cameraAt 2 15 (-5) 800 600) (Some "a") in
  let e := mkMouse (Fin 500) (Fin 300) in
  let a := mkNode "a" "A" (Some (Fin 0)) (Some (Fin 0)) (Some (Fin 3)) None in
  let b := mkNode "b" "B" (Some (Fin 30)) (Some (Fin 40)) None None in
  let link := mkConnection "a" "b" (Fin 0.5) "" false in
  let store := mkStore (mkGraph [a; b] [link]) (Some a) in
  let st' := fst (handleMouseMove (Some rect) st e [a; b]) in
  let store' :=
    fold_left applyHostCall (snd (handleMouseMove (Some rect) st e [a; b])) store in
  exists node',
    snd (simulateN 5 newGraphSimulation (graphNodes (graph store')) [link]
           (orNull (draggedNode st'))) !! 0%nat = Some node'
    /\ id node' = "a" /\ label node' = "A"
    /\ toScreen rect st' (position node') = mkPoint (Fin 500) (Fin 300)
    /\ vx node' = Some zero /\ vy node' = Some zero.
Proof.
  intros rect st e a b link store.
  refine (dragged_node_stays_under_pointer 5 newGraphSimulation [link] rect st e [a; b]
            "a" store 0 a _ _ eq_refl eq_refl eq_refl).
  - unfold cameraOk, finitePoint. simpl. repeat split; lra.
  - split; exact I.
Defined.



End Gesture.


(** ** The ink of a frame *)

Section Ink.

Context {num : Type} `{JSNum num} `{JSText}.

Implicit Types (nodes : list (Node num)) (c : Canvas num).

Lemma renderConnection_ink (r : GraphRenderer) nodes (filterStrength : num)
    (conn : Connection num) c :
  if isDrawn nodes filterStrength conn
  then lineDash (exec c (renderConnection r nodes filterStrength conn)) = dashOf conn
       /\ globalAlpha (exec c (renderConnection r nodes filterStrength conn)) = lit 1 1
  else renderConnection r nodes filterStrength conn = [].
Proof.
  unfold isDrawn, renderConnection, dashOf. rewrite !findNode_resolves.
  destruct (nlt (strength conn) filterStrength); [reflexivity |].
  destruct (findNode nodes (source conn)) as [[si src] |]; [| reflexivity].
  destruct (findNode nodes (target conn)) as [[ti tgt] |]; [| reflexivity].
  cbn [negb andb]. destruct (isSurprising conn); split; reflexivity.
Qed.

Lemma renderConnections_ink (r : GraphRenderer) nodes (filterStrength : num)
    (shown : list (Connection num)) c :
  lineDash (exec c (renderConnections r shown nodes filterStrength))
  = match last (List.filter (isDrawn nodes filterStrength) shown) with
    | Some conn => dashOf conn
    | None => lineDash c
    end
  /\ globalAlpha (exec c (renderConnections r shown nodes filterStrength))
     = match List.filter (isDrawn nodes filterStrength) shown with
       | [] => globalAlpha c
       | _ :: _ => lit 1 1
       end.
Proof.
  unfold renderConnections. revert c.
  induction shown as [| conn shown IH]; intros c; cbn [flat_map List.filter].
  - split; reflexivity.
  - rewrite exec_app.
    destruct (IH (exec c (renderConnection r nodes filterStrength conn))) as [IHd IHa].
    pose proof (renderConnection_ink r nodes filterStrength conn c) as Hconn.
    destruct (isDrawn nodes filterStrength conn).
    + destruct Hconn as [Hd Ha]. rewrite IHd, IHa, Hd, Ha, last_cons.
      split.
      * now destruct (last (List.filter (isDrawn nodes filterStrength) shown)).
      * now destruct (List.filter (isDrawn nodes filterStrength) shown).
    + rewrite Hconn in IHd, IHa. cbn [exec fold_left] in IHd, IHa.
      rewrite Hconn. cbn [exec fold_left]. now split.
Qed.

(** X20.  In a frame the outline of a hovered or selected node is stroked
    with the line dash of the last connection drawn in that frame: dashed
    [5, 5] when that connection is surprising, solid otherwise, and with
    opacity 1; only when the frame draws no connection does it keep the dash
    and the opacity the context had.  [renderNodes] never sets either. *)
Theorem outline_inherits_the_last_dash (r : GraphRenderer) (nodes : list (Node num))
    (shown : list (Connection num)) (filterStrength : num)
    (hoveredNodeId : option string) (selected : option (Node num))
    (searchQuery : string) (sz : Size num) (z : num) (p : Point num) (c : Canvas num) :
  let after := exec c (drawFrame r nodes shown filterStrength hoveredNodeId selected
                         searchQuery sz z p) in
  let drawn := List.filter (isDrawn nodes filterStrength) shown in
  let dash := match last drawn with Some conn => dashOf conn | None => lineDash c end in
  let opacity := match drawn with [] => globalAlpha c | _ :: _ => lit 1 1 end in
  painted after
  = painted c
    ++ flat_map (connectionPaint r nodes filterStrength) shown
    ++ flat_map (nodePaint r hoveredNodeId (orNull (id <$> selected)) searchQuery z
                   dash opacity) nodes
  /\ forall node,
       In node nodes ->
       isNode hoveredNodeId node || isNode (orNull (id <$> selected)) node = true ->
       In (Stroked [Circle (position node) (nodeRadius hoveredNodeId node)]
             (themed r "#fff" "#000") (lit 2 1) dash opacity)
          (painted after).
Proof.
  intros after drawn dash opacity.
  set (camera := exec c (clear (width sz) (height sz)
                         ++ setupTransform (width sz) (height sz) z p)).
  set (lines := exec camera (renderConnections r shown nodes filterStrength)).
  set (inked := exec lines (renderNodes r nodes hoveredNodeId (orNull (id <$> selected))
                              searchQuery z)).
  assert (Hafter : after = exec inked restoreTransform).
  { subst after inked lines camera. unfold drawFrame. now rewrite !app_assoc, !exec_app. }
  assert (Hcamera : lineDash camera = lineDash c /\ globalAlpha camera = globalAlpha c
                    /\ painted camera = painted c).
  { subst camera. now cbn. }
  destruct Hcamera as (Hcd & Hca & Hcp).
  destruct (renderConnections_ink r nodes filterStrength shown camera) as [Hd Ha].
  fold lines in Hd, Ha. fold drawn in Hd, Ha. rewrite Hcd in Hd. rewrite Hca in Ha.
  fold dash in Hd. fold opacity in Ha.
  assert (Hpainted : painted after
    = painted c
      ++ flat_map (connectionPaint r nodes filterStrength) shown
      ++ flat_map (nodePaint r hoveredNodeId (orNull (id <$> selected)) searchQuery z
                     dash opacity) nodes).
  { rewrite Hafter. unfold restoreTransform, exec at 1. cbn [fold_left execOp].
    assert (Hrestore : forall k : Canvas num,
               painted (match savedCtm k with
                        | t :: stack => withCtm k t stack
                        | [] => k
                        end) = painted k).
    { intros k. now destruct (savedCtm k). }
    rewrite Hrestore. subst inked.
    rewrite renderNodes_painted, Hd, Ha. subst lines.
    rewrite renderConnections_painted, Hcp. now rewrite <- app_assoc. }
  split; [exact Hpainted |].
  intros node Hin Hmarked. rewrite Hpainted.
  apply in_or_app. right. apply in_or_app. right.
  apply in_flat_map. exists node. split; [exact Hin |].
  unfold nodePaint. rewrite Hmarked. cbn [app]. right. now left.
Qed.

End Ink.


(** ** Hovering *)

Section Hovering.

Local Open Scope R_scope.


End Hovering.


(** ** Position updates in the store *)

Section Updates.

Context {num : Type} `{JSNum num}.

Implicit Types (g : KnowledgeGraph num) (nodes : list (Node num)).

Lemma moveTo_id (k : string) (x0 y0 : num) (n : Node num) : id (moveTo k x0 y0 n) = id n.
Proof. unfold moveTo. now destruct (String.eqb (id n) k). Qed.

Lemma resolves_moved nodes (k key : string) (x0 y0 : num) :
  resolves (map (moveTo k x0 y0) nodes) key = resolves nodes key.
Proof.
  unfold resolves. induction nodes as [| n nodes IH]; [reflexivity |].
  cbn [map existsb]. now rewrite moveTo_id, IH.
Qed.

(** X22.  A position update for an id that names no node leaves the graph
    as it is.  Otherwise it keeps the number, the order, the ids and the
    labels of the nodes and every connection, so a graph whose connections
    all name two nodes stays so.  Of two updates for the same id the later
    one wins, and updates for different ids can be swapped. *)
Theorem position_updates_compose (k k' : string) (x1 y1 x2 y2 : num) g :
  (resolves (graphNodes g) k = false -> updateNodePosition k x1 y1 g = g)
  /\ Forall2 sameIdentity (graphNodes (updateNodePosition k x1 y1 g)) (graphNodes g)
  /\ graphConnections (updateNodePosition k x1 y1 g) = graphConnections g
  /\ (intact g -> intact (updateNodePosition k x1 y1 g))
  /\ updateNodePosition k x2 y2 (updateNodePosition k x1 y1 g)
     = updateNodePosition k x2 y2 g
  /\ (k <> k' ->
      updateNodePosition k' x2 y2 (updateNodePosition k x1 y1 g)
      = updateNodePosition k x1 y1 (updateNodePosition k' x2 y2 g)).
Proof.
  unfold updateNodePosition. cbn [graphNodes graphConnections].
  split; [| split; [| split; [| split; [| split]]]].
  - intros Hnone. destruct g as [nodes conns]. cbn [graphNodes graphConnections] in *.
    f_equal. unfold resolves in Hnone.
    induction nodes as [| n nodes IH]; [reflexivity |].
    cbn [existsb] in Hnone. apply orb_false_iff in Hnone as [Hn Hrest].
    cbn [map]. rewrite (IH Hrest). unfold moveTo. now rewrite Hn.
  - apply Forall2_fmap_l, Forall_Forall2_diag, Forall_forall. intros n _.
    unfold compose, sameIdentity, moveTo. now destruct (String.eqb (id n) k).
  - reflexivity.
  - unfold intact. cbn [graphNodes graphConnections]. intros Hintact.
    eapply Forall_impl; [exact Hintact |]. intros c [Hs Ht]. cbn beta in *.
    now rewrite !resolves_moved.
  - f_equal. rewrite map_map. apply map_ext. intros n. unfold moveTo.
    destruct (String.eqb (id n) k) eqn:Hn; cbn [id]; now rewrite Hn.
  - intros Hne. f_equal. rewrite !map_map. apply map_ext. intros n. unfold moveTo.
    destruct (String.eqb (id n) k) eqn:Hn, (String.eqb (id n) k') eqn:Hn';
      cbn [id]; rewrite ?Hn, ?Hn'; try reflexivity.
    apply String.eqb_eq in Hn, Hn'. congruence.
Qed.

End Updates.
